(** * Cover downloader: the candidate resolution pipeline

    A shallow embedding of the pure core of
    [rim_radio_downloader_fastmode_selectable_genrefolders.py]:
    [slug], [parse_year_from_date], [soft_year_filter], [title_similarity],
    [dedup_by_image], [App._maybe_autopick] and one resolution round of
    [App._worker_thread], together with the part of CPython's
    [difflib.SequenceMatcher] that [title_similarity] runs
    ([__chain_b], [find_longest_match], [get_matching_blocks], [ratio]).
    Around that core: the requests with their two caches ([http_get_json],
    [http_get_bytes]), the three providers, the save step of the worker and
    [App._collect_failed_indices].  From [Sandwicher.py]: [paste_centered],
    [detect_largest_blue_rect] and the file names chosen by
    [App._next_album_filename] and [App._save_image].

    Conventions.
    - A Python [str] is a list of Unicode code points ([list N]).
    - A value that may be [None] is an [option].
    - Python [int]s are [Z]; list indices and lengths are [nat].
    - A [dict] is a [gmap], a [set] a [gset]; [bytes] are a list of bytes.
    - The module-level caches are threaded as a state, next to the list of
      the requests sent; the network and the file system are functions that
      say what a request returns or raises, which paths exist, and which
      operations on files raise.
    - The float returned by [ratio] is kept as the exact fraction
      [2*matches / length] in [Q].  The double division is correctly rounded,
      hence monotone, and two different fractions with denominators below
      2^26 round to different doubles; the literal [0.92] is the double
      nearest to 23/25.  So below that size every comparison the program
      makes between scores has the same answer on the fractions. *)

From Stdlib Require Import ZArith NArith QArith Lia List.
From stdpp Require Import base list gmap sets sorting.

Abbreviation pystr := (list N).

(** ** Characters *)

Module Char.

Definition slash : N := 0x2F%N.
Definition underscore : N := 0x5F%N.

Definition between (lo hi c : N) : bool := ((lo <=? c) && (c <=? hi))%N.

(** [str.isspace] on one code point, which is also what [\s] matches in a
    [str] pattern (both are [Py_UNICODE_ISSPACE]). *)
Definition is_space (c : N) : bool :=
  between 0x09 0x0D c || between 0x1C 0x20 c || (c =? 0x85)%N || (c =? 0xA0)%N
  || (c =? 0x1680)%N || between 0x2000 0x200A c || (c =? 0x2028)%N
  || (c =? 0x2029)%N || (c =? 0x202F)%N || (c =? 0x205F)%N || (c =? 0x3000)%N.

Definition is_upper_ascii (c : N) : bool := between 0x41 0x5A c.
Definition is_lower_ascii (c : N) : bool := between 0x61 0x7A c.
Definition is_digit_ascii (c : N) : bool := between 0x30 0x39 c.

(** The class [[A-Za-z0-9._+-]] of [slug]. *)
Definition is_slug_char (c : N) : bool :=
  is_upper_ascii c || is_lower_ascii c || is_digit_ascii c
  || (c =? 0x2E)%N || (c =? 0x5F)%N || (c =? 0x2B)%N || (c =? 0x2D)%N.

(** The class [[a-z0-9]] of [title_similarity]. *)
Definition is_lower_alnum (c : N) : bool := is_lower_ascii c || is_digit_ascii c.

(** The first code point of every run of ten decimal digits (category Nd,
    Unicode 14, the table of CPython 3.11): [\d] matches exactly the code
    points [z .. z+9] for [z] in this list, and [int] reads [z+k] as [k]. *)
Definition decimal_zeros : list N :=
  [0x30; 0x660; 0x6F0; 0x7C0; 0x966; 0x9E6; 0xA66; 0xAE6; 0xB66; 0xBE6;
   0xC66; 0xCE6; 0xD66; 0xDE6; 0xE50; 0xED0; 0xF20; 0x1040; 0x1090; 0x17E0;
   0x1810; 0x1946; 0x19D0; 0x1A80; 0x1A90; 0x1B50; 0x1BB0; 0x1C40; 0x1C50;
   0xA620; 0xA8D0; 0xA900; 0xA9D0; 0xA9F0; 0xAA50; 0xABF0; 0xFF10; 0x104A0;
   0x10D30; 0x11066; 0x110F0; 0x11136; 0x111D0; 0x112F0; 0x11450; 0x114D0;
   0x11650; 0x116C0; 0x11730; 0x118E0; 0x11950; 0x11C50; 0x11D50; 0x11DA0;
   0x16A60; 0x16AC0; 0x16B50; 0x1D7CE; 0x1D7D8; 0x1D7E2; 0x1D7EC; 0x1D7F6;
   0x1E140; 0x1E2F0; 0x1E950; 0x1FBF0]%N.

Fixpoint decimal_in (zeros : list N) (c : N) : option Z :=
  match zeros with
  | [] => None
  | z :: zeros' =>
      if between z (z + 9) c then Some (Z.of_N (c - z)) else decimal_in zeros' c
  end.

(** The decimal value of a code point that [\d] matches, [None] for the rest. *)
Definition decimal (c : N) : option Z := decimal_in decimal_zeros c.

(** [str.lower] on one code point, as far as [title_similarity] can see it:
    the function deletes everything outside [[a-z0-9]] right after
    lowercasing, and the only code points whose lowercase form holds such a
    character are [A-Z], U+0130 (i with a combining dot) and U+212A (the
    Kelvin sign).  No code point lowercases to the empty string.  Every other
    code point is left in place here. *)
Definition lower (c : N) : list N :=
  if is_upper_ascii c then [(c + 32)%N]
  else if (c =? 0x130)%N then [0x69; 0x307]%N
  else if (c =? 0x212A)%N then [0x6B]%N
  else [c].

End Char.

(** ** String operations *)

Module Str.

(** [s or ""]. *)
Definition or_empty (s : option pystr) : pystr := default [] s.

(** Truth value of a string that may be [None]. *)
Definition truthy (s : option pystr) : bool :=
  match s with
  | Some (_ :: _) => true
  | _ => false
  end.

Fixpoint lstrip (s : pystr) : pystr :=
  match s with
  | c :: s' => if Char.is_space c then lstrip s' else s
  | [] => []
  end.

Definition rstrip (s : pystr) : pystr := reverse (lstrip (reverse s)).

(** [s.strip()]. *)
Definition strip (s : pystr) : pystr := rstrip (lstrip s).

(** [s.replace(old, new)] for one-character [old] and [new]. *)
Definition replace (old new : N) (s : pystr) : pystr :=
  map (fun c => if (c =? old)%N then new else c) s.

(** [re.sub(r"\s+", "_", s)]: [in_run] tells that the previous character
    was whitespace, so the run it belongs to has already been replaced. *)
Fixpoint sub_space_runs (in_run : bool) (s : pystr) : pystr :=
  match s with
  | [] => []
  | c :: s' =>
      if Char.is_space c
      then (if in_run then sub_space_runs true s'
            else Char.underscore :: sub_space_runs true s')
      else c :: sub_space_runs false s'
  end.

(** [re.sub(r"[^CLASS]+", "", s)]: every character outside the class goes. *)
Definition keep (class : N -> bool) (s : pystr) : pystr := List.filter class s.

(** [s.lower()], see [Char.lower]. *)
Definition lower (s : pystr) : pystr := concat (map Char.lower s).

(** [int(g)] for a string of decimal digits. *)
Definition int_of_digits (ds : list Z) : Z :=
  foldl (fun acc d => (10 * acc + d)%Z) 0%Z ds.

(** [re.match(r"^(\d{4})", s)]: the values of the four digits of group 1. *)
Definition match_4_digits (s : pystr) : option (list Z) :=
  match s with
  | c1 :: c2 :: c3 :: c4 :: _ =>
      match Char.decimal c1, Char.decimal c2, Char.decimal c3, Char.decimal c4 with
      | Some d1, Some d2, Some d3, Some d4 => Some [d1; d2; d3; d4]
      | _, _, _, _ => None
      end
  | _ => None
  end.

End Str.

(** ** [slug] and [parse_year_from_date] *)

Definition slug (s : option pystr) : pystr :=
  let s := Str.replace Char.slash Char.underscore (Str.strip (Str.or_empty s)) in
  let s := Str.sub_space_runs false s in
  let s := Str.keep Char.is_slug_char s in
  take 180 s.

Definition parse_year_from_date (d : option pystr) : option Z :=
  if negb (Str.truthy d) then None
  else match Str.match_4_digits (Str.or_empty d) with
       | Some g => Some (Str.int_of_digits g)
       | None => None
       end.

(** ** Candidates and the two post-filters *)

(** One provider result: the dict every provider builds, key by key. *)
Record Candidate := {
  provider : pystr;
  image : option pystr;
  thumb : option pystr;
  title : option pystr;
  artist : option pystr;
  year : option Z
}.

(** The test of the loop body of [soft_year_filter]:
    [cy is None or abs(int(cy) - Y) <= tol]. *)
Definition year_within (Y tol : Z) (c : Candidate) : bool :=
  match year c with
  | None => true
  | Some cy => (Z.abs (cy - Y) <=? tol)%Z
  end.

Definition soft_year_filter (candidates : list Candidate)
    (target_year : option Z) (tol : Z) : list Candidate :=
  match target_year with
  | None => candidates
  | Some Y =>
      let tol := Z.max 0 tol in
      foldl (fun out c => if year_within Y tol c then out ++ [c] else out)
            [] candidates
  end.

(** The loop body of [dedup_by_image] on the pair [(seen, out)]. *)
Definition dedup_step (st : gset (list N) * list Candidate) (c : Candidate)
    : gset (list N) * list Candidate :=
  let '(seen, out) := st in
  match image c with
  | Some u =>
      if Str.truthy (Some u) && negb (bool_decide (u ∈ seen))
      then ({[u]} ∪ seen, out ++ [c])
      else (seen, out)
  | None => (seen, out)
  end.

Definition dedup_by_image (candidates : list Candidate) : list Candidate :=
  snd (foldl dedup_step (∅, []) candidates).

(** ** [difflib.SequenceMatcher(None, a, b)]

    [isjunk] is [None] and [autojunk] keeps its default [True]: this is how
    [title_similarity] builds the matcher. *)

Module SequenceMatcher.

Abbreviation Match := (nat * nat * nat)%type.

Section Chain.

Variable b : list N.

(** *** [__chain_b] *)

(** [indices = b2j.setdefault(elt, []); indices.append(i)] *)
Definition chain_step (b2j : gmap N (list nat)) (ie : nat * N)
    : gmap N (list nat) :=
  <[ie.2 := default [] (b2j !! ie.2) ++ [ie.1]]> b2j.

(** The dict after the loop over [enumerate(b)]. *)
Definition b2j_full : gmap N (list nat) := foldl chain_step ∅ (imap pair b).

Definition autojunk : bool := true.

Definition ntest : nat := length b / 100 + 1.

(** The elements of [b] with more than [ntest] occurrences, when [b] has at
    least 200 elements. *)
Definition bpopular : gset N :=
  if autojunk && (200 <=? length b)
  then dom (filter (fun kv : N * list nat => ntest < length kv.2) b2j_full)
  else ∅.

(** The attribute [b2j] that [__chain_b] leaves: the popular elements are
    deleted. *)
Definition chain_b : gmap N (list nat) :=
  let popular := bpopular in
  filter (fun kv : N * list nat => kv.1 ∉ popular) b2j_full.

End Chain.

(** [isjunk] is [None]: no element is junk. *)
Definition bjunk : gset N := ∅.

Definition isbjunk (x : N) : bool := bool_decide (x ∈ bjunk).

(** The methods below read the attributes [a], [b] and [b2j] of the
    matcher. *)
Section Matcher.

Variables a b : list N.
Variable b2j : gmap N (list nat).

(** *** [find_longest_match] *)

(** The loop [for j in b2j.get(a[i], nothing)] of row [i].  The start of the
    new best block, [i-k+1], is written [i+1-k]: [k] never exceeds [i+1]
    (lemma [scan_row_bounds] below), so the subtraction on [nat] is exact. *)
Fixpoint scan_row (i blo bhi : nat) (j2len : gmap Z nat) (js : list nat)
    (newj2len : gmap Z nat) (best : Match) : gmap Z nat * Match :=
  match js with
  | [] => (newj2len, best)
  | j :: js' =>
      if j <? blo then scan_row i blo bhi j2len js' newj2len best
      else if bhi <=? j then (newj2len, best)
      else
        let k := default 0 (j2len !! (Z.of_nat j - 1)%Z) + 1 in
        let newj2len := <[Z.of_nat j := k]> newj2len in
        let best := if best.2 <? k then (i + 1 - k, j + 1 - k, k) else best in
        scan_row i blo bhi j2len js' newj2len best
  end.

(** One turn of [for i in range(alo, ahi)] on the pair [(j2len, best)].
    [get_matching_blocks] only passes [ahi <= len(a)], so [a[i]] exists. *)
Definition row_step (blo bhi : nat) (st : gmap Z nat * Match) (i : nat)
    : gmap Z nat * Match :=
  let js := default [] (a !! i ≫= fun x => b2j !! x) in
  scan_row i blo bhi st.1 js ∅ st.2.

Definition longest_junk_free (alo ahi blo bhi : nat) : Match :=
  (foldl (row_step blo bhi) (∅, (alo, blo, 0)) (seq alo (ahi - alo))).2.

(** [a[i] == b[j]] for indices inside both strings. *)
Definition same_elt (i j : nat) : bool :=
  match a !! i, b !! j with
  | Some x, Some y => (x =? y)%N
  | _, _ => false
  end.

(** [isbjunk(b[j])] compared with the truth value the loop asks for. *)
Definition junk_is (want : bool) (j : nat) : bool :=
  match b !! j with
  | Some y => Bool.eqb (isbjunk y) want
  | None => false
  end.

(** [while besti > alo and bestj > blo and (not) isbjunk(b[bestj-1]) and
    a[besti-1] == b[bestj-1]], by recursion on [besti]. *)
Fixpoint extend_left (want : bool) (alo blo besti bestj bestsize : nat) : Match :=
  match besti with
  | 0 => (besti, bestj, bestsize)
  | S besti' =>
      if (alo <? besti) && (blo <? bestj) && junk_is want (bestj - 1)
         && same_elt (besti - 1) (bestj - 1)
      then extend_left want alo blo besti' (bestj - 1) (bestsize + 1)
      else (besti, bestj, bestsize)
  end.

(** [while besti+bestsize < ahi and bestj+bestsize < bhi and (not)
    isbjunk(b[bestj+bestsize]) and a[besti+bestsize] == b[bestj+bestsize]];
    [room] is [ahi - (besti+bestsize)], the number of turns the first test
    leaves. *)
Fixpoint extend_right (want : bool) (room ahi bhi besti bestj bestsize : nat)
    : Match :=
  match room with
  | 0 => (besti, bestj, bestsize)
  | S room' =>
      if (besti + bestsize <? ahi) && (bestj + bestsize <? bhi)
         && junk_is want (bestj + bestsize)
         && same_elt (besti + bestsize) (bestj + bestsize)
      then extend_right want room' ahi bhi besti bestj (bestsize + 1)
      else (besti, bestj, bestsize)
  end.

Definition extend (want : bool) (alo ahi blo bhi : nat) (m : Match) : Match :=
  let '(besti, bestj, bestsize) := extend_left want alo blo m.1.1 m.1.2 m.2 in
  extend_right want (ahi - (besti + bestsize)) ahi bhi besti bestj bestsize.

Definition find_longest_match (alo ahi blo bhi : nat) : Match :=
  let m := longest_junk_free alo ahi blo bhi in
  let m := extend false alo ahi blo bhi m in
  extend true alo ahi blo bhi m.

(** *** [get_matching_blocks] *)

Abbreviation Range := (nat * nat * nat * nat)%type.

(** The body of [while queue]: the [queue] is kept with its last element
    first, so [queue.pop()] takes the head and [queue.append] conses. *)
Definition blocks_step (queue : list Range) (matching_blocks : list Match)
    : option (list Range * list Match) :=
  match queue with
  | [] => None
  | (alo, ahi, blo, bhi) :: queue =>
      let x := find_longest_match alo ahi blo bhi in
      let '(i, j, k) := x in
      if k =? 0 then Some (queue, matching_blocks)
      else
        let queue := if (alo <? i) && (blo <? j)
                     then (alo, i, blo, j) :: queue else queue in
        let queue := if (i + k <? ahi) && (j + k <? bhi)
                     then (i + k, ahi, j + k, bhi) :: queue else queue in
        Some (queue, matching_blocks ++ [x])
  end.

(** [while queue: ...], at most [fuel] turns.  [blocks_loop_done] below shows
    that the fuel [get_matching_blocks] gives always empties the queue. *)
Fixpoint blocks_loop (fuel : nat) (queue : list Range)
    (matching_blocks : list Match) : list Range * list Match :=
  match fuel with
  | 0 => (queue, matching_blocks)
  | S fuel' =>
      match blocks_step queue matching_blocks with
      | None => (queue, matching_blocks)
      | Some (queue', matching_blocks') =>
          blocks_loop fuel' queue' matching_blocks'
      end
  end.

(** Tuple comparison, the order of [matching_blocks.sort()]. *)
Definition Match_le (x y : Match) : Prop :=
  x.1.1 < y.1.1 \/ (x.1.1 = y.1.1 /\ (x.1.2 < y.1.2 \/ (x.1.2 = y.1.2 /\ x.2 <= y.2))).

#[global] Instance Match_le_dec x y : Decision (Match_le x y).
Proof. unfold Match_le. apply _. Defined.

(** The body of the loop that merges adjacent blocks, on
    [((i1, j1, k1), non_adjacent)]. *)
Definition collapse_step (st : Match * list Match) (m2 : Match)
    : Match * list Match :=
  let '((i1, j1, k1), non_adjacent) := st in
  let '(i2, j2, k2) := m2 in
  if (i1 + k1 =? i2) && (j1 + k1 =? j2) then ((i1, j1, k1 + k2), non_adjacent)
  else ((i2, j2, k2),
        if k1 =? 0 then non_adjacent else non_adjacent ++ [(i1, j1, k1)]).

Definition collapse (matching_blocks : list Match) : list Match :=
  let '((i1, j1, k1), non_adjacent) :=
    foldl collapse_step ((0, 0, 0), []) matching_blocks in
  if k1 =? 0 then non_adjacent else non_adjacent ++ [(i1, j1, k1)].

Definition blocks_fuel : nat := 2 * length a + 1.

Definition found_blocks : list Range * list Match :=
  blocks_loop blocks_fuel [(0, length a, 0, length b)] [].

Definition get_matching_blocks : list Match :=
  let matching_blocks := merge_sort Match_le found_blocks.2 in
  collapse matching_blocks ++ [(length a, length b, 0)].

(** *** [ratio] *)

(** [sum(triple[-1] for triple in self.get_matching_blocks())] *)
Definition matches : nat := sum_list (snd <$> get_matching_blocks).

End Matcher.

(** [2.0 * matches / length if length else 1.0] *)
Definition _calculate_ratio (matches length : nat) : Q :=
  if length =? 0 then 1
  else Z.of_nat (2 * matches) # Pos.of_nat length.

Definition ratio (a b : list N) : Q :=
  let b2j := chain_b b in
  _calculate_ratio (matches a b b2j) (length a + length b).

End SequenceMatcher.

(** ** [title_similarity] *)

Definition title_similarity (a b : option pystr) : Q :=
  let a := Str.lower (Str.or_empty a) in
  let b := Str.lower (Str.or_empty b) in
  if negb (Str.truthy (Some a)) || negb (Str.truthy (Some b)) then 0
  else SequenceMatcher.ratio (Str.keep Char.is_lower_alnum a)
                             (Str.keep Char.is_lower_alnum b).

(** ** [App._maybe_autopick] *)

(** [int(year) if year and str(year).isdigit() else None] for the value the
    worker passes, an [int] or [None]: an [int] is true when it is not 0, and
    its decimal form is all digits when it has no sign. *)
Definition year_as_int (year : option Z) : option Z :=
  match year with
  | Some y => if negb (y =? 0)%Z && (0 <=? y)%Z then Some y else None
  | None => None
  end.

(** [target_year is not None and cy is not None and
     abs(int(cy) - target_year) > tol] *)
Definition year_gate (target_year : option Z) (tol : Z) (c : Candidate) : bool :=
  match target_year, year c with
  | Some ty, Some cy => (tol <? Z.abs (cy - ty))%Z
  | _, _ => false
  end.

Definition Qlt_bool (x y : Q) : bool := negb (Qle_bool y x).

(** The threshold of the automatic pick, the literal [0.92]. *)
Definition confident : Q := 92 # 100.

(** The loop body of [_maybe_autopick] on [(best, best_score)]. *)
Definition autopick_step (target_title : pystr) (target_year : option Z)
    (tol : Z) (st : option Candidate * Q) (c : Candidate)
    : option Candidate * Q :=
  let score := title_similarity (Some target_title) (title c) in
  if year_gate target_year tol c then st
  else if Qlt_bool st.2 score then (Some c, score) else st.

Definition autopick_scan (target_title : pystr) (target_year : option Z)
    (tol : Z) (candidates : list Candidate) : option Candidate * Q :=
  foldl (autopick_step target_title target_year tol) (None, 0%Q) candidates.

(** [tol] is [int(self.year_tolerance.get())]. *)
Definition _maybe_autopick (tol : Z) (artist album : option pystr)
    (year : option Z) (candidates : list Candidate) : option pystr :=
  match candidates with
  | [] => None
  | _ =>
      let target_title := Str.or_empty album in
      let target_year := year_as_int year in
      match autopick_scan target_title target_year tol candidates with
      | (Some best, best_score) =>
          if Qle_bool confident best_score then image best else None
      | (None, _) => None
      end
  end.

(** ** One round of [App._worker_thread] *)

(** What a future gives back when [fut.result()] is called: the list the
    provider returned (or a false value), or the exception it raised. *)
Inductive Completed :=
  | Returned (part : option (list Candidate))
  | Raised (e : pystr).

(** A computation that may raise. *)
Inductive Try (A : Type) :=
  | Ok (x : A)
  | Exc (e : pystr).
Arguments Ok {A} x.
Arguments Exc {A} e.

Definition fut_result (fut : Completed) : Try (option (list Candidate)) :=
  match fut with
  | Returned part => Ok part
  | Raised e => Exc e
  end.

(** The loop [for fut in as_completed(jobs)] with its [try]/[except Exception]:
    the state is [candidates] and the lines given to [rowlog]. *)
Fixpoint collect (done : list Completed) (candidates : list Candidate)
    (log : list pystr) : Try (list Candidate * list pystr) :=
  match done with
  | [] => Ok (candidates, log)
  | fut :: done' =>
      match fut_result fut with
      | Ok part => collect done' (candidates ++ default [] part) log
      | Exc e => collect done' candidates (log ++ [e])
      end
  end.

(** The three provider switches and what each provider would answer. *)
Record Providers := {
  use_itunes : bool; itunes : Completed;
  use_deezer : bool; deezer : Completed;
  use_mb : bool; musicbrainz : Completed
}.

(** The futures submitted, in the order of the three [if]s. *)
Definition jobs (p : Providers) : list Completed :=
  (if use_itunes p then [itunes p] else [])
  ++ (if use_deezer p then [deezer p] else [])
  ++ (if use_mb p then [musicbrainz p] else []).

(** The answer of [choose_url_ui], or [None] when the wait was stopped. *)
Inductive Choice :=
  | Chosen (url : option pystr)
  | RetryWith (artist album : pystr) (year : option Z).

Inductive Outcome :=
  | NotFound
  | Resolved (url : pystr)
  | Retry (artist album : pystr) (year : option Z)
  | Skipped
  | Error.

(** A round either ends by itself or hands the candidates to the selection
    dialog and goes on with the answer. *)
Inductive Round :=
  | Done (o : Outcome)
  | AwaitSelection (candidates : list Candidate) (k : Choice -> Outcome).

(** What the worker does with the answer of the dialog. *)
Definition after_choice (choice : Choice) : Outcome :=
  match choice with
  | RetryWith artist album year => Retry artist album year
  | Chosen url => if Str.truthy url then Resolved (Str.or_empty url) else Skipped
  end.

(** The body of [while True] from the two post-filters down to the point
    where [url] is known; [yr_int] is the integer year of the query.
    [Resolved url] stands for reaching the "Save" part with that [url];
    a [url] that is [None] there makes [re.search] raise, which the enclosing
    [except] turns into an error status. *)
Definition decide_round (ask_always : bool) (tol : Z)
    (artist album : option pystr) (yr_int : option Z)
    (collected : list Candidate) : Round :=
  let candidates := soft_year_filter collected yr_int tol in
  let candidates := dedup_by_image candidates in
  match candidates with
  | [] => Done NotFound
  | first :: _ =>
      let url := if negb ask_always
                 then _maybe_autopick tol artist album yr_int candidates
                 else None in
      if Str.truthy url then Done (Resolved (Str.or_empty url))
      else if (1 <? length candidates) || ask_always
      then AwaitSelection candidates after_choice
      else match image first with
           | Some url => Done (Resolved url)
           | None => Done Error
           end
  end.

(** A round from the providers' answers: [done] is the order in which the
    futures complete. *)
Definition resolution_round (ask_always : bool) (tol : Z)
    (artist album : option pystr) (yr_int : option Z)
    (done : list Completed) : Try Round :=
  match collect done [] [] with
  | Ok (candidates, _) =>
      Ok (decide_round ask_always tol artist album yr_int candidates)
  | Exc e => Exc e
  end.

(** ** Notions used to state the properties *)

(** The candidates a completed future contributes. *)
Definition returned_by (fut : Completed) : list Candidate :=
  match fut with
  | Returned part => default [] part
  | Raised _ => []
  end.

(** The exception a completed future raised, if it did. *)
Definition raised_by (fut : Completed) : list pystr :=
  match fut with
  | Returned _ => []
  | Raised e => [e]
  end.


(** What the entries of [j2len] satisfy once the rows below [n] are done:
    the keys are positions of [b] inside the window, and a length neither
    reaches back before [alo] in [a] nor before [blo] in [b]. *)
Definition row_bounded (alo blo bhi n : nat) (j2len : gmap Z nat) : Prop :=
  forall z v, j2len !! z = Some v ->
    exists j, z = Z.of_nat j /\ blo <= j < bhi
              /\ 1 <= v /\ v + alo <= n /\ v + blo <= j + 1.

(** A block that lies inside the window [a[alo:ahi]], [b[blo:bhi]]. *)
Definition block_within (alo ahi blo bhi : nat) (m : nat * nat * nat) : Prop :=
  alo <= m.1.1 /\ m.1.1 + m.2 <= ahi /\ blo <= m.1.2 /\ m.1.2 + m.2 <= bhi.


(** A window of the queue of [get_matching_blocks], its weight in the
    termination argument, and the room it has for matches on each side. *)
Definition range_valid (r : nat * nat * nat * nat) : Prop :=
  r.1.1.1 <= r.1.1.2 /\ r.1.2 <= r.2.
Definition range_weight (r : nat * nat * nat * nat) : nat :=
  2 * (r.1.1.2 - r.1.1.1) + 1.
Definition range_room_a (r : nat * nat * nat * nat) : nat := r.1.1.2 - r.1.1.1.
Definition range_room_b (r : nat * nat * nat * nat) : nat := r.2 - r.1.2.

(** The sum of the sizes of a list of blocks. *)
Definition total_size (blocks : list (nat * nat * nat)) : nat :=
  sum_list (snd <$> blocks).


(** For a string [s] matched against itself: position [t] has a list in
    [b2j] (its character was not deleted as popular). *)
Definition indexed (s : list N) (b2j : gmap N (list nat)) (t : nat) : bool :=
  bool_decide (is_Some (s !! t ≫= fun x => b2j !! x)).

(** The number of consecutive indexed positions that end just before
    position [n], not going back before [lo]. *)
Fixpoint diagonal_run (s : list N) (b2j : gmap N (list nat)) (lo n : nat) : nat :=
  match n with
  | 0 => 0
  | S t => if (lo <=? t) && indexed s b2j t then S (diagonal_run s b2j lo t) else 0
  end.

(** The entries of a row of [j2len] stay below the runs on the diagonal. *)
Definition run_bounded (s : list N) (lo n : nat) (j2len : gmap Z nat) : Prop :=
  forall z v, j2len !! z = Some v ->
    exists j, z = Z.of_nat j
              /\ v <= diagonal_run s (SequenceMatcher.chain_b s) lo n
              /\ v <= diagonal_run s (SequenceMatcher.chain_b s) lo (S j).

(** A block on the diagonal, inside the rows below [n]. *)
Definition on_diagonal (lo n : nat) (best : nat * nat * nat) : Prop :=
  best.1.1 = best.1.2 /\ lo <= best.1.1 /\ best.1.1 + best.2 <= n.

(** What holds of [(j2len, best)] before row [n] of a string against
    itself. *)
Definition self_inv (s : list N) (lo n : nat)
    (st : gmap Z nat * (nat * nat * nat)) : Prop :=
  run_bounded s lo n st.1
  /\ default 0 (st.1 !! (Z.of_nat n - 1)%Z)
     = diagonal_run s (SequenceMatcher.chain_b s) lo n
  /\ on_diagonal lo n st.2
  /\ forall t, t <= n -> diagonal_run s (SequenceMatcher.chain_b s) lo t <= st.2.2.


(** The normal form [title_similarity] compares: lowercased, then only
    [[a-z0-9]] kept. *)
Definition normalized (s : list N) : list N :=
  Str.keep Char.is_lower_alnum (Str.lower s).

(** Sample titles. *)
Definition tide : list N := [0x74; 0x69; 0x64; 0x65]%N.
Definition diet : list N := [0x64; 0x69; 0x65; 0x74]%N.
Definition bangs : list N := [0x21; 0x21; 0x21]%N.
Definition queries : list N := [0x3F; 0x3F; 0x3F]%N.


(** Sample candidates: the scenario of the two "OK Computer" releases. *)
Definition ok_computer : list N :=
  [0x4F; 0x4B; 0x20; 0x43; 0x6F; 0x6D; 0x70; 0x75; 0x74; 0x65; 0x72]%N.
Definition ok_computer_remaster : list N :=
  ok_computer ++ [0x20; 0x28; 0x52; 0x65; 0x6D; 0x61; 0x73; 0x74; 0x65; 0x72; 0x29]%N.
Definition radiohead : list N :=
  [0x52; 0x61; 0x64; 0x69; 0x6F; 0x68; 0x65; 0x61; 0x64]%N.
Definition url_A : list N := [0x41]%N.
Definition url_B : list N := [0x42]%N.
Definition release_1997 : Candidate :=
  {| provider := []; image := Some url_A; thumb := Some url_A;
     title := Some ok_computer; artist := Some radiohead; year := Some 1997%Z |}.
Definition release_2017 : Candidate :=
  {| provider := []; image := Some url_B; thumb := Some url_B;
     title := Some ok_computer_remaster; artist := Some radiohead;
     year := Some 2017%Z |}.
Definition reissue_2017 : Candidate :=
  {| provider := []; image := Some url_B; thumb := Some url_B;
     title := Some ok_computer; artist := Some radiohead; year := Some 2017%Z |}.
Definition remaster_1997 : Candidate :=
  {| provider := []; image := Some url_A; thumb := Some url_A;
     title := Some ok_computer_remaster; artist := Some radiohead;
     year := Some 1997%Z |}.


(** A sample configuration: the first provider fails, the second returns two
    candidates, the third is switched off. *)
Definition sample_providers : Providers :=
  {| use_itunes := true; itunes := Raised [0x65; 0x72; 0x72]%N;
     use_deezer := true; deezer := Returned (Some [release_1997; release_2017]);
     use_mb := false; musicbrainz := Returned None |}.

(** "1997-05-21" *)
Definition iso_date : list N :=
  [0x31; 0x39; 0x39; 0x37; 0x2D; 0x30; 0x35; 0x2D; 0x32; 0x31]%N.


(** The block [(i, j, k)] names equal stretches: [a[i:i+k] == b[j:j+k]]. *)
Definition block_matches (a b : list N) (m : nat * nat * nat) : Prop :=
  forall t, t < m.2 ->
    exists x, a !! (m.1.1 + t) = Some x /\ b !! (m.1.2 + t) = Some x.

(** Every position listed in [b2j] under [x] holds [x] in [b]. *)
Definition b2j_sound (b : list N) (b2j : gmap N (list nat)) : Prop :=
  forall x js j, b2j !! x = Some js -> j ∈ js -> b !! j = Some x.

(** An entry [v] of [j2len] under [j], once the rows below [n] are done, is
    the length of a common stretch that ends at row [n-1] and column [j]. *)
Definition row_matches (a b : list N) (n : nat) (j2len : gmap Z nat) : Prop :=
  forall z v, j2len !! z = Some v ->
    exists j, z = Z.of_nat j /\ v <= n /\ v <= j + 1
              /\ block_matches a b (n - v, j + 1 - v, v).

(** The two windows of a range hold the same elements. *)
Definition slices_equal (a b : list N) (r : nat * nat * nat * nat) : Prop :=
  r.1.1.2 - r.1.1.1 = r.2 - r.1.2
  /\ forall t, t < r.1.1.2 - r.1.1.1 -> a !! (r.1.1.1 + t) = b !! (r.1.2 + t).


(** Sample titles: "OK Computer" and "ok-computer!". *)
Definition ok_computer_shouted : list N :=
  [0x6F; 0x6B; 0x2D; 0x63; 0x6F; 0x6D; 0x70; 0x75; 0x74; 0x65; 0x72; 0x21]%N.


(** ** Text constants and decimal numbers *)

From Stdlib Require Strings.String Strings.Ascii.

(** The string literals of the two programs (all of them ASCII). *)
Module Text.
Import Stdlib.Strings.String Stdlib.Strings.Ascii.
Local Open Scope string_scope.

Definition py (s : string) : list N := List.map N_of_ascii (list_ascii_of_string s).

Definition Unknown : list N := py "Unknown".
Definition album_ : list N := py "album_".
Definition dot_png : list N := py ".png".
Definition NA : list N := py "NA".
Definition dot_jpg : list N := py ".jpg".
Definition jpg : list N := py "jpg".
Definition jpeg : list N := py "jpeg".
Definition png : list N := py "png".
Definition webp : list N := py "webp".
Definition tif : list N := py "tif".
Definition tiff : list N := py "tiff".
Definition Searching : list N := py "Searching...".
Definition Not_found : list N := py "Not found".
Definition Skipped : list N := py "Skipped".
Definition Exists_skipped : list N := py "Exists - skipped".
Definition OK : list N := py "OK".
Definition Error : list N := py "Error".
Definition Error_colon : list N := py "Error: ".
Definition iTunes : list N := py "iTunes".
Definition Deezer : list N := py "Deezer".
Definition CoverArtArchive : list N := py "CoverArtArchive".
Definition double_underscore : list N := py "__".
Definition space : list N := py " ".
Definition None_ : list N := py "None".
Definition itunes_search : list N := py "https://itunes.apple.com/search".
Definition term : list N := py "term".
Definition media : list N := py "media".
Definition music : list N := py "music".
Definition entity : list N := py "entity".
Definition album : list N := py "album".
Definition limit : list N := py "limit".
Definition size_1000 : list N := py "1000".
Definition size_200 : list N := py "200".
Definition bb_dot : list N := py "bb.".
Definition deezer_search : list N := py "https://api.deezer.com/search/album".
Definition deezer_album : list N := py "https://api.deezer.com/album/".
Definition q : list N := py "q".
Definition musicbrainz_release : list N := py "https://musicbrainz.org/ws/2/release/".
Definition fmt : list N := py "fmt".
Definition json : list N := py "json".
Definition query : list N := py "query".
Definition AND : list N := py " AND ".
Definition artist_colon : list N := py "artist:".
Definition release_colon : list N := py "release:".
Definition date_colon : list N := py "date:".
Definition caa_release : list N := py "https://coverartarchive.org/release/".
Definition front_1200 : list N := py "front-1200".
Definition front : list N := py "front".
Definition front_500 : list N := py "front-500".

End Text.

(** [str(n)] for an integer that is not negative.  The fuel is the number
    of binary digits, which is no less than the number of decimal ones
    ([digits_value] below). *)
Fixpoint digits_fuel (fuel : nat) (n : N) (acc : list N) : list N :=
  match fuel with
  | 0 => acc
  | S fuel' =>
      let acc := (0x30 + n mod 10)%N :: acc in
      if (n <? 10)%N then acc else digits_fuel fuel' (n / 10)%N acc
  end.

Definition str_of_N (n : N) : list N :=
  digits_fuel (S (N.to_nat (N.log2 n))) n [].

(** [str(z)] for any integer. *)
Definition str_of_Z (z : Z) : list N :=
  if (z <? 0)%Z then 0x2D%N :: str_of_N (Z.to_N (- z)) else str_of_N (Z.to_N z).

(** [f"{n:0{width}d}"] for an integer that is not negative. *)
Definition zero_padded (width : nat) (n : N) : list N :=
  let s := str_of_N n in replicate (width - length s) 0x30%N ++ s.

(** ** [Sandwicher.py]: where the cover goes *)

Module Sandwicher.

(** [paste_centered]: the corner at which the overlay is composited. *)
Definition paste_centered (box : Z * Z * Z * Z) (overlay_size : Z * Z) : Z * Z :=
  let '(x0, y0, x1, y1) := box in
  let bw := (x1 - x0)%Z in
  let bh := (y1 - y0)%Z in
  let '(ow, oh) := overlay_size in
  ((x0 + (bw - ow) / 2)%Z, (y0 + (bh - oh) / 2)%Z).

(** The placement of [_compose_one] and [_make_composite_preview]:
    [if prepared.size == (bw, bh): ... (bx0, by0) else: paste_centered]. *)
Definition cover_corner (blue_rect : Z * Z * Z * Z) (prepared_size : Z * Z)
    : Z * Z :=
  let '(bx0, by0, bx1, by1) := blue_rect in
  let bw := (bx1 - bx0)%Z in
  let bh := (by1 - by0)%Z in
  if bool_decide (prepared_size = (bw, bh)) then (bx0, by0)
  else paste_centered blue_rect prepared_size.

(** *** [detect_largest_blue_rect] *)

(** An image in mode RGBA: its size and what [img.load()] gives at
    [x, y]. *)
Record Image := {
  width : nat;
  height : nat;
  px : nat -> nat -> Z * Z * Z * Z
}.

(** [a > 0 and b >= blue_min and r <= rg_max and g <= rg_max and b > r
    and b > g] *)
Definition is_blue (blue_min rg_max : Z) (p : Z * Z * Z * Z) : bool :=
  let '(r, g, b, a) := p in
  (0 <? a)%Z && (blue_min <=? b)%Z && (r <=? rg_max)%Z && (g <=? rg_max)%Z
  && (r <? b)%Z && (g <? b)%Z.

(** The mask, an image in mode L that starts all 0: the pixels written. *)
Definition mark_row (img : Image) (blue_min rg_max : Z) (mp : gmap (nat * nat) Z)
    (y : nat) : gmap (nat * nat) Z :=
  foldl (fun mp x => if is_blue blue_min rg_max (px img x y)
                     then <[(x, y) := 255%Z]> mp else mp)
        mp (seq 0 (width img)).

Definition blue_mask (img : Image) (blue_min rg_max : Z) : gmap (nat * nat) Z :=
  foldl (mark_row img blue_min rg_max) ∅ (seq 0 (height img)).

Definition nonzero (mp : gmap (nat * nat) Z) (x y : nat) : bool :=
  match mp !! (x, y) with
  | Some v => negb (v =? 0)%Z
  | None => false
  end.

(** [Image.getbbox] of Pillow, after its documentation: the bounding box
    (left, upper, right, lower) of the pixels that are not 0, [right] and
    [lower] being one past the last such column and row, and [None] for an
    image that is all 0. *)
Definition getbbox (w h : nat) (mp : gmap (nat * nat) Z)
    : option (Z * Z * Z * Z) :=
  let xs := List.filter (fun x => existsb (fun y => nonzero mp x y) (seq 0 h))
                        (seq 0 w) in
  let ys := List.filter (fun y => existsb (fun x => nonzero mp x y) (seq 0 w))
                        (seq 0 h) in
  match head xs, head ys, last xs, last ys with
  | Some x0, Some y0, Some x1, Some y1 =>
      Some (Z.of_nat x0, Z.of_nat y0, (Z.of_nat x1 + 1)%Z, (Z.of_nat y1 + 1)%Z)
  | _, _, _, _ => None
  end.

Definition detect_largest_blue_rect (img : Image) (blue_min rg_max pad : Z)
    : option (Z * Z * Z * Z) :=
  let w := width img in
  let h := height img in
  match getbbox w h (blue_mask img blue_min rg_max) with
  | None => None
  | Some (x0, y0, x1, y1) =>
      Some (Z.max 0 (x0 - pad), Z.max 0 (y0 - pad),
            Z.min (Z.of_nat w) (x1 + pad), Z.min (Z.of_nat h) (y1 + pad))%Z
  end.

(** *** Names of the files written *)

(** [while True: candidate = ...; if not candidate.exists(): return
    candidate; n += 1], for at most [fuel] names. *)
Fixpoint first_free (exists_ : list N -> bool) (name_of : nat -> list N)
    (fuel n : nat) : option (list N) :=
  match fuel with
  | 0 => None
  | S fuel' =>
      if exists_ (name_of n) then first_free exists_ name_of fuel' (S n)
      else Some (name_of n)
  end.

(** [f"album_{genre}_{n:0{digits}d}.png"] *)
Definition album_name (genre : list N) (digits n : nat) : list N :=
  Text.album_ ++ genre ++ [Char.underscore] ++ zero_padded digits (N.of_nat n)
  ++ Text.dot_png.

(** The scan of [_next_album_filename] over the entries of the directory,
    each a name and whether it is a file.  [numbered] stands for the match
    of the compiled pattern followed by [int(m.group(1))]: the number in a
    name that the pattern accepts. *)
Definition scan_max (numbered : list N -> option nat)
    (entries : list (list N * bool)) : nat :=
  foldl (fun max_n e =>
           if negb e.2 then max_n
           else match numbered e.1 with
                | Some n => if max_n <? n then n else max_n
                | None => max_n
                end)
        0 entries.

Definition _next_album_filename (numbered : list N -> option nat)
    (entries : list (list N * bool)) (exists_ : list N -> bool)
    (genre : list N) (digits fuel : nat) : option (list N) :=
  let max_n := scan_max numbered entries in
  first_free exists_ (album_name genre digits) fuel (max_n + 1).

(** [f"{stem}{suffix}_{i}.png"] *)
Definition bumped_name (stem suffix : list N) (i : nat) : list N :=
  stem ++ suffix ++ [Char.underscore] ++ str_of_N (N.of_nat i) ++ Text.dot_png.

(** The name [_save_image] writes to, inside [out_dir]: [exists_] tells
    whether a name is taken there, [stem] is [Path(cover_path).stem]. *)
Definition save_name (numbered : list N -> option nat)
    (entries : list (list N * bool)) (exists_ : list N -> bool)
    (auto_name : bool) (num_digits : Z) (spine_choice suffix stem : list N)
    (fuel : nat) : option (list N) :=
  let genre := if Str.truthy (Some (Str.strip spine_choice))
               then Str.strip spine_choice else Text.Unknown in
  if auto_name
  then _next_album_filename numbered entries exists_ genre
         (Z.to_nat (Z.max 1 num_digits)) fuel
  else
    let out_path := stem ++ suffix ++ Text.dot_png in
    if exists_ out_path then first_free exists_ (bumped_name stem suffix) fuel 1
    else Some out_path.

End Sandwicher.

(** The value of an ASCII digit, to state what a printed number reads
    back as. *)
Definition digit_value (c : N) : Z := (Z.of_N c - 0x30)%Z.

Definition digits_value (s : list N) : Z :=
  Str.int_of_digits (digit_value <$> s).

(** Sample strings for the worked examples. *)
Module Sample.
Import Stdlib.Strings.String Stdlib.Strings.Ascii.
Local Open Scope string_scope.

Definition Rock : list N := Text.py "Rock".
Definition album_Rock_007 : list N := Text.py "album_(Rock)_007.png".
Definition cover : list N := Text.py "cover".
Definition _framed : list N := Text.py "_framed".

End Sample.

(** A white image of 4 by 3 pixels with two blue pixels in its middle
    row. *)
Definition two_blue_pixels : Sandwicher.Image :=
  {| Sandwicher.width := 4;
     Sandwicher.height := 3;
     Sandwicher.px := fun x y =>
       if (y =? 1) && (1 <=? x) && (x <=? 2)
       then (10, 20, 200, 255)%Z else (255, 255, 255, 255)%Z |}.


(** ** The downloader's requests and providers *)

(** [sep.join(parts)] *)
Fixpoint join (sep : pystr) (parts : list pystr) : pystr :=
  match parts with
  | [] => []
  | [p] => p
  | p :: parts' => p ++ sep ++ join sep parts'
  end.

(** [x or y] on values that are a string or [None]. *)
Definition or_else (x y : option pystr) : option pystr :=
  if Str.truthy x then x else y.

(** [s <= t] on strings: the order [sorted] uses, by code point. *)
Fixpoint str_leb (s t : pystr) : bool :=
  match s, t with
  | [], _ => true
  | _ :: _, [] => false
  | c :: s', d :: t' => (c <? d)%N || ((c =? d)%N && str_leb s' t')
  end.

Module Net.

(** The values the callers put in [params]. *)
Inductive Value :=
  | VStr (s : pystr)
  | VInt (z : Z)
  | VNone.

(** [f"{v}"] *)
Definition format (v : Value) : pystr :=
  match v with
  | VStr s => s
  | VInt z => str_of_Z z
  | VNone => Text.None_
  end.

Abbreviation Params := (gmap pystr Value).

(** The parsed responses, with the fields the providers read.  A field is
    [None] when the key is missing or holds [null]; the model covers
    responses in which the fields read have the types the three services
    document (strings, lists of objects, an integer id). *)
Record ITunesResult := {
  artworkUrl100 : option pystr;
  artworkUrl60 : option pystr;
  collectionName : option pystr;
  artistName : option pystr;
  releaseDate : option pystr
}.

Record DeezerArtist := { artist_name : option pystr }.

Record DeezerAlbum := {
  album_id : option Z;
  cover : option pystr;
  cover_medium : option pystr;
  cover_big : option pystr;
  cover_xl : option pystr;
  album_title : option pystr;
  album_artist : option DeezerArtist
}.

Record MBRelease := {
  mbid : option pystr;
  release_title : option pystr;
  date : option pystr
}.

Inductive Json :=
  | ITunesSearch (results : option (list ITunesResult))
  | DeezerSearch (data : option (list DeezerAlbum))
  | DeezerDetail (release_date : option pystr)
  | MBSearch (releases : option (list MBRelease)).

(** [data.get("results", []) or []] and its likes: a response of another
    shape has no such key. *)
Definition get_results (data : Json) : list ITunesResult :=
  match data with ITunesSearch (Some l) => l | _ => [] end.

Definition get_data (data : Json) : list DeezerAlbum :=
  match data with DeezerSearch (Some l) => l | _ => [] end.

Definition get_release_date (detail : Json) : option pystr :=
  match detail with DeezerDetail d => d | _ => None end.

Definition get_releases (data : Json) : list MBRelease :=
  match data with MBSearch (Some l) => l | _ => [] end.

(** The two module-level caches, and the URLs requested so far (the latest
    last), which serve as the clock of the outside world. *)
Record State := {
  _json_cache : gmap pystr Json;
  _bytes_cache : gmap pystr (list Byte.byte);
  sent : list pystr
}.

(** What the network answers to the request number [n] (counting from 0):
    the parsed body, the content, or the exception raised by the transport,
    by [raise_for_status] or by the parser.  The headers and the timeout of
    a request are fixed by its call site, which the URL identifies. *)
Record Web := {
  json_reply : nat -> pystr -> option Params -> Try Json;
  bytes_reply : nat -> pystr -> Try (list Byte.byte)
}.

Definition key_le (x y : pystr * Value) : Prop := str_leb x.1 y.1.

(** [url + "?" + "&".join(f"{k}={params[k]}" for k in sorted(params or {}))]:
    the items of the dictionary in the order of their keys. *)
Definition cache_key (url : pystr) (params : option Params) : pystr :=
  url ++ [0x3F%N]
  ++ join [0x26%N]
       ((fun kv : pystr * Value => kv.1 ++ [0x3D%N] ++ format kv.2)
          <$> merge_sort key_le (map_to_list (default ∅ params))).

Definition http_get_json (web : Web) (url : pystr) (params : option Params)
    (st : State) : Try Json * State :=
  let key := cache_key url params in
  match _json_cache st !! key with
  | Some data => (Ok data, st)
  | None =>
      match json_reply web (length (sent st)) url params with
      | Ok data =>
          (Ok data, {| _json_cache := <[key := data]> (_json_cache st);
                       _bytes_cache := _bytes_cache st;
                       sent := sent st ++ [url] |})
      | Exc e =>
          (Exc e, {| _json_cache := _json_cache st;
                     _bytes_cache := _bytes_cache st;
                     sent := sent st ++ [url] |})
      end
  end.

Definition http_get_bytes (web : Web) (url : pystr) (st : State)
    : Try (list Byte.byte) * State :=
  match _bytes_cache st !! url with
  | Some data => (Ok data, st)
  | None =>
      match bytes_reply web (length (sent st)) url with
      | Ok data =>
          (Ok data, {| _json_cache := _json_cache st;
                       _bytes_cache := <[url := data]> (_bytes_cache st);
                       sent := sent st ++ [url] |})
      | Exc e =>
          (Exc e, {| _json_cache := _json_cache st;
                     _bytes_cache := _bytes_cache st;
                     sent := sent st ++ [url] |})
      end
  end.

(** *** [provider_itunes] *)

(** The longest run of [\d] at the start of [s], and what follows it. *)
Fixpoint digit_run (s : pystr) : pystr * pystr :=
  match s with
  | c :: s' =>
      match Char.decimal c with
      | Some _ => let '(ds, rest) := digit_run s' in (c :: ds, rest)
      | None => ([], s)
      end
  | [] => ([], [])
  end.

(** [$]: the end of the string, or the newline that ends it. *)
Definition at_end (s : pystr) : bool :=
  match s with
  | [] => true
  | [c] => (c =? 0x0A)%N
  | _ => false
  end.

(** [\d+x\d+bb\.(jpg|png)$] on the text after a "/": the group and the
    rest of the string. *)
Definition artwork_tail (s : pystr) : option (pystr * pystr) :=
  match digit_run s with
  | (_ :: _, x :: s1) =>
      match digit_run s1 with
      | (_ :: _, b1 :: b2 :: dot :: c1 :: c2 :: c3 :: rest) =>
          let group := [c1; c2; c3] in
          if (x =? 0x78)%N && bool_decide ([b1; b2; dot] = Text.bb_dot)
             && (bool_decide (group = Text.jpg) || bool_decide (group = Text.png))
             && at_end rest
          then Some (group, rest) else None
      | _ => None
      end
  | _ => None
  end.

(** [re.sub(r"/\d+x\d+bb\.(jpg|png)$", rf"/{size}x{size}bb.\1", s)] *)
Fixpoint sub_artwork (size : pystr) (s : pystr) : pystr :=
  match s with
  | [] => []
  | c :: s' =>
      match (if (c =? Char.slash)%N then artwork_tail s' else None) with
      | Some (group, rest) =>
          [Char.slash] ++ size ++ [0x78%N] ++ size ++ Text.bb_dot ++ group ++ rest
      | None => c :: sub_artwork size s'
      end
  end.

(** The dictionary appended for one result. *)
Definition itunes_candidate (r : ITunesResult) : Candidate :=
  let art := or_else (artworkUrl100 r) (artworkUrl60 r) in
  let full := if Str.truthy art
              then Some (sub_artwork Text.size_1000 (Str.or_empty art)) else None in
  let thumb_ := if Str.truthy art
                then Some (sub_artwork Text.size_200 (Str.or_empty art)) else None in
  {| provider := Text.iTunes;
     image := or_else full art;
     thumb := or_else thumb_ (or_else full art);
     title := collectionName r;
     artist := artistName r;
     year := parse_year_from_date (releaseDate r) |}.

(** [" ".join([artist or "", album or ""]).strip()] *)
Definition search_term (artist album : option pystr) : pystr :=
  Str.strip (join Text.space [Str.or_empty artist; Str.or_empty album]).

Definition provider_itunes (web : Web) (artist album : option pystr)
    (limit : Z) (st : State) : Try (list Candidate) * State :=
  let term := search_term artist album in
  if negb (Str.truthy (Some term)) then (Ok [], st)
  else
    let params : Params :=
      {[ Text.term := VStr term; Text.media := VStr Text.music;
         Text.entity := VStr Text.album; Text.limit := VInt limit ]} in
    match http_get_json web Text.itunes_search (Some params) st with
    | (Ok data, st') => (Ok (itunes_candidate <$> get_results data), st')
    | (Exc e, st') => (Exc e, st')
    end.

(** *** [provider_deezer] *)

(** [l[:limit]] *)
Definition up_to {A : Type} (limit : Z) (l : list A) : list A :=
  if (0 <=? limit)%Z then take (Z.to_nat limit) l
  else take (length l - Z.to_nat (- limit)) l.

(** [f"https://api.deezer.com/album/{r.get('id')}"] *)
Definition detail_url (r : DeezerAlbum) : pystr :=
  Text.deezer_album ++ match album_id r with
                       | Some z => str_of_Z z
                       | None => Text.None_
                       end.

Definition deezer_candidate (r : DeezerAlbum) (year_ : option Z) : Candidate :=
  let cover_m := or_else (cover_medium r)
                   (or_else (cover r) (or_else (cover_big r) (cover_xl r))) in
  let cover_f := or_else (cover_xl r)
                   (or_else (cover_big r) (or_else (cover_medium r) (cover r))) in
  {| provider := Text.Deezer;
     image := cover_f;
     thumb := or_else cover_m cover_f;
     title := album_title r;
     artist := match album_artist r with
               | Some a => artist_name a
               | None => None
               end;
     year := year_ |}.

(** The body of the loop over the albums. *)
Definition deezer_step (web : Web) (fast : bool)
    (acc : list Candidate * State) (r : DeezerAlbum) : list Candidate * State :=
  let '(out, st) := acc in
  if fast then (out ++ [deezer_candidate r None], st)
  else
    match http_get_json web (detail_url r) None st with
    | (Ok detail, st') =>
        (out ++ [deezer_candidate r (parse_year_from_date (get_release_date detail))],
         st')
    | (Exc _, st') => (out ++ [deezer_candidate r None], st')
    end.

Definition provider_deezer (web : Web) (artist album : option pystr)
    (limit : Z) (fast : bool) (st : State) : Try (list Candidate) * State :=
  let q := search_term artist album in
  if negb (Str.truthy (Some q)) then (Ok [], st)
  else
    let params : Params := {[ Text.q := VStr q ]} in
    match http_get_json web Text.deezer_search (Some params) st with
    | (Ok data, st') =>
        let '(out, st'') :=
          foldl (deezer_step web fast) ([], st') (up_to limit (get_data data)) in
        (Ok out, st'')
    | (Exc e, st') => (Exc e, st')
    end.

(** *** [provider_musicbrainz_caa] *)

Definition caa_url (mbid_ suffix : pystr) : pystr :=
  Text.caa_release ++ mbid_ ++ [Char.slash] ++ suffix.

(** The loop over the three suffixes for one release: the candidate
    appended, if any, and the state. *)
Fixpoint caa_front (web : Web) (r : MBRelease) (mbid_ : pystr)
    (suffixes : list pystr) (st : State) : option Candidate * State :=
  match suffixes with
  | [] => (None, st)
  | suffix :: suffixes' =>
      let url := caa_url mbid_ suffix in
      match http_get_bytes web url st with
      | (Ok b, st') =>
          if (400 <? length b) 
          then (Some {| provider := Text.CoverArtArchive;
                        image := Some url;
                        thumb := Some url;
                        title := release_title r;
                        artist := None;
                        year := parse_year_from_date (date r) |}, st')
          else caa_front web r mbid_ suffixes' st'
      | (Exc _, st') => caa_front web r mbid_ suffixes' st'
      end
  end.

Definition caa_step (web : Web) (acc : list Candidate * State) (r : MBRelease)
    : list Candidate * State :=
  let '(out, st) := acc in
  if negb (Str.truthy (mbid r)) then (out, st)
  else
    match caa_front web r (Str.or_empty (mbid r))
            [Text.front_1200; Text.front; Text.front_500] st with
    | (Some c, st') => (out ++ [c], st')
    | (None, st') => (out, st')
    end.

(** The list [q] of the query parts; [year] is true when it is not 0. *)
Definition mb_query (artist album : option pystr) (year_ : option Z)
    : list pystr :=
  (if Str.truthy artist
   then [Text.artist_colon ++ [0x22%N] ++ Str.or_empty artist ++ [0x22%N]] else [])
  ++ (if Str.truthy album
      then [Text.release_colon ++ [0x22%N] ++ Str.or_empty album ++ [0x22%N]] else [])
  ++ (match year_ with
      | Some y => if (y =? 0)%Z then [] else [Text.date_colon ++ str_of_Z y]
      | None => []
      end).

(** [params] of the search. *)
Definition mb_params (artist album : option pystr) (year_ : option Z)
    (limit : Z) : Params :=
  let q := mb_query artist album year_ in
  {[ Text.fmt := VStr Text.json;
     Text.query := match q with
                   | [] => match album with Some s => VStr s | None => VNone end
                   | _ => VStr (join Text.AND q)
                   end;
     Text.limit := VInt limit ]}.

Definition provider_musicbrainz_caa (web : Web) (artist album : option pystr)
    (year_ : option Z) (limit : Z) (st : State)
    : Try (list Candidate) * State :=
  if negb (Str.truthy artist || Str.truthy album) then (Ok [], st)
  else
    let params := mb_params artist album year_ limit in
    match http_get_json web Text.musicbrainz_release (Some params) st with
    | (Ok data, st') =>
        let '(out, st'') := foldl (caa_step web) ([], st') (get_releases data) in
        (Ok out, st'')
    | (Exc e, st') => (Exc e, st')
    end.

End Net.

(** ** The save step of [App._worker_thread] and the row statuses *)

Module Save.

(** A letter of the pattern against a character under [re.I]: the letter,
    its capital and, for "i", the two dotted and dotless forms that
    case-insensitive matching adds (U+0130, U+0131). *)
Definition ci_eq (c d : N) : bool :=
  ((d =? c) || (d =? c - 32)
   || ((c =? 0x69) && ((d =? 0x130) || (d =? 0x131))))%N.

(** The literal [p] at the start of [s]: the text matched and the rest. *)
Fixpoint ci_prefix (p s : pystr) : option (pystr * pystr) :=
  match p with
  | [] => Some ([], s)
  | c :: p' =>
      match s with
      | d :: s' =>
          if ci_eq c d
          then match ci_prefix p' s' with
               | Some (m, rest) => Some (d :: m, rest)
               | None => None
               end
          else None
      | [] => None
      end
  end.

(** [(\?|$)] *)
Definition follows (rest : pystr) : bool :=
  match rest with
  | c :: _ => (c =? 0x3F)%N || Net.at_end rest
  | [] => true
  end.

Definition ext_names : list pystr :=
  [Text.jpg; Text.jpeg; Text.png; Text.webp; Text.tif; Text.tiff].

(** [(jpg|jpeg|png|webp|tif|tiff)(\?|$)] at the start of [s], the
    alternatives tried in their order: the text of the group. *)
Fixpoint ext_alt (alts : list pystr) (s : pystr) : option pystr :=
  match alts with
  | [] => None
  | alt :: alts' =>
      match ci_prefix alt s with
      | Some (m, rest) => if follows rest then Some m else ext_alt alts' s
      | None => ext_alt alts' s
      end
  end.

(** [re.search] of the pattern: the group of the leftmost match. *)
Fixpoint search_ext (url : pystr) : option pystr :=
  match url with
  | [] => None
  | c :: rest =>
      match (if (c =? 0x2E)%N then ext_alt ext_names rest else None) with
      | Some m => Some m
      | None => search_ext rest
      end
  end.

(** [ext = ".jpg"; if m: ext = "." + m.group(1).lower()] *)
Definition url_ext (url : pystr) : pystr :=
  match search_ext url with
  | Some m => [0x2E%N] ++ Str.lower m
  | None => Text.dot_jpg
  end.

(** [str(yr_int) if yr_int else 'NA'] *)
Definition year_text (yr_int : option Z) : pystr :=
  match yr_int with
  | Some y => if (y =? 0)%Z then Text.NA else str_of_Z y
  | None => Text.NA
  end.

(** [fname] *)
Definition file_name (artist album : option pystr) (yr_int : option Z)
    (url : pystr) : pystr :=
  slug artist ++ Text.double_underscore ++ slug album ++ Text.double_underscore
  ++ slug (Some (year_text yr_int)) ++ url_ext url.

(** The texts [_set_row_status] is given, and the empty status of a row
    that was not processed. *)
Inductive Status :=
  | Untouched
  | Searching
  | NotFound
  | Skipped
  | ExistsSkipped
  | OK
  | Error (e : pystr).

Definition status_text (s : Status) : pystr :=
  match s with
  | Untouched => []
  | Searching => Text.Searching
  | NotFound => Text.Not_found
  | Skipped => Text.Skipped
  | ExistsSkipped => Text.Exists_skipped
  | OK => Text.OK
  | Error e => Text.Error_colon ++ e
  end.

(** The file system as the save part meets it.  A path is the output
    folder, the genre folder and the file name, which [os.path.join] puts
    together.  [makedirs] tells whether [os.makedirs(genre_dir,
    exist_ok=True)] raises, and with what message; [isfile] is
    [os.path.isfile]; [open_wb] tells whether [open(fpath, "wb")] followed by
    [f.write(data)] raises. *)
Record Disk := {
  makedirs : pystr * pystr -> option pystr;
  isfile : pystr * pystr * pystr -> bool;
  open_wb : pystr * pystr * pystr -> list Byte.byte -> option pystr
}.

(** What the save part did to a file: nothing, written it in full, or
    raised while opening or writing it, which leaves its content unknown. *)
Inductive Effect :=
  | NoWrite
  | Wrote (fpath : pystr * pystr * pystr) (data : list Byte.byte)
  | WriteRaised (fpath : pystr * pystr * pystr).

(** The save part for a [url] that was resolved, inside the [try] of the
    worker: an exception of [os.makedirs], of [http_get_bytes] or of the
    write ends the row with the status "Error: ...".  The result is the
    status of the row, what happened to the file, and the state of the
    caches. *)
Definition save (web : Net.Web) (disk : Disk)
    (overwrite_existing : bool) (out_dir : pystr)
    (genre artist album : option pystr) (yr_int : option Z) (url : pystr)
    (st : Net.State) : Status * Effect * Net.State :=
  let genre_dir := (out_dir, slug genre) in
  match makedirs disk genre_dir with
  | Some e => (Error e, NoWrite, st)
  | None =>
      let fpath := (out_dir, slug genre, file_name artist album yr_int url) in
      if isfile disk fpath && negb overwrite_existing
      then (ExistsSkipped, NoWrite, st)
      else
        match Net.http_get_bytes web url st with
        | (Ok data, st') =>
            match open_wb disk fpath data with
            | None => (OK, Wrote fpath data, st')
            | Some e => (Error e, WriteRaised fpath, st')
            end
        | (Exc e, st') => (Error e, NoWrite, st')
        end
  end.

(** [k in s] on strings. *)
Fixpoint starts_with (k s : pystr) : bool :=
  match k, s with
  | [], _ => true
  | c :: k', d :: s' => (c =? d)%N && starts_with k' s'
  | _ :: _, [] => false
  end.

Fixpoint contains (k s : pystr) : bool :=
  starts_with k s
  || match s with
     | [] => false
     | _ :: s' => contains k s'
     end.

(** [any(k in str(status) for k in ("Not found", "Error", "Skipped"))] *)
Definition is_failed (status : pystr) : bool :=
  existsb (fun k => contains k status) [Text.Not_found; Text.Error; Text.Skipped].

(** [_collect_failed_indices] on the status column of the rows. *)
Definition _collect_failed_indices (statuses : list pystr) : list nat :=
  foldl (fun failed (r : nat * pystr) =>
           if is_failed r.2 then failed ++ [r.1] else failed)
        [] (imap pair statuses).

End Save.

(** A candidate whose image is in the cache of contents, checked to be
    longer than 400 bytes. *)
Definition cover_cached (st : Net.State) (c : Candidate) : Prop :=
  exists url b,
    image c = Some url
    /\ Net._bytes_cache st !! url = Some b
    /\ 400 < length b.

(** A candidate built from the release [r] and one of the three sizes. *)
Definition front_of (r : Net.MBRelease) (c : Candidate) : Prop :=
  exists suffix,
    suffix ∈ [Text.front_1200; Text.front; Text.front_500]
    /\ Str.truthy (Net.mbid r) = true
    /\ image c = Some (Net.caa_url (Str.or_empty (Net.mbid r)) suffix)
    /\ thumb c = image c
    /\ provider c = Text.CoverArtArchive
    /\ title c = Net.release_title r
    /\ artist c = None
    /\ year c = parse_year_from_date (Net.date r).

(** The bytes cache of [st2] holds what that of [st1] holds. *)
Definition bytes_kept (st1 st2 : Net.State) : Prop :=
  forall k v, Net._bytes_cache st1 !! k = Some v ->
              Net._bytes_cache st2 !! k = Some v.

(** A character other than the dotted capital I and the dotless small i,
    the two characters outside ASCII that the pattern of the extension
    accepts. *)
Definition plain_i (c : N) : Prop := c <> 0x130%N /\ c <> 0x131%N.

Module Sample2.
Import Stdlib.Strings.String Stdlib.Strings.Ascii.
Local Open Scope string_scope.

Definition art_pre : list N := Text.py "https://is1.example/a/b".
Definition digits_100 : list N := Text.py "100".
Definition art_100 : list N := Text.py "https://is1.example/a/b/100x100bb.jpg".
Definition art_1000 : list N := Text.py "https://is1.example/a/b/1000x1000bb.jpg".
Definition art_200 : list N := Text.py "https://is1.example/a/b/200x200bb.jpg".
Definition upper_jpg_query : list N := Text.py "a.JPG?x=1".
Definition png_then_webp : list N := Text.py "a.pngx.webp?".
Definition jpg_fragment : list N := Text.py "a.jpg#frag".
Definition mbid_1 : list N := Text.py "0a1b".
Definition timeout : list N := Text.py "timed out".
Definition covers : list N := Text.py "covers".
Definition name_too_long : list N := Text.py "File name too long".
Definition itunes_key : list N :=
  Text.py "https://itunes.apple.com/search?limit=6&media=music&term=Radiohead".
Definition radiohead_file : list N := Text.py "Radiohead__OK_Computer__1997.jpg".

End Sample2.

(** A network for the examples: MusicBrainz knows one release, whose
    largest cover is missing while every other cover has 401 bytes; Deezer
    finds two albums and fails on every request for details; iTunes does
    not answer. *)
Definition deezer_sample (id_ : Z) (xl : option pystr) : Net.DeezerAlbum :=
  {| Net.album_id := Some id_;
     Net.cover := None;
     Net.cover_medium := Some url_A;
     Net.cover_big := None;
     Net.cover_xl := xl;
     Net.album_title := Some ok_computer;
     Net.album_artist := Some {| Net.artist_name := Some radiohead |} |}.

Definition sample_web : Net.Web :=
  {| Net.json_reply := fun _ url _ =>
       if bool_decide (url = Text.musicbrainz_release)
       then Ok (Net.MBSearch (Some [ {| Net.mbid := Some Sample2.mbid_1;
                                        Net.release_title := Some ok_computer;
                                        Net.date := Some iso_date |} ]))
       else if bool_decide (url = Text.deezer_search)
       then Ok (Net.DeezerSearch (Some [ deezer_sample 7 (Some url_B);
                                         deezer_sample 8 None;
                                         deezer_sample 9 None ]))
       else Exc Sample2.timeout;
     Net.bytes_reply := fun _ url =>
       if bool_decide (url = Net.caa_url Sample2.mbid_1 Text.front_1200)
       then Exc Sample2.timeout
       else Ok (replicate 401 Byte.x00) |}.

Definition no_web : Net.Web :=
  {| Net.json_reply := fun _ _ _ => Exc Sample2.timeout;
     Net.bytes_reply := fun _ _ => Exc Sample2.timeout |}.


Definition empty_disk : Save.Disk :=
  {| Save.makedirs := fun _ => None;
     Save.isfile := fun _ => false;
     Save.open_wb := fun fpath _ =>
       if 255 <? length fpath.2 then Some Sample2.name_too_long else None |}.

Definition fresh : Net.State :=
  {| Net._json_cache := ∅; Net._bytes_cache := ∅; Net.sent := [] |}.

Definition itunes_sample : Net.ITunesResult :=
  {| Net.artworkUrl100 := Some Sample2.art_100;
     Net.artworkUrl60 := None;
     Net.collectionName := Some ok_computer;
     Net.artistName := Some radiohead;
     Net.releaseDate := Some iso_date |}.

(** The sanitizing rule in the words of the specification, as one pass over
    a string that is already trimmed: a "/" becomes an underscore, a run of
    whitespace becomes one underscore, a character of [[A-Za-z0-9._+-]] is
    kept, and any other character is dropped.  [in_run] tells that the
    character before was whitespace.  [slug] is compared with it below. *)
Fixpoint sanitize (in_run : bool) (s : pystr) : pystr :=
  match s with
  | [] => []
  | c :: s' =>
      if (c =? Char.slash)%N then Char.underscore :: sanitize false s'
      else if Char.is_space c
      then (if in_run then sanitize true s'
            else Char.underscore :: sanitize true s')
      else if Char.is_slug_char c then c :: sanitize false s'
      else sanitize false s'
  end.

(** The year of the query and the year of the candidate are both known and
    differ by more than the tolerance. *)
Definition out_of_tolerance (query_year : option Z) (tol : Z) (c : Candidate)
    : Prop :=
  exists Y cy, query_year = Some Y /\ year c = Some cy
               /\ (tol < Z.abs (cy - Y))%Z.

(** * Properties *)

(** ** Characters and strings *)

(** Decide one comparison of a character class from the bounds at hand. *)
Ltac class_bounds :=
  unfold Char.is_space, Char.is_slug_char, Char.is_lower_alnum,
    Char.is_upper_ascii, Char.is_lower_ascii, Char.is_digit_ascii,
    Char.between, Char.slash, Char.underscore in *;
  repeat match goal with
    | H : orb _ _ = true |- _ => apply orb_prop in H; destruct H as [H|H]
    | H : andb _ _ = true |- _ => apply andb_prop in H; destruct H
    | H : (_ <=? _)%N = true |- _ => apply N.leb_le in H
    | H : (_ =? _)%N = true |- _ => apply N.eqb_eq in H
    end.

Ltac class_decide :=
  repeat match goal with
    | |- context [(?x <=? ?y)%N] =>
        first [ rewrite (proj2 (N.leb_gt x y)) by lia
              | rewrite (proj2 (N.leb_le x y)) by lia ]
    | |- context [(?x =? ?y)%N] =>
        first [ rewrite (proj2 (N.eqb_neq x y)) by lia
              | rewrite (proj2 (N.eqb_eq x y)) by lia ]
    end;
  try reflexivity.

Lemma slug_char_not_space c :
  Char.is_slug_char c = true -> Char.is_space c = false.
Proof. intros H. class_bounds; subst; class_decide. Qed.

Lemma slug_char_not_slash c :
  Char.is_slug_char c = true -> (c =? Char.slash)%N = false.
Proof. intros H. class_bounds; subst; class_decide. Qed.

Lemma lstrip_no_space s :
  Forall (fun c => Char.is_space c = false) s -> Str.lstrip s = s.
Proof. destruct 1 as [|c s Hc _]; simpl; [done|]. by rewrite Hc. Qed.

Lemma strip_no_space s :
  Forall (fun c => Char.is_space c = false) s -> Str.strip s = s.
Proof.
  intros H. unfold Str.strip, Str.rstrip.
  rewrite (lstrip_no_space s H), lstrip_no_space; [apply reverse_involutive|].
  by apply Forall_reverse.
Qed.

Lemma replace_absent old new s :
  Forall (fun c => (c =? old)%N = false) s -> Str.replace old new s = s.
Proof.
  unfold Str.replace. induction 1 as [|c s Hc _ IH]; simpl; [done|].
  by rewrite Hc, IH.
Qed.

Lemma sub_space_runs_no_space in_run s :
  Forall (fun c => Char.is_space c = false) s -> Str.sub_space_runs in_run s = s.
Proof.
  intros H. revert in_run.
  induction H as [|c s Hc _ IH]; intros in_run; simpl; [done|].
  by rewrite Hc, IH.
Qed.

Lemma keep_all class s :
  Forall (fun c => class c = true) s -> Str.keep class s = s.
Proof.
  unfold Str.keep. induction 1 as [|c s Hc _ IH]; simpl; [done|].
  by rewrite Hc, IH.
Qed.

Lemma keep_Forall class s : Forall (fun c => class c = true) (Str.keep class s).
Proof.
  unfold Str.keep. apply Forall_forall. intros c Hc.
  apply list_elem_of_In, filter_In in Hc. tauto.
Qed.

(** What [strip] removes is whitespace, and what it leaves neither starts nor
    ends with whitespace. *)
Lemma lstrip_spec s :
  exists pre, s = pre ++ Str.lstrip s
    /\ Forall (fun c => Char.is_space c = true) pre
    /\ (forall c, head (Str.lstrip s) = Some c -> Char.is_space c = false).
Proof.
  induction s as [|c s (pre & Heq & Hpre & Hhd)]; simpl.
  - exists []. by repeat split.
  - destruct (Char.is_space c) eqn:Hc.
    + exists (c :: pre). repeat split; [by rewrite Heq at 1 | by constructor | done].
    + exists []. repeat split; [done|]. simpl. intros ? [= <-]. done.
Qed.

Lemma strip_spec s :
  exists pre post, s = pre ++ Str.strip s ++ post
    /\ Forall (fun c => Char.is_space c = true) pre
    /\ Forall (fun c => Char.is_space c = true) post
    /\ (forall c, head (Str.strip s) = Some c -> Char.is_space c = false)
    /\ (forall c, last (Str.strip s) = Some c -> Char.is_space c = false).
Proof.
  unfold Str.strip, Str.rstrip.
  destruct (lstrip_spec s) as (pre & Heq & Hpre & Hhd).
  destruct (lstrip_spec (reverse (Str.lstrip s))) as (post & Heq' & Hpost & Hhd').
  set (t := Str.lstrip (reverse (Str.lstrip s))) in *.
  assert (Hl : Str.lstrip s = reverse t ++ reverse post).
  { rewrite <- reverse_app, <- Heq'. by rewrite reverse_involutive. }
  exists pre, (reverse post). repeat split.
  - by rewrite <- Hl.
  - done.
  - by apply Forall_reverse.
  - intros c Hc. apply Hhd. rewrite Hl.
    destruct (reverse t); [done|]. done.
  - intros c Hc. apply Hhd'. by rewrite <- last_reverse.
Qed.

(** [sub_space_runs] writes one underscore for a whole run of whitespace
    and copies the rest. *)
Lemma sub_space_runs_run in_run w s :
  Forall (fun c => Char.is_space c = true) w ->
  Str.sub_space_runs true (w ++ s) = Str.sub_space_runs true s
  /\ (w <> [] ->
      Str.sub_space_runs in_run (w ++ s)
      = (if in_run then [] else [Char.underscore]) ++ Str.sub_space_runs true s).
Proof.
  intros Hw. assert (Ht : Str.sub_space_runs true (w ++ s) = Str.sub_space_runs true s).
  { induction Hw as [|c w Hc _ IH]; simpl; [done|]. by rewrite Hc. }
  split; [done|]. intros Hne.
  destruct Hw as [|c w Hc Hw]; [done|]. simpl. rewrite Hc.
  assert (Hr : Str.sub_space_runs true (w ++ s) = Str.sub_space_runs true s).
  { clear -Hw. induction Hw as [|c w Hc _ IH]; simpl; [done|]. by rewrite Hc. }
  rewrite Hr. by destruct in_run.
Qed.

Lemma sub_space_runs_other in_run c s :
  Char.is_space c = false ->
  Str.sub_space_runs in_run (c :: s) = c :: Str.sub_space_runs false s.
Proof. intros Hc. simpl. by rewrite Hc. Qed.

Lemma sub_space_runs_cons in_run c s :
  Str.sub_space_runs in_run (c :: s)
  = if Char.is_space c
    then (if in_run then Str.sub_space_runs true s
          else Char.underscore :: Str.sub_space_runs true s)
    else c :: Str.sub_space_runs false s.
Proof. reflexivity. Qed.

Lemma sub_space_runs_app in_run u s :
  (forall c, last u = Some c -> Char.is_space c = false) ->
  u <> [] ->
  Str.sub_space_runs in_run (u ++ s)
  = Str.sub_space_runs in_run u ++ Str.sub_space_runs false s.
Proof.
  revert in_run. induction u as [|c u IH]; intros in_run Hlast Hne; [done|].
  destruct u as [|c' u].
  - simpl. by rewrite (Hlast c).
  - rewrite <- app_comm_cons, !sub_space_runs_cons.
    assert (IH' : forall r, Str.sub_space_runs r ((c' :: u) ++ s)
                  = Str.sub_space_runs r (c' :: u) ++ Str.sub_space_runs false s).
    { intros r. by apply IH. }
    destruct (Char.is_space c); [destruct in_run|]; by rewrite IH'.
Qed.

(** Between two stretches that do not touch it with whitespace, a run of
    whitespace becomes one underscore. *)
Lemma sub_space_runs_between u w v :
  (forall c, last u = Some c -> Char.is_space c = false) ->
  w <> [] -> Forall (fun c => Char.is_space c = true) w ->
  (forall c, head v = Some c -> Char.is_space c = false) ->
  Str.sub_space_runs false (u ++ w ++ v)
  = Str.sub_space_runs false u ++ [Char.underscore] ++ Str.sub_space_runs false v.
Proof.
  intros Hu Hne Hw Hv.
  assert (Hwv : Str.sub_space_runs false (w ++ v)
                = [Char.underscore] ++ Str.sub_space_runs false v).
  { destruct (sub_space_runs_run false w v Hw) as [_ ->]; [|done].
    destruct v as [|c v]; [done|]. simpl. by rewrite (Hv c). }
  destruct u as [|c u]; [done|].
  by rewrite sub_space_runs_app, Hwv.
Qed.

(** ** [slug] *)

Lemma slug_chars s : Forall (fun c => Char.is_slug_char c = true) (slug s).
Proof. unfold slug. apply Forall_take, keep_Forall. Qed.

Example slug_sigur_ros :
  (* "Sigur Rós/Ágætis byrjun"  gives  "Sigur_Rs_gtis_byrjun" *)
  slug (Some [0x53; 0x69; 0x67; 0x75; 0x72; 0x20; 0x52; 0xF3; 0x73; 0x2F; 0xC1;
              0x67; 0xE6; 0x74; 0x69; 0x73; 0x20; 0x62; 0x79; 0x72; 0x6A; 0x75;
              0x6E]%N)
  = [0x53; 0x69; 0x67; 0x75; 0x72; 0x5F; 0x52; 0x73; 0x5F; 0x67; 0x74; 0x69;
     0x73; 0x5F; 0x62; 0x79; 0x72; 0x6A; 0x75; 0x6E]%N.
Proof. reflexivity. Qed.

Lemma lstrip_app pre t :
  Forall (fun c => Char.is_space c = true) pre ->
  (forall c, head t = Some c -> Char.is_space c = false) ->
  Str.lstrip (pre ++ t) = t.
Proof.
  intros Hpre Ht. induction Hpre as [|c pre Hc _ IH]; simpl.
  - destruct t as [|c t]; [done|]. simpl. by rewrite (Ht c).
  - by rewrite Hc.
Qed.

(** Trimming gives the one part of the string that has only whitespace
    before and after it and none at its two ends. *)
Lemma strip_trimmed pre core post :
  Forall (fun c => Char.is_space c = true) pre ->
  Forall (fun c => Char.is_space c = true) post ->
  (forall c, head core = Some c -> Char.is_space c = false) ->
  (forall c, last core = Some c -> Char.is_space c = false) ->
  Str.strip (pre ++ core ++ post) = core.
Proof.
  intros Hpre Hpost Hhd Hlast. unfold Str.strip, Str.rstrip.
  destruct core as [|c0 core'].
  - simpl. rewrite <- (app_nil_r (pre ++ post)).
    rewrite lstrip_app; [done| |done]. by apply Forall_app.
  - rewrite lstrip_app; [|done|].
    + rewrite reverse_app. rewrite lstrip_app.
      * apply reverse_involutive.
      * by apply Forall_reverse.
      * intros c Hc. apply Hlast. by rewrite <- head_reverse.
    + intros c [= <-]. by apply Hhd.
Qed.

(** The three passes of [slug] after the trimming do what the rule says in
    one pass. *)
Lemma sanitize_fused in_run s :
  Str.keep Char.is_slug_char
    (Str.sub_space_runs in_run (Str.replace Char.slash Char.underscore s))
  = sanitize in_run s.
Proof.
  unfold Str.keep, Str.replace. revert in_run.
  induction s as [|c s IH]; intros in_run; [done|].
  cbn [map sanitize].
  destruct (c =? Char.slash)%N eqn:Hslash.
  - cbn [Str.sub_space_runs].
    change (Char.is_space Char.underscore) with false. cbn [List.filter].
    change (Char.is_slug_char Char.underscore) with true. cbn iota.
    by rewrite IH.
  - cbn [Str.sub_space_runs]. destruct (Char.is_space c) eqn:Hsp.
    + destruct in_run.
      * apply IH.
      * cbn [List.filter].
        change (Char.is_slug_char Char.underscore) with true. cbn iota.
        by rewrite IH.
    + cbn [List.filter]. destruct (Char.is_slug_char c); by rewrite IH.
Qed.

(** C7, amended. For every input (a string or [None]) [slug] trims the
    surrounding whitespace: the input is whitespace, then a part without
    whitespace at its two ends, then whitespace; and whatever such part the
    input has, the result is what the rule gives on it, cut to its first
    180 characters: an underscore for each "/" and for each run of
    whitespace, the characters of [[A-Za-z0-9._+-]] kept and every other
    character dropped, a backslash among them.  Hence the output has only
    characters of that class, no "/", and at most 180 characters. *)
Theorem slug_sanitizes (s : option (list N)) :
  (exists pre core post,
     Str.or_empty s = pre ++ core ++ post
     /\ Forall (fun c => Char.is_space c = true) pre
     /\ Forall (fun c => Char.is_space c = true) post
     /\ (forall c, head core = Some c -> Char.is_space c = false)
     /\ (forall c, last core = Some c -> Char.is_space c = false))
  /\ (forall pre core post,
        Str.or_empty s = pre ++ core ++ post ->
        Forall (fun c => Char.is_space c = true) pre ->
        Forall (fun c => Char.is_space c = true) post ->
        (forall c, head core = Some c -> Char.is_space c = false) ->
        (forall c, last core = Some c -> Char.is_space c = false) ->
        slug s = take 180 (sanitize false core))
  /\ Forall (fun c => Char.is_slug_char c = true) (slug s)
  /\ (Char.slash ∉ slug s)
  /\ length (slug s) <= 180.
Proof.
  split_and!.
  - destruct (strip_spec (Str.or_empty s)) as (pre & post & ? & ? & ? & ? & ?).
    by exists pre, (Str.strip (Str.or_empty s)), post.
  - intros pre core post Heq Hpre Hpost Hhd Hlast. unfold slug.
    by rewrite Heq, strip_trimmed, sanitize_fused.
  - apply slug_chars.
  - intros Hin. pose proof (slug_chars s) as H.
    rewrite Forall_forall in H. apply H in Hin. discriminate Hin.
  - unfold slug. rewrite length_take. lia.
Qed.

(** C7 on "  a / b  ": the input is trimmed to "a / b", which gives
    "a___b". *)
Lemma slug_sanitizes_witness :
  slug (Some [0x20; 0x20; 0x61; 0x20; 0x2F; 0x20; 0x62; 0x20; 0x20]%N)
  = [0x61; 0x5F; 0x5F; 0x5F; 0x62]%N.
Proof.
  destruct (slug_sanitizes
              (Some [0x20; 0x20; 0x61; 0x20; 0x2F; 0x20; 0x62; 0x20; 0x20]%N))
    as (_ & H & _).
  apply (H [0x20; 0x20]%N [0x61; 0x20; 0x2F; 0x20; 0x62]%N [0x20; 0x20]%N).
  - reflexivity.
  - by repeat constructor.
  - by repeat constructor.
  - by intros c [= <-].
  - by intros c [= <-].
Defined.

(** The claim as it was worded fails on the other path separator: in
    "a\b" the backslash is dropped, where "a/b" gets its underscore. *)
Lemma slug_backslash_dropped :
  slug (Some [0x61; 0x5C; 0x62]%N) = [0x61; 0x62]%N
  /\ slug (Some [0x61; 0x2F; 0x62]%N) = [0x61; 0x5F; 0x62]%N.
Proof. split; reflexivity. Qed.

(** C9. [slug] is idempotent: on its own output it changes nothing. *)
Theorem slug_idempotent (s : option (list N)) : slug (Some (slug s)) = slug s.
Proof.
  pose proof (slug_chars s) as Hc.
  assert (Hlen : length (slug s) <= 180) by (unfold slug; rewrite length_take; lia).
  set (t := slug s) in *. clearbody t.
  assert (Hsp : Forall (fun c => Char.is_space c = false) t).
  { eapply Forall_impl; [exact Hc|]. apply slug_char_not_space. }
  assert (Hsl : Forall (fun c => (c =? Char.slash)%N = false) t).
  { eapply Forall_impl; [exact Hc|]. apply slug_char_not_slash. }
  unfold slug. simpl Str.or_empty.
  rewrite (strip_no_space t Hsp), (replace_absent _ _ t Hsl),
    (sub_space_runs_no_space _ t Hsp), (keep_all _ t Hc).
  by apply take_ge.
Qed.

(** ** [parse_year_from_date] *)

Lemma decimal_in_range zeros c v :
  Char.decimal_in zeros c = Some v -> (0 <= v <= 9)%Z.
Proof.
  induction zeros as [|z zeros IH]; simpl; [done|].
  destruct (Char.between z (z + 9) c) eqn:Hb; [|done].
  intros [= <-]. unfold Char.between in Hb.
  apply andb_prop in Hb as [H1 H2]. apply N.leb_le in H1, H2. lia.
Qed.

Lemma decimal_range c v : Char.decimal c = Some v -> (0 <= v <= 9)%Z.
Proof. apply decimal_in_range. Qed.

(** On the ASCII digits [decimal] is the usual value. *)
Lemma decimal_ascii c :
  Char.is_digit_ascii c = true -> Char.decimal c = Some (Z.of_N c - 48)%Z.
Proof.
  intros H. unfold Char.is_digit_ascii, Char.between in H.
  apply andb_prop in H as [H1 H2]. apply N.leb_le in H1, H2.
  unfold Char.decimal, Char.decimal_zeros, Char.decimal_in, Char.between.
  rewrite (proj2 (N.leb_le 48 c)) by lia.
  rewrite (proj2 (N.leb_le c (48 + 9))) by lia. simpl. f_equal. lia.
Qed.

(** C8. [parse_year_from_date] answers an integer exactly when the string
    starts with four decimal digits, and the integer is the one those four
    digits denote; in every other case (no string, an empty string, fewer
    than four characters, a non-digit among the first four) it answers
    [None].  So the result is [None] or the number, between 0 and 9999,
    written by a four-digit prefix of the string. *)
Theorem parse_year_from_date_spec (d : option (list N)) :
  (forall y, parse_year_from_date d = Some y <->
     exists c1 c2 c3 c4 rest d1 d2 d3 d4,
       d = Some ([c1; c2; c3; c4] ++ rest)
       /\ Char.decimal c1 = Some d1 /\ Char.decimal c2 = Some d2
       /\ Char.decimal c3 = Some d3 /\ Char.decimal c4 = Some d4
       /\ y = (1000 * d1 + 100 * d2 + 10 * d3 + d4)%Z)
  /\ (forall y, parse_year_from_date d = Some y -> (0 <= y <= 9999)%Z)
  /\ (parse_year_from_date d = None <->
      ~ exists s g rest, d = Some s /\ s = g ++ rest /\ length g = 4
          /\ Forall (fun c => is_Some (Char.decimal c)) g).
Proof.
  assert (Hiff : forall y, parse_year_from_date d = Some y <->
     exists c1 c2 c3 c4 rest d1 d2 d3 d4,
       d = Some ([c1; c2; c3; c4] ++ rest)
       /\ Char.decimal c1 = Some d1 /\ Char.decimal c2 = Some d2
       /\ Char.decimal c3 = Some d3 /\ Char.decimal c4 = Some d4
       /\ y = (1000 * d1 + 100 * d2 + 10 * d3 + d4)%Z).
  { intros y. unfold parse_year_from_date. split.
    - destruct d as [[|c1 [|c2 [|c3 [|c4 rest]]]]|]; simpl; try done.
      destruct (Char.decimal c1) as [d1|] eqn:E1; [|done].
      destruct (Char.decimal c2) as [d2|] eqn:E2; [|done].
      destruct (Char.decimal c3) as [d3|] eqn:E3; [|done].
      destruct (Char.decimal c4) as [d4|] eqn:E4; [|done].
      intros [= <-]. exists c1, c2, c3, c4, rest, d1, d2, d3, d4.
      repeat split; try done. unfold Str.int_of_digits. simpl. lia.
    - intros (c1 & c2 & c3 & c4 & rest & d1 & d2 & d3 & d4
              & -> & E1 & E2 & E3 & E4 & ->).
      simpl. rewrite E1, E2, E3, E4. f_equal.
      unfold Str.int_of_digits. simpl. lia. }
  split; [exact Hiff|]. split.
  - intros y Hy. apply Hiff in Hy
      as (c1 & c2 & c3 & c4 & rest & d1 & d2 & d3 & d4
          & _ & E1 & E2 & E3 & E4 & ->).
    apply decimal_range in E1, E2, E3, E4. lia.
  - split.
    + intros Hnone (s & g & rest & -> & -> & Hlen & Hg).
      destruct g as [|c1 [|c2 [|c3 [|c4 [|]]]]]; try done.
      inversion Hg as [|? ? [d1 E1] Hg1]; subst.
      inversion Hg1 as [|? ? [d2 E2] Hg2]; subst.
      inversion Hg2 as [|? ? [d3 E3] Hg3]; subst.
      inversion Hg3 as [|? ? [d4 E4] _]; subst.
      unfold parse_year_from_date in Hnone. simpl in Hnone.
      by rewrite E1, E2, E3, E4 in Hnone.
    + intros Hno. destruct (parse_year_from_date d) as [y|] eqn:Hy; [|done].
      exfalso. apply Hno. destruct (proj1 (Hiff y) eq_refl)
        as (c1 & c2 & c3 & c4 & rest & d1 & d2 & d3 & d4
            & -> & E1 & E2 & E3 & E4 & _).
      exists ([c1; c2; c3; c4] ++ rest), [c1; c2; c3; c4], rest.
      repeat split; try done. repeat constructor; eauto.
Qed.

Example parse_year_iso :
  (* "1997-05-21" *)
  parse_year_from_date
    (Some [0x31; 0x39; 0x39; 0x37; 0x2D; 0x30; 0x35; 0x2D; 0x32; 0x31]%N)
  = Some 1997%Z.
Proof. reflexivity. Qed.

Example parse_year_not_leading :
  (* "c. 1997": the digits do not come first *)
  parse_year_from_date (Some [0x63; 0x2E; 0x20; 0x31; 0x39; 0x39; 0x37]%N) = None.
Proof. reflexivity. Qed.

(** ** [soft_year_filter] *)

(** A loop that appends the elements passing a test builds the filtered
    list behind what it started with. *)
Lemma foldl_append_if {A} (p : A -> bool) (l out : list A) :
  foldl (fun out c => if p c then out ++ [c] else out) out l
  = out ++ List.filter p l.
Proof.
  revert out. induction l as [|c l IH]; intros out; simpl.
  - by rewrite app_nil_r.
  - rewrite IH. destruct (p c); [|done]. by rewrite <- app_assoc.
Qed.

(** C3. With no target year [soft_year_filter] returns its input; with a
    target year [Y] it keeps, in order, exactly the candidates with no year or
    with a year at most [max(0, tol)] away from [Y].  A negative tolerance
    acts as 0, and a candidate without a year is always kept. *)
Theorem soft_year_filter_spec (candidates : list Candidate) (tol : Z) :
  soft_year_filter candidates None tol = candidates
  /\ (forall Y,
        soft_year_filter candidates (Some Y) tol
        = List.filter
            (fun c => match year c with
                      | None => true
                      | Some cy => (Z.abs (cy - Y) <=? Z.max 0 tol)%Z
                      end) candidates)
  /\ (forall Y c,
        c ∈ soft_year_filter candidates (Some Y) tol <->
        c ∈ candidates
        /\ (year c = None
            \/ exists cy, year c = Some cy /\ (Z.abs (cy - Y) <= Z.max 0 tol)%Z))
  /\ (forall Y, tol < 0 ->
        soft_year_filter candidates (Some Y) tol
        = soft_year_filter candidates (Some Y) 0)%Z
  /\ (forall target_year c,
        c ∈ candidates -> year c = None ->
        c ∈ soft_year_filter candidates target_year tol).
Proof.
  assert (Heq : forall Y,
    soft_year_filter candidates (Some Y) tol
    = List.filter (year_within Y (Z.max 0 tol)) candidates).
  { intros Y. unfold soft_year_filter. by rewrite foldl_append_if. }
  assert (Hin : forall Y c,
    c ∈ soft_year_filter candidates (Some Y) tol <->
    c ∈ candidates
    /\ (year c = None
        \/ exists cy, year c = Some cy /\ (Z.abs (cy - Y) <= Z.max 0 tol)%Z)).
  { intros Y c. rewrite Heq, !list_elem_of_In, filter_In. unfold year_within.
    destruct (year c) as [cy|]; split; intros [H1 H2]; split; try done.
    - right. exists cy. split; [done|]. by apply Z.leb_le.
    - destruct H2 as [|(cy' & [= <-] & H2)]; [done|]. by apply Z.leb_le.
    - by left. }
  split; [reflexivity|]. split; [exact Heq|]. split; [exact Hin|]. split.
  - intros Y Htol. rewrite Heq. unfold soft_year_filter.
    rewrite foldl_append_if. simpl. by rewrite Z.max_l by lia.
  - intros [Y|] c Hc Hy; [|done]. apply Hin. by split; [|left].
Qed.

(** ** [dedup_by_image] *)

(** The URLs the loop has put into [seen] after the candidates [l]. *)
Lemma dedup_seen (l : list Candidate) (u : list N) :
  u ∈ (foldl dedup_step (∅, []) l).1 <-> u <> [] /\ Some u ∈ image <$> l.
Proof.
  induction l as [|c l IH] using rev_ind.
  - simpl. rewrite elem_of_nil. split; [intros H; by apply not_elem_of_empty in H | tauto].
  - rewrite foldl_app, fmap_app, elem_of_app. simpl.
    destruct (foldl dedup_step (∅, []) l) as [seen out]. simpl in IH.
    unfold dedup_step. rewrite list_elem_of_singleton.
    destruct (image c) as [[|x v]|] eqn:Hc; simpl.
    + rewrite IH. split; [tauto|]. intros [? [?|[= ->]]]; tauto.
    + case_bool_decide as Hv; simpl.
      * rewrite IH. split; [tauto|].
        intros [? [?|[= ->]]]; [tauto|]. by apply IH.
      * rewrite elem_of_union, elem_of_singleton, IH.
        split; [intros [->|?]; [split; [done|by right] | tauto] |].
        intros [? [?|[= ->]]]; tauto.
    + rewrite IH. split; [tauto|]. intros [? [?|?]]; [tauto|done].
Qed.

(** How the output grows with one more candidate: it is appended when it
    has a non-empty URL that no earlier candidate has. *)
Lemma dedup_by_image_snoc (l : list Candidate) (c : Candidate) :
  dedup_by_image (l ++ [c])
  = dedup_by_image l
    ++ (if Str.truthy (image c) && negb (bool_decide (image c ∈ image <$> l))
        then [c] else []).
Proof.
  unfold dedup_by_image. rewrite foldl_app. simpl.
  pose proof (dedup_seen l) as Hseen.
  destruct (foldl dedup_step (∅, []) l) as [seen out]. simpl in *.
  unfold dedup_step. destruct (image c) as [[|x v]|] eqn:Hc; simpl.
  - by rewrite app_nil_r.
  - case_bool_decide as Hv; case_bool_decide as Hv'; simpl.
    + by rewrite app_nil_r.
    + exfalso. apply Hv'. by apply Hseen.
    + exfalso. apply Hv. apply Hseen. by split.
    + done.
  - by rewrite app_nil_r.
Qed.

Lemma dedup_by_image_nil : dedup_by_image [] = [].
Proof. reflexivity. Qed.

Lemma dedup_by_image_sublist (l : list Candidate) : dedup_by_image l `sublist_of` l.
Proof.
  induction l as [|c l IH] using rev_ind; [done|].
  rewrite dedup_by_image_snoc. apply sublist_app; [done|].
  destruct (_ && _); [done|]. apply sublist_nil_l.
Qed.

Lemma dedup_by_image_urls (l : list Candidate) (c : Candidate) :
  c ∈ dedup_by_image l -> exists u, image c = Some u /\ u <> [].
Proof.
  induction l as [|c' l IH] using rev_ind; [by rewrite elem_of_nil|].
  rewrite dedup_by_image_snoc, elem_of_app. intros [H|H]; [by apply IH|].
  destruct (Str.truthy (image c')) eqn:Ht; simpl in H;
    [|by apply elem_of_nil in H].
  destruct (negb _); [|by apply elem_of_nil in H].
  apply list_elem_of_singleton in H as ->.
  destruct (image c') as [[|x v]|]; try done. by eexists.
Qed.

Lemma dedup_by_image_NoDup (l : list Candidate) :
  NoDup (image <$> dedup_by_image l).
Proof.
  induction l as [|c l IH] using rev_ind; [constructor|].
  rewrite dedup_by_image_snoc, fmap_app. apply NoDup_app. split; [done|].
  destruct (Str.truthy (image c)); simpl; [|split; [set_solver | constructor]].
  case_bool_decide as Hc; simpl; [split; [set_solver | constructor]|].
  split; [|apply NoDup_singleton].
  intros o Ho Ho'. apply list_elem_of_singleton in Ho' as ->. apply Hc.
  apply list_elem_of_fmap in Ho as (c' & -> & Hc').
  apply list_elem_of_fmap. exists c'. split; [done|].
  eapply elem_of_sublist; [done | apply dedup_by_image_sublist].
Qed.

(** C4. The output of [dedup_by_image] has no two entries with the same
    image URL; it is the input with some entries removed, so the order of
    discovery is kept; an entry stays exactly when its URL is present and
    non-empty and no earlier entry of the input has that URL; hence every
    entry of the output has a non-empty URL. *)
Theorem dedup_by_image_spec (candidates : list Candidate) :
  NoDup (image <$> dedup_by_image candidates)
  /\ dedup_by_image candidates `sublist_of` candidates
  /\ (forall before c after,
        candidates = before ++ c :: after ->
        exists rest,
          dedup_by_image candidates
          = dedup_by_image before
            ++ (if Str.truthy (image c)
                   && negb (bool_decide (image c ∈ image <$> before))
                then [c] else [])
            ++ rest)
  /\ (forall c, c ∈ candidates -> Str.truthy (image c) = true ->
        exists before c' after,
          candidates = before ++ c' :: after /\ image c' = image c
          /\ (image c ∉ image <$> before) /\ c' ∈ dedup_by_image candidates)
  /\ (forall c, c ∈ dedup_by_image candidates ->
        exists u, image c = Some u /\ u <> []).
Proof.
  assert (Hpre : forall before after : list Candidate,
    exists rest, dedup_by_image (before ++ after) = dedup_by_image before ++ rest).
  { intros before after. induction after as [|c after [rest IH]] using rev_ind.
    - exists []. by rewrite !app_nil_r.
    - rewrite app_assoc, dedup_by_image_snoc, IH, <- app_assoc. by eexists. }
  split; [apply dedup_by_image_NoDup|].
  split; [apply dedup_by_image_sublist|]. split; [|split].
  - intros before c after ->.
    destruct (Hpre (before ++ [c]) after) as [rest Hrest].
    rewrite <- app_assoc in Hrest. simpl in Hrest.
    exists rest. rewrite Hrest, dedup_by_image_snoc. by rewrite <- app_assoc.
  - intros c Hc Ht.
    assert (Hex : exists before c' after,
      candidates = before ++ c' :: after /\ image c' = image c
      /\ (image c ∉ image <$> before)).
    { clear Hpre. induction candidates as [|x l IH]; [by apply elem_of_nil in Hc|].
      destruct (decide (image x = image c)) as [Hx|Hx].
      - exists [], x, l. repeat split; [done|]. simpl. apply not_elem_of_nil.
      - apply elem_of_cons in Hc as [->|Hc]; [done|].
        destruct (IH Hc) as (before & c' & after & -> & Hc' & Hb).
        exists (x :: before), c', after. repeat split; [done|].
        rewrite fmap_cons, not_elem_of_cons. split; [congruence | done]. }
    destruct Hex as (before & c' & after & -> & Hc' & Hb).
    exists before, c', after. repeat split; try done.
    destruct (Hpre (before ++ [c']) after) as [rest Hrest].
    rewrite <- app_assoc in Hrest. simpl in Hrest.
    rewrite Hrest, dedup_by_image_snoc, Hc', Ht.
    rewrite bool_decide_eq_false_2 by done. simpl.
    rewrite !elem_of_app, list_elem_of_singleton. tauto.
  - apply dedup_by_image_urls.
Qed.

(** ** Collecting the providers' answers *)

Lemma concat_Permutation {A} (l k : list (list A)) :
  l ≡ₚ k -> concat l ≡ₚ concat k.
Proof.
  induction 1 as [|x l k _ IH|x y l|l k m _ IH1 _ IH2]; simpl.
  - done.
  - by rewrite IH.
  - rewrite !app_assoc. f_equiv. apply Permutation_app_comm.
  - by rewrite IH1.
Qed.

Lemma collect_spec (done : list Completed) candidates log :
  collect done candidates log
  = Ok (candidates ++ concat (returned_by <$> done),
        log ++ concat (raised_by <$> done)).
Proof.
  revert candidates log.
  induction done as [|[part|e] done IH]; intros candidates log; simpl.
  - by rewrite !app_nil_r.
  - by rewrite IH, app_assoc.
  - by rewrite IH, <- app_assoc.
Qed.

(** C6. Whatever providers are enabled and in whatever order their futures
    complete, the collecting loop ends normally: an exception a provider
    raised is caught there and only logged, so that provider adds nothing,
    and the candidates collected are exactly those the other providers
    returned (each as often as it was returned); the round itself raises
    nothing.  In particular, when one provider raises and another returns
    two candidates, the loop yields those two. *)
Theorem collect_isolates_failures (p : Providers) (done : list Completed)
    (ask_always : bool) (tol : Z) (artist album : option (list N))
    (yr_int : option Z) :
  jobs p ≡ₚ done ->
  exists candidates log,
    collect done [] [] = Ok (candidates, log)
    /\ candidates ≡ₚ concat (returned_by <$> jobs p)
    /\ (forall c, c ∈ candidates <->
          exists part, Returned (Some part) ∈ jobs p /\ c ∈ part)
    /\ log ≡ₚ concat (raised_by <$> jobs p)
    /\ resolution_round ask_always tol artist album yr_int done
       = Ok (decide_round ask_always tol artist album yr_int candidates)
    /\ (forall e c1 c2,
          done ≡ₚ [Raised e; Returned (Some [c1; c2])] ->
          candidates = [c1; c2]).
Proof.
  intros Hperm.
  exists (concat (returned_by <$> done)), (concat (raised_by <$> done)).
  assert (Hc : concat (returned_by <$> done) ≡ₚ concat (returned_by <$> jobs p)).
  { apply concat_Permutation. by rewrite Hperm. }
  split; [by rewrite collect_spec|]. split; [exact Hc|]. split; [|split; [|split]].
  - intros c. rewrite Hc. clear. induction (jobs p) as [|fut l IH]; simpl.
    + split; [intros H; by apply elem_of_nil in H|].
      intros (part & H & _). by apply elem_of_nil in H.
    + rewrite elem_of_app, IH. split.
      * intros [H|(part & H1 & H2)].
        -- destruct fut as [[part|]|e]; simpl in H;
             try (by apply elem_of_nil in H).
           exists part. split; [apply list_elem_of_here | done].
        -- exists part. split; [by apply list_elem_of_further | done].
      * intros (part & H1 & H2). apply elem_of_cons in H1 as [<-|H1].
        -- by left.
        -- right. by exists part.
  - apply concat_Permutation. by rewrite Hperm.
  - unfold resolution_round. by rewrite collect_spec.
  - intros e c1 c2 Hd.
    assert (Hlen : length done = 2) by (by rewrite Hd).
    destruct done as [|x [|y [|]]]; try done.
    assert (Hx : x ∈ [Raised e; Returned (Some [c1; c2])]).
    { rewrite <- Hd. apply list_elem_of_here. }
    assert (Hy : y ∈ [Raised e; Returned (Some [c1; c2])]).
    { rewrite <- Hd. apply list_elem_of_further, list_elem_of_here. }
    assert (Hne : NoDup [x; y]).
    { rewrite Hd. apply NoDup_cons. split; [|apply NoDup_singleton].
      intros H. by apply list_elem_of_singleton in H. }
    apply NoDup_cons in Hne as [Hne _].
    rewrite list_elem_of_singleton in Hne.
    rewrite !elem_of_cons, elem_of_nil in Hx, Hy.
    destruct Hx as [->|[->|[]]], Hy as [->|[->|[]]]; done.
Qed.

(** ** The decision of a round *)

(** C5. After the year filter and the deduplication: with no candidate left
    the round ends as [NotFound], and this is what happens when no provider is
    enabled; with exactly one candidate left, "always ask" off and no URL from
    the automatic pick, the round ends as [Resolved] with the URL of that
    candidate, without going through the selection dialog. *)
Theorem decide_round_spec (tol : Z) (artist album : option (list N))
    (yr_int : option Z) :
  (forall ask_always collected,
     dedup_by_image (soft_year_filter collected yr_int tol) = [] ->
     decide_round ask_always tol artist album yr_int collected = Done NotFound)
  /\ (forall ask_always p done,
        use_itunes p = false -> use_deezer p = false -> use_mb p = false ->
        jobs p ≡ₚ done ->
        resolution_round ask_always tol artist album yr_int done
        = Ok (Done NotFound))
  /\ (forall collected c,
        dedup_by_image (soft_year_filter collected yr_int tol) = [c] ->
        Str.truthy (_maybe_autopick tol artist album yr_int [c]) = false ->
        exists url,
          image c = Some url /\ url <> []
          /\ decide_round false tol artist album yr_int collected
             = Done (Resolved url)).
Proof.
  split; [|split].
  - intros ask_always collected H. unfold decide_round. by rewrite H.
  - intros ask_always p done H1 H2 H3 Hperm.
    unfold jobs in Hperm. rewrite H1, H2, H3 in Hperm. simpl in Hperm.
    symmetry in Hperm. apply Permutation_nil_r in Hperm as ->.
    by destruct yr_int.
  - intros collected c Hc Hpick.
    destruct (dedup_by_image_urls (soft_year_filter collected yr_int tol) c)
      as (url & Hurl & Hne); [rewrite Hc; apply list_elem_of_here|].
    exists url. repeat split; [done..|].
    unfold decide_round. rewrite Hc. cbn [negb]. rewrite Hpick. simpl.
    by rewrite Hurl.
Qed.

(** ** [SequenceMatcher]: the examples of the library's docstrings *)

(** [SequenceMatcher(None, "abxcd", "abcd").get_matching_blocks()] *)
Example matching_blocks_abxcd :
  SequenceMatcher.get_matching_blocks
    [0x61; 0x62; 0x78; 0x63; 0x64]%N [0x61; 0x62; 0x63; 0x64]%N
    (SequenceMatcher.chain_b [0x61; 0x62; 0x63; 0x64]%N)
  = [(0, 0, 2); (3, 2, 2); (5, 4, 0)].
Proof. by vm_compute. Qed.

(** [SequenceMatcher(None, " abcd", "abcd abcd").find_longest_match(0, 5, 0, 9)] *)
Example find_longest_match_abcd :
  SequenceMatcher.find_longest_match
    [0x20; 0x61; 0x62; 0x63; 0x64]%N
    [0x61; 0x62; 0x63; 0x64; 0x20; 0x61; 0x62; 0x63; 0x64]%N
    (SequenceMatcher.chain_b
       [0x61; 0x62; 0x63; 0x64; 0x20; 0x61; 0x62; 0x63; 0x64]%N)
    0 5 0 9
  = (0, 4, 5).
Proof. by vm_compute. Qed.

(** [SequenceMatcher(None, "ab", "c").find_longest_match(0, 2, 0, 1)] *)
Example find_longest_match_none :
  SequenceMatcher.find_longest_match [0x61; 0x62]%N [0x63]%N
    (SequenceMatcher.chain_b [0x63]%N) 0 2 0 1
  = (0, 0, 0).
Proof. by vm_compute. Qed.

(** [SequenceMatcher(None, "abcd", "bcde").ratio()] is 0.75. *)
Example ratio_abcd_bcde :
  SequenceMatcher.ratio [0x61; 0x62; 0x63; 0x64]%N [0x62; 0x63; 0x64; 0x65]%N
  = (6 # 8)%Q.
Proof. by vm_compute. Qed.

(** A popular element: in 200 characters that are all "a" but one, "a" is
    deleted from [b2j], and the match is found all the same by extending
    the block. *)
Example popular_deleted :
  SequenceMatcher.bpopular (replicate 199 0x61%N ++ [0x62%N]) = {[ 0x61%N ]}
  /\ SequenceMatcher.chain_b (replicate 199 0x61%N ++ [0x62%N]) !! 0x61%N = None
  /\ SequenceMatcher.matches (replicate 3 0x61%N)
       (replicate 199 0x61%N ++ [0x62%N])
       (SequenceMatcher.chain_b (replicate 199 0x61%N ++ [0x62%N])) = 3.
Proof. split_and!; by vm_compute. Qed.

(** ** [SequenceMatcher]: every block lies inside its window *)

Section Bounds.

Variables a b : list N.
Variable b2j : gmap N (list nat).
Variables alo blo bhi : nat.

Lemma scan_row_bounds i j2len js newj2len best :
  alo <= i ->
  row_bounded alo blo bhi i j2len ->
  row_bounded alo blo bhi (S i) newj2len ->
  block_within alo (S i) blo bhi best ->
  row_bounded alo blo bhi (S i)
    (SequenceMatcher.scan_row i blo bhi j2len js newj2len best).1
  /\ block_within alo (S i) blo bhi
       (SequenceMatcher.scan_row i blo bhi j2len js newj2len best).2.
Proof.
  intros Hi Hold. revert newj2len best.
  induction js as [|j js IH]; intros newj2len best Hnew Hbest; simpl; [done|].
  destruct (Nat.ltb_spec j blo) as [Hlo|Hlo]; [by apply IH|].
  destruct (Nat.leb_spec bhi j) as [Hhi|Hhi]; [done|].
  set (k := default 0 (j2len !! (Z.of_nat j - 1)%Z) + 1).
  assert (Hk : 1 <= k /\ k + alo <= S i /\ k + blo <= j + 1).
  { unfold k. destruct (j2len !! (Z.of_nat j - 1)%Z) as [v|] eqn:Ev; simpl.
    - destruct (Hold _ _ Ev) as (j' & Hj' & ? & ? & ? & ?). lia.
    - lia. }
  apply IH.
  - intros z v Hz. apply lookup_insert_Some in Hz as [[<- <-]|[_ Hz]].
    + exists j. lia.
    + by apply Hnew.
  - destruct (Nat.ltb_spec best.2 k); [|done].
    unfold block_within. simpl. lia.
Qed.

Lemma row_step_bounds i st :
  alo <= i ->
  row_bounded alo blo bhi i st.1 /\ block_within alo i blo bhi st.2 ->
  row_bounded alo blo bhi (S i) (SequenceMatcher.row_step a b2j blo bhi st i).1
  /\ block_within alo (S i) blo bhi (SequenceMatcher.row_step a b2j blo bhi st i).2.
Proof.
  intros Hi [Hrow Hbest]. unfold SequenceMatcher.row_step.
  apply scan_row_bounds; [done..| |].
  - intros z v Hz. by rewrite lookup_empty in Hz.
  - unfold block_within in *. lia.
Qed.

Lemma rows_bounds n st :
  row_bounded alo blo bhi alo st.1 /\ block_within alo alo blo bhi st.2 ->
  row_bounded alo blo bhi (alo + n)
    (foldl (SequenceMatcher.row_step a b2j blo bhi) st (seq alo n)).1
  /\ block_within alo (alo + n) blo bhi
       (foldl (SequenceMatcher.row_step a b2j blo bhi) st (seq alo n)).2.
Proof.
  intros Hst. induction n as [|n IH].
  - simpl. by rewrite Nat.add_0_r.
  - rewrite seq_S, foldl_app. simpl. rewrite Nat.add_succ_r.
    apply row_step_bounds; [lia | done].
Qed.

Lemma longest_junk_free_bounds ahi :
  alo <= ahi -> blo <= bhi ->
  block_within alo ahi blo bhi
    (SequenceMatcher.longest_junk_free a b2j alo ahi blo bhi).
Proof.
  intros Ha Hb. unfold SequenceMatcher.longest_junk_free.
  replace ahi with (alo + (ahi - alo)) at 1 by lia.
  apply rows_bounds. simpl. split.
  - intros z v Hz. by rewrite lookup_empty in Hz.
  - unfold block_within. simpl. lia.
Qed.

Lemma extend_left_bounds want ahi besti bestj bestsize :
  block_within alo ahi blo bhi (besti, bestj, bestsize) ->
  block_within alo ahi blo bhi
    (SequenceMatcher.extend_left a b want alo blo besti bestj bestsize).
Proof.
  revert bestj bestsize.
  induction besti as [|besti IH]; intros bestj bestsize H; simpl; [done|].
  destruct (Nat.ltb_spec alo (S besti)); simpl; [|done].
  destruct (Nat.ltb_spec blo bestj); simpl; [|done].
  destruct (_ && _); [|done].
  apply IH. unfold block_within in *. simpl in *. lia.
Qed.

Lemma extend_right_bounds want room ahi besti bestj bestsize :
  block_within alo ahi blo bhi (besti, bestj, bestsize) ->
  block_within alo ahi blo bhi
    (SequenceMatcher.extend_right a b want room ahi bhi besti bestj bestsize).
Proof.
  revert bestsize.
  induction room as [|room IH]; intros bestsize H; simpl; [done|].
  destruct (Nat.ltb_spec (besti + bestsize) ahi); simpl; [|done].
  destruct (Nat.ltb_spec (bestj + bestsize) bhi); simpl; [|done].
  destruct (_ && _); [|done].
  apply IH. unfold block_within in *. simpl in *. lia.
Qed.

Lemma extend_bounds want ahi m :
  block_within alo ahi blo bhi m ->
  block_within alo ahi blo bhi (SequenceMatcher.extend a b want alo ahi blo bhi m).
Proof.
  intros H. unfold SequenceMatcher.extend.
  destruct m as [[besti bestj] bestsize]. simpl.
  pose proof (extend_left_bounds want ahi besti bestj bestsize H) as H'.
  destruct (SequenceMatcher.extend_left a b want alo blo besti bestj bestsize)
    as [[besti' bestj'] bestsize'].
  by apply extend_right_bounds.
Qed.

(** The contract of [find_longest_match]:
    [alo <= i <= i+k <= ahi] and [blo <= j <= j+k <= bhi]. *)
Lemma find_longest_match_bounds ahi :
  alo <= ahi -> blo <= bhi ->
  block_within alo ahi blo bhi
    (SequenceMatcher.find_longest_match a b b2j alo ahi blo bhi).
Proof.
  intros Ha Hb. unfold SequenceMatcher.find_longest_match.
  by apply extend_bounds, extend_bounds, longest_junk_free_bounds.
Qed.

End Bounds.

(** ** [get_matching_blocks]: the loop ends, and the blocks fit *)

(** [simpl] unfolds [f <$> l] on lists; this puts the notation back. *)
Ltac refold_fmap :=
  repeat match goal with
    | |- context [list_fmap ?A ?B ?f ?l] =>
        progress change (list_fmap A B f l) with (f <$> l)
    | H : context [list_fmap ?A ?B ?f ?l] |- _ =>
        progress change (list_fmap A B f l) with (f <$> l) in H
    end.

Section Blocks.

Variables a b : list N.
Variable b2j : gmap N (list nat).

Lemma total_size_app l k : total_size (l ++ k) = total_size l + total_size k.
Proof.
  unfold total_size. induction l as [|x l IH]; [done|].
  rewrite <- app_comm_cons, !fmap_cons. simpl. rewrite IH. lia.
Qed.

(** With fuel for the weight of the queue, the loop empties the queue; the
    blocks it adds do not outgrow the room of the windows. *)
Lemma blocks_loop_spec fuel queue matching_blocks :
  Forall range_valid queue ->
  sum_list (range_weight <$> queue) <= fuel ->
  exists found,
    SequenceMatcher.blocks_loop a b b2j fuel queue matching_blocks
    = ([], matching_blocks ++ found)
    /\ total_size found <= sum_list (range_room_a <$> queue)
    /\ total_size found <= sum_list (range_room_b <$> queue).
Proof.
  revert queue matching_blocks.
  induction fuel as [|fuel IH]; intros queue matching_blocks Hvalid Hfuel.
  - destruct queue as [|r queue].
    + exists []. by rewrite app_nil_r.
    + simpl in Hfuel. unfold range_weight in Hfuel at 1. lia.
  - destruct queue as [|[[[alo ahi] blo] bhi] queue]; simpl.
    { exists []. by rewrite app_nil_r. }
    apply Forall_cons in Hvalid as [[Ha Hb] Hvalid]. simpl in Ha, Hb.
    pose proof (find_longest_match_bounds a b b2j alo blo bhi ahi Ha Hb) as Hm.
    destruct (SequenceMatcher.find_longest_match a b b2j alo ahi blo bhi)
      as [[i j] k].
    destruct Hm as (H1 & H2 & H3 & H4). simpl in H1, H2, H3, H4.
    simpl in Hfuel. unfold range_weight in Hfuel at 1. simpl in Hfuel.
    unfold range_room_a at 1, range_room_b at 1. simpl. refold_fmap.
    destruct (Nat.eqb_spec k 0) as [->|Hk].
    + destruct (IH queue matching_blocks Hvalid) as (found & -> & Hfa & Hfb);
        [lia|].
      exists found. split_and!; [done | lia..].
    + set (q1 := if (alo <? i) && (blo <? j) then (alo, i, blo, j) :: queue
                 else queue).
      set (q2 := if (i + k <? ahi) && (j + k <? bhi)
                 then (i + k, ahi, j + k, bhi) :: q1 else q1).
      assert (Hq1 : Forall range_valid q1
        /\ sum_list (range_weight <$> q1)
           <= 2 * (i - alo) + 1 + sum_list (range_weight <$> queue)
        /\ sum_list (range_room_a <$> q1)
           <= (i - alo) + sum_list (range_room_a <$> queue)
        /\ sum_list (range_room_b <$> q1)
           <= (j - blo) + sum_list (range_room_b <$> queue)).
      { unfold q1. destruct (Nat.ltb_spec alo i); simpl; [|split_and!; [done|lia..]].
        destruct (Nat.ltb_spec blo j); simpl; [|split_and!; [done|lia..]].
        split_and!; [|unfold range_weight, range_room_a, range_room_b; simpl; refold_fmap; lia..].
        apply Forall_cons. split; [|done]. unfold range_valid. simpl. lia. }
      destruct Hq1 as (Hv1 & Hw1 & Ha1 & Hb1).
      assert (Hq2 : Forall range_valid q2
        /\ sum_list (range_weight <$> q2)
           <= 2 * (ahi - (i + k)) + 1 + sum_list (range_weight <$> q1)
        /\ sum_list (range_room_a <$> q2)
           <= (ahi - (i + k)) + sum_list (range_room_a <$> q1)
        /\ sum_list (range_room_b <$> q2)
           <= (bhi - (j + k)) + sum_list (range_room_b <$> q1)).
      { unfold q2. destruct (Nat.ltb_spec (i + k) ahi); simpl;
          [|split_and!; [done|lia..]].
        destruct (Nat.ltb_spec (j + k) bhi); simpl; [|split_and!; [done|lia..]].
        split_and!; [|unfold range_weight, range_room_a, range_room_b; simpl; refold_fmap; lia..].
        apply Forall_cons. split; [|done]. unfold range_valid. simpl. lia. }
      destruct Hq2 as (Hv2 & Hw2 & Ha2 & Hb2).
      destruct (IH q2 (matching_blocks ++ [(i, j, k)]) Hv2)
        as (found & -> & Hfa & Hfb); [lia|].
      exists ((i, j, k) :: found). rewrite <- app_assoc. simpl.
      split_and!; [done | |]; unfold total_size in *; simpl; refold_fmap; lia.
Qed.

(** The loop of [get_matching_blocks] runs to its end: the queue is empty. *)
Lemma blocks_loop_done : (SequenceMatcher.found_blocks a b b2j).1 = [].
Proof.
  unfold SequenceMatcher.found_blocks, SequenceMatcher.blocks_fuel.
  destruct (blocks_loop_spec (2 * length a + 1) [(0, length a, 0, length b)] [])
    as (found & -> & _).
  - repeat constructor; simpl; lia.
  - simpl. unfold range_weight. simpl. lia.
  - done.
Qed.

Lemma found_blocks_size :
  total_size (SequenceMatcher.found_blocks a b b2j).2 <= length a
  /\ total_size (SequenceMatcher.found_blocks a b b2j).2 <= length b.
Proof.
  unfold SequenceMatcher.found_blocks, SequenceMatcher.blocks_fuel.
  destruct (blocks_loop_spec (2 * length a + 1) [(0, length a, 0, length b)] [])
    as (found & -> & Ha & Hb).
  - repeat constructor; simpl; lia.
  - simpl. unfold range_weight. simpl. lia.
  - simpl in *. unfold range_room_a in Ha. unfold range_room_b in Hb.
    simpl in *. lia.
Qed.

(** Merging adjacent blocks keeps the total size. *)
Lemma collapse_step_size st l :
  (foldl SequenceMatcher.collapse_step st l).1.2
  + total_size (foldl SequenceMatcher.collapse_step st l).2
  = st.1.2 + total_size st.2 + total_size l.
Proof.
  revert st. induction l as [|[[i2 j2] k2] l IH]; intros [[[i1 j1] k1] na].
  - unfold total_size. simpl. lia.
  - simpl foldl. rewrite IH. clear IH. unfold SequenceMatcher.collapse_step.
    change (total_size (((i2, j2), k2) :: l)) with (k2 + total_size l).
    destruct (_ && _); simpl; [lia|].
    destruct (Nat.eqb_spec k1 0); [simpl; lia|].
    rewrite total_size_app. unfold total_size at 2. simpl. lia.
Qed.

Lemma collapse_size l : total_size (SequenceMatcher.collapse l) = total_size l.
Proof.
  unfold SequenceMatcher.collapse.
  pose proof (collapse_step_size ((0, 0, 0), []) l) as H.
  destruct (foldl SequenceMatcher.collapse_step (0, 0, 0, []) l)
    as [[[i1 j1] k1] na]. simpl in H.
  destruct (Nat.eqb_spec k1 0).
  - unfold total_size in *. simpl in *. lia.
  - rewrite total_size_app. unfold total_size in *. simpl in *. lia.
Qed.

Lemma total_size_Permutation l k : l ≡ₚ k -> total_size l = total_size k.
Proof.
  unfold total_size.
  induction 1 as [|x l k _ IH|x y l|l k m _ IH1 _ IH2];
    rewrite ?fmap_cons; simpl; lia.
Qed.

(** [matches] is the total size of the blocks the loop found. *)
Lemma matches_found :
  SequenceMatcher.matches a b b2j
  = total_size (SequenceMatcher.found_blocks a b b2j).2.
Proof.
  change (SequenceMatcher.matches a b b2j)
    with (total_size (SequenceMatcher.get_matching_blocks a b b2j)).
  unfold SequenceMatcher.get_matching_blocks.
  rewrite total_size_app, collapse_size.
  rewrite (total_size_Permutation _ _ (merge_sort_Permutation _ _)).
  unfold total_size at 2. simpl. lia.
Qed.

Lemma matches_le :
  SequenceMatcher.matches a b b2j <= length a
  /\ SequenceMatcher.matches a b b2j <= length b.
Proof. rewrite matches_found. apply found_blocks_size. Qed.

End Blocks.

(** [ratio] lies between 0 and 1. *)
Lemma ratio_range a b :
  (0 <= SequenceMatcher.ratio a b)%Q /\ (SequenceMatcher.ratio a b <= 1)%Q.
Proof.
  unfold SequenceMatcher.ratio, SequenceMatcher._calculate_ratio. simpl.
  destruct (matches_le a b (SequenceMatcher.chain_b b)) as [Ha Hb].
  set (m := SequenceMatcher.matches a b (SequenceMatcher.chain_b b)) in *.
  destruct (Nat.eqb_spec (length a + length b) 0) as [|Hn]; [done|].
  unfold Qle. simpl. split; [lia|].
  rewrite Z.mul_1_r. replace (Z.pos (Pos.of_nat (length a + length b)))
    with (Z.of_nat (length a + length b)); [lia|].
  rewrite <- positive_nat_Z, Nat2Pos.id; done.
Qed.

(** ** [__chain_b]: what [b2j] holds *)

Lemma StronglySorted_snoc (l : list nat) n :
  StronglySorted lt l -> Forall (fun j => j < n) l -> StronglySorted lt (l ++ [n]).
Proof.
  induction 1 as [|x l Hl IH Hx]; intros Hn; simpl.
  - repeat constructor.
  - apply Forall_cons in Hn as [Hxn Hn]. constructor; [by apply IH|].
    apply Forall_app. split; [done|]. by constructor.
Qed.

(** After the loop over [enumerate(b)], an element is a key exactly when it
    occurs in [b], and its list holds the positions where it occurs, in
    increasing order. *)
Lemma b2j_full_spec (b : list N) (x : N) :
  match SequenceMatcher.b2j_full b !! x with
  | Some js => (forall j, j ∈ js <-> b !! j = Some x) /\ StronglySorted lt js
  | None => x ∉ b
  end.
Proof.
  unfold SequenceMatcher.b2j_full.
  induction b as [|y b IH] using rev_ind.
  - simpl. rewrite lookup_empty. apply not_elem_of_nil.
  - rewrite imap_app, foldl_app. simpl. rewrite Nat.add_0_r.
    set (m := foldl SequenceMatcher.chain_step ∅ (imap pair b)) in *.
    unfold SequenceMatcher.chain_step. simpl.
    destruct (decide (y = x)) as [->|Hne].
    + rewrite lookup_insert_eq.
      assert (Hold : (forall j, j ∈ default [] (m !! x) <-> b !! j = Some x)
                     /\ StronglySorted lt (default [] (m !! x))).
      { destruct (m !! x) as [js|]; simpl; [done|]. split; [|constructor].
        intros j. rewrite elem_of_nil. split; [done|]. intros Hj.
        apply IH. by eapply list_elem_of_lookup_2. }
      destruct Hold as [Hmem Hsorted]. split.
      * intros j. rewrite elem_of_app, list_elem_of_singleton, Hmem.
        destruct (decide (j = length b)) as [->|Hj].
        -- rewrite list_lookup_middle by done. split; [done|]. by right.
        -- split.
           ++ intros [H| ->]; [|done]. by rewrite lookup_app_l by (by eapply lookup_lt_Some).
           ++ intros H. left. apply lookup_app_Some in H as [H|[Hge H]]; [done|].
              apply list_lookup_singleton_Some in H as [? _]. lia.
      * apply StronglySorted_snoc; [done|]. apply Forall_forall.
        intros j Hj. apply Hmem in Hj. by eapply lookup_lt_Some.
    + rewrite lookup_insert_ne by done.
      destruct (m !! x) as [js|].
      * destruct IH as [Hmem Hsorted]. split; [|done].
        intros j. rewrite Hmem. split.
        -- intros H. by rewrite lookup_app_l by (by eapply lookup_lt_Some).
        -- intros H. apply lookup_app_Some in H as [H|[Hge H]]; [done|].
           apply list_lookup_singleton_Some in H as [_ ?]. congruence.
      * rewrite not_elem_of_app, list_elem_of_singleton. split; [done|congruence].
Qed.

(** The lists [__chain_b] leaves in [b2j] are those of the full dict. *)
Lemma chain_b_spec (b : list N) (x : N) (js : list nat) :
  SequenceMatcher.chain_b b !! x = Some js ->
  (forall j, j ∈ js <-> b !! j = Some x) /\ StronglySorted lt js.
Proof.
  unfold SequenceMatcher.chain_b. intros H.
  apply map_lookup_filter_Some in H as [H _].
  pose proof (b2j_full_spec b x) as Hs. by rewrite H in Hs.
Qed.

(** ** A string against itself: one block covers the whole window *)

Section SelfMatch.

Variable s : list N.
Variables lo hi : nat.
Hypothesis lo_hi : lo <= hi.
Hypothesis hi_len : hi <= length s.

Local Abbreviation b2j := (SequenceMatcher.chain_b s).
Local Abbreviation run := (diagonal_run s b2j lo).

Lemma run_le n : run n + lo <= n \/ run n = 0.
Proof.
  induction n as [|n IH]; simpl; [by right|].
  destruct (Nat.leb_spec lo n); simpl; [|by right].
  destruct (indexed s b2j n); [|by right]. left. lia.
Qed.

Lemma run_step t : lo <= t -> indexed s b2j t = true -> run (S t) = S (run t).
Proof.
  intros Ht Hi. simpl. rewrite Hi. by rewrite (proj2 (Nat.leb_le lo t)).
Qed.

Lemma scan_row_self i j2len js newj2len best :
  lo <= i < hi ->
  run (S i) = S (run i) ->
  StronglySorted lt js ->
  (forall j, j ∈ js -> lo <= j -> run (S j) = S (run j)) ->
  run_bounded s lo i j2len ->
  default 0 (j2len !! (Z.of_nat i - 1)%Z) = run i ->
  run_bounded s lo (S i) newj2len ->
  (i ∈ js \/ (newj2len !! Z.of_nat i = Some (run (S i)) /\ run (S i) <= best.2)) ->
  on_diagonal lo (S i) best ->
  (forall t, t <= i -> run t <= best.2) ->
  self_inv s lo (S i) (SequenceMatcher.scan_row i lo hi j2len js newj2len best).
Proof.
  intros Hi Hrun Hsorted Hjs Hold Hdiag. revert newj2len best.
  induction js as [|j js IH]; intros newj2len best Hnew Hseen Hbest Hmax.
  - simpl. destruct Hseen as [Hseen|[Hseen Hle]]; [by apply elem_of_nil in Hseen|].
    split_and!; simpl; [done | | done |].
    + replace (Z.of_nat (S i) - 1)%Z with (Z.of_nat i) by lia. by rewrite Hseen.
    + intros t Ht. destruct (decide (t = S i)) as [->|]; [done|]. apply Hmax. lia.
  - apply StronglySorted_inv in Hsorted as [Hsorted Hlt].
    rewrite Forall_forall in Hlt.
    assert (Hjs' : forall j', j' ∈ js -> lo <= j' -> run (S j') = S (run j')).
    { intros j' Hj'. apply Hjs. by right. }
    simpl. destruct (Nat.ltb_spec j lo) as [Hjlo|Hjlo].
    { apply IH; try done. destruct Hseen as [Hseen|Hseen]; [|by right].
      apply elem_of_cons in Hseen as [->|Hseen]; [lia | by left]. }
    assert (Hright : i < j ->
      newj2len !! Z.of_nat i = Some (run (S i)) /\ run (S i) <= best.2).
    { intros Hij. destruct Hseen as [Hseen|Hseen]; [|done].
      apply elem_of_cons in Hseen as [->|Hseen]; [lia|].
      apply Hlt in Hseen. lia. }
    destruct (Nat.leb_spec hi j) as [Hjhi|Hjhi].
    { destruct Hright as [Hseen' Hle]; [lia|].
      split_and!; simpl; [done | | done |].
      - replace (Z.of_nat (S i) - 1)%Z with (Z.of_nat i) by lia. by rewrite Hseen'.
      - intros t Ht. destruct (decide (t = S i)) as [->|]; [done|]. apply Hmax. lia. }
    set (k := default 0 (j2len !! (Z.of_nat j - 1)%Z) + 1).
    assert (Hj : run (S j) = S (run j)) by (apply Hjs; [by left | done]).
    assert (Hk : k <= run (S i) /\ k <= run (S j)).
    { unfold k. rewrite Hrun, Hj.
      destruct (j2len !! (Z.of_nat j - 1)%Z) as [v|] eqn:Ev; simpl; [|lia].
      destruct (Hold _ _ Ev) as (j' & Hj' & Hv1 & Hv2).
      replace j with (S j') by lia. lia. }
    assert (Hki : j = i -> k = run (S i)).
    { intros ->. unfold k. rewrite Hdiag, Hrun. lia. }
    assert (Hnew' : run_bounded s lo (S i) (<[Z.of_nat j:=k]> newj2len)).
    { intros z v Hz. apply lookup_insert_Some in Hz as [[<- <-]|[_ Hz]].
      - by exists j.
      - by apply Hnew. }
    destruct (Nat.ltb_spec best.2 k) as [Hup|Hup].
    + (* a longer block: only the diagonal can give one *)
      assert (j = i) as ->.
      { destruct (Nat.lt_trichotomy j i) as [Hlt'|[->|Hgt]]; [|done|].
        - specialize (Hmax (S j)). lia.
        - destruct (Hright Hgt). lia. }
      specialize (Hki eq_refl). apply IH; try done.
      * right. simpl. by rewrite lookup_insert_eq, Hki.
      * unfold on_diagonal. simpl. destruct (run_le (S i)); lia.
      * intros t Ht. simpl. specialize (Hmax t Ht). lia.
    + apply IH; try done.
      destruct (decide (j = i)) as [->|Hne].
      * right. rewrite lookup_insert_eq, (Hki eq_refl). split; [done|]. lia.
      * destruct Hseen as [Hseen|[Hseen Hle]].
        -- apply elem_of_cons in Hseen as [->|Hseen]; [done | by left].
        -- right. rewrite lookup_insert_ne by lia. done.
Qed.

Lemma row_step_self i st :
  lo <= i < hi ->
  self_inv s lo i st ->
  self_inv s lo (S i) (SequenceMatcher.row_step s b2j lo hi st i).
Proof.
  intros Hi (Hold & Hdiag & Hbest & Hmax). unfold SequenceMatcher.row_step.
  destruct (lookup_lt_is_Some_2 s i) as [x Hx]; [lia|].
  rewrite Hx. simpl.
  destruct (b2j !! x) as [js|] eqn:Hjs; simpl.
  - destruct (chain_b_spec s x js Hjs) as [Hmem Hsorted].
    assert (Hidx : forall j, j ∈ js -> indexed s b2j j = true).
    { intros j Hj. apply Hmem in Hj. unfold indexed.
      apply bool_decide_eq_true. rewrite Hj. simpl. by rewrite Hjs. }
    assert (Hin : i ∈ js) by (by apply Hmem).
    apply scan_row_self; try done.
    + apply run_step; [lia | by apply Hidx].
    + intros j Hj Hlo. apply run_step; [done | by apply Hidx].
    + by left.
    + unfold on_diagonal in *. lia.
  - assert (Hrun : run (S i) = 0).
    { simpl. unfold indexed. rewrite Hx. simpl. rewrite Hjs.
      rewrite bool_decide_eq_false_2; [by rewrite andb_false_r|].
      by intros [? ?]. }
    split_and!; cbn [fst snd].
    + intros z v Hz. by rewrite lookup_empty in Hz.
    + by rewrite lookup_empty, Hrun.
    + unfold on_diagonal in *. lia.
    + intros t Ht. destruct (decide (t = S i)) as [->|]; [lia|]. apply Hmax. lia.
Qed.

Lemma rows_self n st :
  lo + n <= hi ->
  self_inv s lo lo st ->
  self_inv s lo (lo + n) (foldl (SequenceMatcher.row_step s b2j lo hi) st (seq lo n)).
Proof.
  intros Hn Hst. induction n as [|n IH].
  - simpl. by rewrite Nat.add_0_r.
  - rewrite seq_S, foldl_app. simpl. rewrite Nat.add_succ_r.
    apply row_step_self; [lia|]. apply IH. lia.
Qed.

Lemma longest_junk_free_self :
  on_diagonal lo hi (SequenceMatcher.longest_junk_free s b2j lo hi lo hi).
Proof.
  unfold SequenceMatcher.longest_junk_free.
  assert (Hrun0 : forall t, t <= lo -> run t = 0).
  { intros t Ht. destruct (run_le t); [lia | done]. }
  destruct (rows_self (hi - lo) (∅, (lo, lo, 0))) as (_ & _ & H & _).
  - lia.
  - split_and!; cbn [fst snd].
    + intros z v Hz. by rewrite lookup_empty in Hz.
    + by rewrite lookup_empty, Hrun0.
    + unfold on_diagonal. simpl. lia.
    + intros t Ht. by rewrite Hrun0.
  - by replace (lo + (hi - lo)) with hi in H by lia.
Qed.

Lemma junk_is_false j : j < length s -> SequenceMatcher.junk_is s false j = true.
Proof.
  intros Hj. unfold SequenceMatcher.junk_is.
  destruct (lookup_lt_is_Some_2 s j Hj) as [y ->]. reflexivity.
Qed.

Lemma same_elt_refl j : j < length s -> SequenceMatcher.same_elt s s j j = true.
Proof.
  intros Hj. unfold SequenceMatcher.same_elt.
  destruct (lookup_lt_is_Some_2 s j Hj) as [y ->]. apply N.eqb_refl.
Qed.

Lemma extend_left_self besti bestsize :
  lo <= besti -> besti <= length s ->
  SequenceMatcher.extend_left s s false lo lo besti besti bestsize
  = (lo, lo, bestsize + (besti - lo)).
Proof.
  revert bestsize. induction besti as [|besti IH]; intros bestsize Hlo Hlen.
  - simpl. replace lo with 0 by lia. by rewrite Nat.add_0_r.
  - simpl. rewrite Nat.sub_0_r.
    destruct (Nat.ltb_spec lo (S besti)) as [Hlt|Hge]; simpl.
    + rewrite junk_is_false, same_elt_refl by lia. simpl.
      rewrite IH by lia. f_equal. lia.
    + replace lo with (S besti) by lia. f_equal. lia.
Qed.

Lemma extend_right_self room bestsize :
  room = hi - (lo + bestsize) -> lo + bestsize <= hi ->
  SequenceMatcher.extend_right s s false room hi hi lo lo bestsize
  = (lo, lo, hi - lo).
Proof.
  revert bestsize. induction room as [|room IH]; intros bestsize Hroom Hle.
  - simpl. f_equal. lia.
  - simpl. rewrite (proj2 (Nat.ltb_lt (lo + bestsize) hi)) by lia. simpl.
    rewrite junk_is_false, same_elt_refl by lia. simpl.
    apply IH; lia.
Qed.

End SelfMatch.

(** No element is junk, so the two loops over junk change nothing. *)
Lemma junk_is_true a j : SequenceMatcher.junk_is a true j = false.
Proof. unfold SequenceMatcher.junk_is. by destruct (a !! j). Qed.

Lemma extend_junk a b alo ahi blo bhi m :
  SequenceMatcher.extend a b true alo ahi blo bhi m = m.
Proof.
  unfold SequenceMatcher.extend. destruct m as [[besti bestj] bestsize]. simpl.
  assert (Hl : SequenceMatcher.extend_left a b true alo blo besti bestj bestsize
               = (besti, bestj, bestsize)).
  { destruct besti; simpl; [done|]. rewrite junk_is_true.
    by rewrite andb_false_r. }
  rewrite Hl. destruct (ahi - (besti + bestsize)); simpl; [done|].
  rewrite junk_is_true. by rewrite andb_false_r.
Qed.

(** [find_longest_match] on a window of a string against the same window of
    the same string returns the whole window. *)
Lemma find_longest_match_self s lo hi :
  lo <= hi -> hi <= length s ->
  SequenceMatcher.find_longest_match s s (SequenceMatcher.chain_b s) lo hi lo hi
  = (lo, lo, hi - lo).
Proof.
  intros Hlo Hhi. unfold SequenceMatcher.find_longest_match.
  rewrite extend_junk.
  destruct (longest_junk_free_self s lo hi Hlo Hhi) as (Heq & Hge & Hsum).
  destruct (SequenceMatcher.longest_junk_free s _ lo hi lo hi)
    as [[besti bestj] bestsize].
  simpl in Heq, Hge, Hsum. subst bestj.
  unfold SequenceMatcher.extend. simpl.
  rewrite (extend_left_self s lo hi Hlo Hhi) by lia.
  apply (extend_right_self s lo hi Hlo Hhi); lia.
Qed.

Lemma blocks_loop_empty a b b2j fuel matching_blocks :
  SequenceMatcher.blocks_loop a b b2j fuel [] matching_blocks
  = ([], matching_blocks).
Proof. by destruct fuel. Qed.

Lemma matches_self s :
  SequenceMatcher.matches s s (SequenceMatcher.chain_b s) = length s.
Proof.
  rewrite matches_found.
  unfold SequenceMatcher.found_blocks, SequenceMatcher.blocks_fuel.
  rewrite Nat.add_1_r. cbn [SequenceMatcher.blocks_loop SequenceMatcher.blocks_step].
  rewrite find_longest_match_self by lia. rewrite Nat.sub_0_r.
  destruct (Nat.eqb_spec (length s) 0) as [Hn|Hn].
  - rewrite blocks_loop_empty. by rewrite Hn.
  - rewrite Nat.ltb_irrefl. simpl.
    rewrite blocks_loop_empty. unfold total_size. simpl. lia.
Qed.

Lemma Zpos_of_nat n : n <> 0 -> Z.pos (Pos.of_nat n) = Z.of_nat n.
Proof. intros Hn. rewrite <- positive_nat_Z, Nat2Pos.id; done. Qed.

(** [ratio] of a string with itself is 1. *)
Lemma ratio_self s : (SequenceMatcher.ratio s s == 1)%Q.
Proof.
  unfold SequenceMatcher.ratio, SequenceMatcher._calculate_ratio.
  cbv zeta. rewrite matches_self.
  destruct (Nat.eqb_spec (length s + length s) 0) as [|Hn]; [done|].
  unfold Qeq. cbn [Qnum Qden]. rewrite Zpos_of_nat by done. lia.
Qed.

(** ** [title_similarity] *)

Lemma lower_nil_iff s : Str.lower s = [] <-> s = [].
Proof.
  split; [|by intros ->]. destruct s as [|c s]; [done|].
  unfold Str.lower, Char.lower. simpl.
  destruct (Char.is_upper_ascii c); [done|].
  destruct (c =? 304)%N; [done|]. by destruct (c =? 8490)%N.
Qed.

Lemma truthy_lower s : Str.truthy (Some (Str.lower s)) = Str.truthy (Some s).
Proof.
  destruct s as [|c s]; [done|].
  destruct (Str.lower (c :: s)) eqn:E; [|done].
  by apply (proj1 (lower_nil_iff _)) in E.
Qed.

Lemma title_similarity_empty_l b : title_similarity (Some []) b = 0%Q.
Proof. reflexivity. Qed.

Lemma title_similarity_None_l b : title_similarity None b = 0%Q.
Proof. reflexivity. Qed.

Lemma title_similarity_empty_r a : title_similarity a (Some []) = 0%Q.
Proof.
  unfold title_similarity.
  change (negb (Str.truthy (Some (Str.lower (Str.or_empty (Some []))))))
    with true.
  by rewrite orb_true_r.
Qed.

Lemma title_similarity_None_r a : title_similarity a None = 0%Q.
Proof. apply title_similarity_empty_r. Qed.

Lemma title_similarity_nonempty a b :
  a <> [] -> b <> [] ->
  title_similarity (Some a) (Some b)
  = SequenceMatcher.ratio (normalized a) (normalized b).
Proof.
  intros Ha Hb. unfold title_similarity.
  change (Str.or_empty (Some a)) with a. change (Str.or_empty (Some b)) with b.
  cbv zeta. rewrite !truthy_lower.
  destruct a; [done|]. by destruct b.
Qed.

Lemma title_similarity_range a b :
  (0 <= title_similarity a b)%Q /\ (title_similarity a b <= 1)%Q.
Proof.
  unfold title_similarity.
  destruct (negb _ || negb _); [done|]. apply ratio_range.
Qed.

(** The pair of the [difflib] manual, evaluated. *)
Lemma tide_diet :
  title_similarity (Some tide) (Some diet) = (2 # 8)%Q
  /\ title_similarity (Some diet) (Some tide) = (4 # 8)%Q.
Proof. split; by vm_compute. Qed.

Lemma tide_diet_differ :
  ~ (title_similarity (Some tide) (Some diet)
     == title_similarity (Some diet) (Some tide))%Q.
Proof.
  destruct tide_diet as [-> ->]. intros H. vm_compute in H. discriminate H.
Qed.

(** C2, the counterexample: the similarity of "tide" to "diet" is 0.25 and
    that of "diet" to "tide" is 0.5, so the function is not symmetric. *)
Lemma title_similarity_not_symmetric :
  title_similarity (Some tide) (Some diet) = (2 # 8)%Q
  /\ title_similarity (Some diet) (Some tide) = (4 # 8)%Q
  /\ ~ (title_similarity (Some tide) (Some diet)
        == title_similarity (Some diet) (Some tide))%Q.
Proof.
  split; [apply tide_diet|]. split; [apply tide_diet | apply tide_diet_differ].
Qed.

(** C2, as amended.  [title_similarity] is 1 on a non-empty string compared
    with itself and 0 as soon as one argument is empty (or [None]); for two
    non-empty strings it is the [ratio] of the matcher on the two normalized
    strings, a number between 0 and 1.  It is not symmetric: "tide" and
    "diet" give 0.25 one way and 0.5 the other. *)
Theorem title_similarity_spec (a b : list N) :
  (a <> [] -> title_similarity (Some a) (Some a) == 1)%Q
  /\ (title_similarity (Some []) (Some b) == 0)%Q
  /\ (title_similarity (Some a) (Some []) == 0)%Q
  /\ (title_similarity None (Some b) == 0)%Q
  /\ (title_similarity (Some a) None == 0)%Q
  /\ (0 <= title_similarity (Some a) (Some b))%Q
  /\ (title_similarity (Some a) (Some b) <= 1)%Q
  /\ (a <> [] -> b <> [] ->
      title_similarity (Some a) (Some b)
      = SequenceMatcher.ratio
          (Str.keep Char.is_lower_alnum (Str.lower a))
          (Str.keep Char.is_lower_alnum (Str.lower b)))
  /\ (exists x y : list N,
        ~ (title_similarity (Some x) (Some y)
           == title_similarity (Some y) (Some x))%Q).
Proof.
  split_and!.
  - intros Ha. rewrite title_similarity_nonempty by done. apply ratio_self.
  - by rewrite title_similarity_empty_l.
  - by rewrite title_similarity_empty_r.
  - by rewrite title_similarity_None_l.
  - by rewrite title_similarity_None_r.
  - apply title_similarity_range.
  - apply title_similarity_range.
  - apply title_similarity_nonempty.
  - exists tide, diet. apply tide_diet_differ.
Qed.

(** C2, an instance of the amended statement that its proof uses at a
    concrete title. *)
Lemma title_similarity_spec_witness :
  tide <> [] /\ (title_similarity (Some tide) (Some tide) == 1)%Q.
Proof.
  split; [done|].
  apply (proj1 (title_similarity_spec tide diet)). done.
Defined.

(** C10. Two non-empty strings that both normalize to the empty string have
    similarity 1, which is above the threshold of the automatic pick, whatever
    their characters; among the pairs of strings that normalize to the empty
    string, the similarity is 0 only when one of the two is empty before
    normalization. *)
Theorem title_similarity_both_stripped (a b : list N) :
  Str.keep Char.is_lower_alnum (Str.lower a) = [] ->
  Str.keep Char.is_lower_alnum (Str.lower b) = [] ->
  (a <> [] -> b <> [] ->
     (title_similarity (Some a) (Some b) == 1)%Q
     /\ (confident <= title_similarity (Some a) (Some b))%Q)
  /\ ((title_similarity (Some a) (Some b) == 0)%Q <-> a = [] \/ b = []).
Proof.
  intros Ha Hb.
  assert (H1 : a <> [] -> b <> [] -> title_similarity (Some a) (Some b) = 1%Q).
  { intros Hna Hnb. rewrite title_similarity_nonempty by done.
    unfold normalized. by rewrite Ha, Hb. }
  split.
  - intros Hna Hnb. rewrite H1 by done. split; [done|]. by vm_compute.
  - split.
    + intros H0. destruct a as [|x a]; [by left|].
      destruct b as [|y b]; [by right|].
      rewrite H1 in H0 by done. by vm_compute in H0.
    + intros [-> | ->].
      * by rewrite title_similarity_empty_l.
      * by rewrite title_similarity_empty_r.
Qed.

(** C10 at "!!!" and "???". *)
Lemma title_similarity_both_stripped_witness :
  (title_similarity (Some bangs) (Some queries) == 1)%Q
  /\ (confident <= title_similarity (Some bangs) (Some queries))%Q.
Proof.
  apply (title_similarity_both_stripped bangs queries);
    [reflexivity | reflexivity | discriminate | discriminate].
Defined.

(** Without that proviso a similarity of 0 also comes from two non-empty
    titles that share nothing ("!!!" against "diet"). *)
Example title_similarity_zero_nonempty :
  title_similarity (Some bangs) (Some diet) = (0 # 4)%Q.
Proof. by vm_compute. Qed.

(** ** [_maybe_autopick] *)

Lemma Qlt_bool_iff x y : Qlt_bool x y = true <-> (x < y)%Q.
Proof.
  unfold Qlt_bool. rewrite negb_true_iff. split.
  - intros H. apply Qnot_le_lt. intros Hle. apply Qle_bool_iff in Hle. congruence.
  - intros H. destruct (Qle_bool y x) eqn:E; [|done].
    apply Qle_bool_iff in E. exfalso. by apply (Qlt_not_le x y).
Qed.

Lemma Qlt_bool_false x y : Qlt_bool x y = false -> (y <= x)%Q.
Proof.
  unfold Qlt_bool. rewrite negb_false_iff. apply Qle_bool_iff.
Qed.

(** The gate lets a candidate through unless both years are known and
    differ by more than the tolerance. *)
Lemma year_gate_false target_year tol c :
  year_gate target_year tol c = false <->
  forall Y cy, target_year = Some Y -> year c = Some cy ->
               (Z.abs (cy - Y) <= tol)%Z.
Proof.
  unfold year_gate. destruct target_year as [Y|], (year c) as [cy|].
  - rewrite Z.ltb_ge. split; [by intros H ? ? [= <-] [= <-] | by intros H; apply H].
  - split; [by intros _ ? ? ? | done].
  - split; [by intros _ ? ? ? | done].
  - split; [by intros _ ? ? ? | done].
Qed.

(** What the loop of [_maybe_autopick] holds after the candidates [l]:
    [best_score] is the largest score of a candidate the gate let through, or
    0 when none scored above 0, and [best] is the first candidate with that
    score. *)
Lemma autopick_scan_spec target_title target_year tol (l : list Candidate) :
  (0 <= (autopick_scan target_title target_year tol l).2)%Q
  /\ (forall c, c ∈ l -> year_gate target_year tol c = false ->
        (title_similarity (Some target_title) (title c)
         <= (autopick_scan target_title target_year tol l).2)%Q)
  /\ match (autopick_scan target_title target_year tol l).1 with
     | None => (autopick_scan target_title target_year tol l).2 = 0%Q
     | Some c =>
         exists before after,
           l = before ++ c :: after
           /\ year_gate target_year tol c = false
           /\ (autopick_scan target_title target_year tol l).2
              = title_similarity (Some target_title) (title c)
           /\ (forall c', c' ∈ before -> year_gate target_year tol c' = false ->
                 (title_similarity (Some target_title) (title c')
                  < title_similarity (Some target_title) (title c))%Q)
     end.
Proof.
  unfold autopick_scan.
  induction l as [|x l (Hpos & Hmax & Hbest)] using rev_ind.
  - simpl. split_and!; [done | | done]. intros c Hc. by apply elem_of_nil in Hc.
  - rewrite foldl_app. simpl.
    destruct (foldl (autopick_step target_title target_year tol) (None, 0%Q) l)
      as [best best_score]. simpl in Hpos, Hmax, Hbest.
    unfold autopick_step. simpl.
    destruct (year_gate target_year tol x) eqn:Hgate; simpl.
    { split_and!; [done | |].
      - intros c Hc Hg. apply elem_of_app in Hc as [Hc|Hc]; [by apply Hmax|].
        apply list_elem_of_singleton in Hc as ->. congruence.
      - destruct best as [c|]; [|done].
        destruct Hbest as (before & after & -> & Hg & Hs & Hlt).
        exists before, (after ++ [x]). by rewrite <- app_assoc. }
    destruct (Qlt_bool best_score (title_similarity (Some target_title) (title x)))
      eqn:Hlt; simpl.
    + apply Qlt_bool_iff in Hlt. split_and!.
      * apply Qlt_le_weak. by eapply Qle_lt_trans.
      * intros c Hc Hg. apply elem_of_app in Hc as [Hc|Hc].
        -- apply Qlt_le_weak. eapply Qle_lt_trans; [by apply Hmax | done].
        -- apply list_elem_of_singleton in Hc as ->. apply Qle_refl.
      * exists l, []. split_and!; [done..|].
        intros c' Hc' Hg. eapply Qle_lt_trans; [by apply Hmax | done].
    + apply Qlt_bool_false in Hlt. split_and!; [done | |].
      * intros c Hc Hg. apply elem_of_app in Hc as [Hc|Hc]; [by apply Hmax|].
        by apply list_elem_of_singleton in Hc as ->.
      * destruct best as [c|]; [|done].
        destruct Hbest as (before & after & -> & Hg & Hs & Hlt').
        exists before, (after ++ [x]). by rewrite <- app_assoc.
Qed.

(** The function, on the gate as it computes it: the first candidate with
    the largest similarity among those the gate lets through, when that
    similarity reaches the threshold. *)
Lemma maybe_autopick_gated (tol : Z) (artist album : option (list N))
    (query_year : option Z) (candidates : list Candidate) :
  (exists before c after,
     candidates = before ++ c :: after
     /\ year_gate (year_as_int query_year) tol c = false
     /\ (confident <= title_similarity (Some (Str.or_empty album)) (title c))%Q
     /\ (forall c', c' ∈ before ->
           year_gate (year_as_int query_year) tol c' = false ->
           (title_similarity (Some (Str.or_empty album)) (title c')
            < title_similarity (Some (Str.or_empty album)) (title c))%Q)
     /\ (forall c', c' ∈ after ->
           year_gate (year_as_int query_year) tol c' = false ->
           (title_similarity (Some (Str.or_empty album)) (title c')
            <= title_similarity (Some (Str.or_empty album)) (title c))%Q)
     /\ _maybe_autopick tol artist album query_year candidates = image c)
  \/ ((forall c, c ∈ candidates ->
         year_gate (year_as_int query_year) tol c = false ->
         (title_similarity (Some (Str.or_empty album)) (title c) < confident)%Q)
      /\ _maybe_autopick tol artist album query_year candidates = None).
Proof.
  destruct (autopick_scan_spec (Str.or_empty album) (year_as_int query_year) tol
              candidates) as (Hpos & Hmax & Hbest).
  assert (Hpick : _maybe_autopick tol artist album query_year candidates
    = match autopick_scan (Str.or_empty album) (year_as_int query_year) tol candidates
      with
      | (Some best, best_score) =>
          if Qle_bool confident best_score then image best else None
      | (None, _) => None
      end).
  { unfold _maybe_autopick. by destruct candidates. }
  rewrite Hpick. clear Hpick.
  destruct (autopick_scan (Str.or_empty album) (year_as_int query_year) tol candidates)
    as [[best|] best_score]; simpl in Hpos, Hmax, Hbest.
  - destruct Hbest as (before & after & Heq & Hg & Hs & Hlt).
    destruct (Qle_bool confident best_score) eqn:Hconf.
    + left. exists before, best, after. apply Qle_bool_iff in Hconf.
      rewrite <- Hs. split_and!; try done.
      * intros c' Hc' Hg'. rewrite Hs. by apply Hlt.
      * intros c' Hc' Hg'. apply Hmax; [|done]. rewrite Heq.
        apply elem_of_app. right. by apply list_elem_of_further.
    + right. split; [|done]. intros c Hc Hg'.
      eapply Qle_lt_trans; [by apply Hmax|].
      apply Qnot_le_lt. intros Hle. apply Qle_bool_iff in Hle. congruence.
  - right. split; [|done]. intros c Hc Hg.
    eapply Qle_lt_trans; [by apply Hmax|]. by rewrite Hbest.
Qed.

(** For a query without year or with a positive year, the gate of the
    function rejects exactly the candidates that are out of tolerance. *)
Lemma year_gate_out_of_tolerance query_year tol c :
  (forall Y, query_year = Some Y -> (0 < Y)%Z) ->
  year_gate (year_as_int query_year) tol c = false
  <-> ~ out_of_tolerance query_year tol c.
Proof.
  intros Hq. unfold out_of_tolerance.
  assert (year_as_int query_year = query_year) as ->.
  { destruct query_year as [Y|]; [|done]. specialize (Hq Y eq_refl).
    unfold year_as_int.
    destruct (Z.eqb_spec Y 0); [lia|]. destruct (Z.leb_spec 0 Y); [done|lia]. }
  rewrite year_gate_false. split.
  - intros H (Y & cy & HY & Hcy & Hlt). specialize (H Y cy HY Hcy). lia.
  - intros H Y cy HY Hcy.
    destruct (Z_le_gt_dec (Z.abs (cy - Y)) tol) as [?|Hgt]; [done|].
    exfalso. apply H. exists Y, cy. split_and!; [done|done|lia].
Qed.

(** C1, amended. For a query without year or with a positive year, any
    tolerance and any list of candidates: a candidate is rejected when its
    year and the year of the query are both known and differ by more than
    the tolerance.  Among the candidates that are not rejected the function
    takes the first one, in list order, that has the largest similarity to
    the album title; when that similarity is at least 0.92 it returns the
    image URL of this candidate, and in every other case it returns [None].
    In particular a URL it returns is the image of a candidate that is not
    out of tolerance, whatever the similarity of the others, and of two
    candidates with the largest similarity the earlier one wins. *)
Theorem maybe_autopick_spec (tol : Z) (artist album : option (list N))
    (query_year : option Z) (candidates : list Candidate) :
  (forall Y, query_year = Some Y -> (0 < Y)%Z) ->
  ((exists before c after,
      candidates = before ++ c :: after
      /\ ~ out_of_tolerance query_year tol c
      /\ (confident <= title_similarity (Some (Str.or_empty album)) (title c))%Q
      /\ (forall c', c' ∈ before -> ~ out_of_tolerance query_year tol c' ->
            (title_similarity (Some (Str.or_empty album)) (title c')
             < title_similarity (Some (Str.or_empty album)) (title c))%Q)
      /\ (forall c', c' ∈ after -> ~ out_of_tolerance query_year tol c' ->
            (title_similarity (Some (Str.or_empty album)) (title c')
             <= title_similarity (Some (Str.or_empty album)) (title c))%Q)
      /\ _maybe_autopick tol artist album query_year candidates = image c)
   \/ ((forall c, c ∈ candidates -> ~ out_of_tolerance query_year tol c ->
          (title_similarity (Some (Str.or_empty album)) (title c) < confident)%Q)
       /\ _maybe_autopick tol artist album query_year candidates = None))
  /\ (forall url,
        _maybe_autopick tol artist album query_year candidates = Some url ->
        exists c, c ∈ candidates /\ image c = Some url
                  /\ forall Y cy, query_year = Some Y -> year c = Some cy ->
                        (Z.abs (cy - Y) <= tol)%Z).
Proof.
  intros Hq.
  pose proof (fun c => year_gate_out_of_tolerance query_year tol c Hq) as Hgate.
  assert ((exists before c after,
      candidates = before ++ c :: after
      /\ ~ out_of_tolerance query_year tol c
      /\ (confident <= title_similarity (Some (Str.or_empty album)) (title c))%Q
      /\ (forall c', c' ∈ before -> ~ out_of_tolerance query_year tol c' ->
            (title_similarity (Some (Str.or_empty album)) (title c')
             < title_similarity (Some (Str.or_empty album)) (title c))%Q)
      /\ (forall c', c' ∈ after -> ~ out_of_tolerance query_year tol c' ->
            (title_similarity (Some (Str.or_empty album)) (title c')
             <= title_similarity (Some (Str.or_empty album)) (title c))%Q)
      /\ _maybe_autopick tol artist album query_year candidates = image c)
   \/ ((forall c, c ∈ candidates -> ~ out_of_tolerance query_year tol c ->
          (title_similarity (Some (Str.or_empty album)) (title c) < confident)%Q)
       /\ _maybe_autopick tol artist album query_year candidates = None))
    as Hmain.
  { destruct (maybe_autopick_gated tol artist album query_year candidates)
      as [(before & c & after & Heq & Hg & Hconf & Hb & Ha & Hres)|[Hall Hres]].
    - left. exists before, c, after. split_and!; [done| |done| | |done].
      + by apply Hgate.
      + intros c' Hc' Hn. apply Hb; [done|]. by apply Hgate.
      + intros c' Hc' Hn. apply Ha; [done|]. by apply Hgate.
    - right. split; [|done]. intros c Hc Hn. apply Hall; [done|].
      by apply Hgate. }
  split; [exact Hmain|].
  intros url Hurl.
  destruct Hmain as [(before & c & after & Heq & Hn & _ & _ & _ & Hres)|[_ Hres]];
    [|congruence].
  exists c. split_and!.
  - rewrite Heq. apply elem_of_app. right. by left.
  - congruence.
  - intros Y cy HY Hcy.
    destruct (Z_le_gt_dec (Z.abs (cy - Y)) tol) as [?|Hgt]; [done|].
    exfalso. apply Hn. exists Y, cy. split_and!; [done|done|lia].
Qed.

(** C1 at the query year 1997 with the tolerance 1: the candidate of 2017
    has the better title and is passed over. *)
Lemma maybe_autopick_spec_witness :
  exists c, c ∈ [reissue_2017; release_1997] /\ image c = Some url_A
            /\ forall Y cy, Some 1997%Z = Some Y -> year c = Some cy ->
                  (Z.abs (cy - Y) <= 1)%Z.
Proof.
  apply (maybe_autopick_spec 1 (Some radiohead) (Some ok_computer)
           (Some 1997%Z) [reissue_2017; release_1997]).
  - intros Y [= <-]. lia.
  - by vm_compute.
Defined.

(** The claim as it was worded fails at the query year 0, which the
    function reads as no year: with the tolerance 1 it returns the image
    of a candidate of 2017. *)
Lemma maybe_autopick_year_zero :
  _maybe_autopick 1 (Some radiohead) (Some ok_computer) (Some 0%Z) [reissue_2017]
  = Some url_B
  /\ image reissue_2017 = Some url_B
  /\ year reissue_2017 = Some 2017%Z
  /\ (1 <? Z.abs (2017 - 0))%Z = true.
Proof. split_and!; by vm_compute. Qed.

Example autopick_ok_computer :
  _maybe_autopick 1 (Some radiohead) (Some ok_computer) (Some 1997%Z)
    [release_1997; release_2017] = Some url_A
  /\ decide_round false 1 (Some radiohead) (Some ok_computer) (Some 1997%Z)
       [release_1997; release_2017] = Done (Resolved url_A).
Proof. split; by vm_compute. Qed.

(** A candidate outside the tolerance is passed over although its title is
    the better match, and then nothing is picked when the other candidate is
    not similar enough. *)
Example autopick_gate_before_score :
  title_similarity (Some ok_computer) (title reissue_2017) = (20 # 20)%Q
  /\ title_similarity (Some ok_computer) (title remaster_1997) = (20 # 28)%Q
  /\ _maybe_autopick 1 (Some radiohead) (Some ok_computer) (Some 1997%Z)
       [reissue_2017; remaster_1997] = None
  /\ _maybe_autopick 1 (Some radiohead) (Some ok_computer) None
       [reissue_2017; remaster_1997] = Some url_B.
Proof. split_and!; by vm_compute. Qed.

(** Two candidates with the same, largest score: the first one is taken. *)
Example autopick_first_of_equals :
  _maybe_autopick 1 (Some radiohead) (Some ok_computer) None
    [reissue_2017; release_1997] = Some url_B
  /\ _maybe_autopick 1 (Some radiohead) (Some ok_computer) None
       [release_1997; reissue_2017] = Some url_A.
Proof. split; by vm_compute. Qed.

(** ** The statements at sample inputs *)

(** C3 at a negative tolerance. *)
Lemma soft_year_filter_spec_witness :
  (-3 < 0)%Z
  /\ soft_year_filter [release_1997; release_2017] (Some 1997%Z) (-3)
     = soft_year_filter [release_1997; release_2017] (Some 1997%Z) 0.
Proof.
  split; [reflexivity|].
  apply (soft_year_filter_spec [release_1997; release_2017] (-3)). reflexivity.
Defined.

(** C4 on three candidates, two of them with the same URL. *)
Lemma dedup_by_image_spec_witness :
  release_1997 ∈ dedup_by_image [release_1997; remaster_1997; release_2017]
  /\ exists u, image release_1997 = Some u /\ u <> [].
Proof.
  assert (H : release_1997
              ∈ dedup_by_image [release_1997; remaster_1997; release_2017]).
  { vm_compute. apply list_elem_of_here. }
  split; [exact H|].
  apply (dedup_by_image_spec [release_1997; remaster_1997; release_2017]).
  exact H.
Defined.

(** C5 on one candidate whose title is not similar enough. *)
Lemma decide_round_spec_witness :
  dedup_by_image (soft_year_filter [remaster_1997] (Some 1997%Z) 1)
  = [remaster_1997]
  /\ Str.truthy (_maybe_autopick 1 (Some radiohead) (Some ok_computer)
                   (Some 1997%Z) [remaster_1997]) = false
  /\ exists url,
       image remaster_1997 = Some url /\ url <> []
       /\ decide_round false 1 (Some radiohead) (Some ok_computer)
            (Some 1997%Z) [remaster_1997] = Done (Resolved url).
Proof.
  split; [reflexivity|]. split; [by vm_compute|].
  apply (decide_round_spec 1 (Some radiohead) (Some ok_computer) (Some 1997%Z));
    [reflexivity | by vm_compute].
Defined.

(** C6 with the failing future completing last. *)
Lemma collect_isolates_failures_witness :
  jobs sample_providers ≡ₚ [deezer sample_providers; itunes sample_providers]
  /\ exists candidates log,
       collect [deezer sample_providers; itunes sample_providers] [] []
       = Ok (candidates, log)
       /\ candidates = [release_1997; release_2017].
Proof.
  assert (Hperm : jobs sample_providers
                  ≡ₚ [deezer sample_providers; itunes sample_providers]).
  { apply perm_swap. }
  split; [exact Hperm|].
  destruct (collect_isolates_failures sample_providers
              [deezer sample_providers; itunes sample_providers]
              false 1 (Some radiohead) (Some ok_computer) (Some 1997%Z) Hperm)
    as (candidates & log & Hcollect & _ & _ & _ & _ & Htwo).
  exists candidates, log. split; [exact Hcollect|].
  apply (Htwo [0x65; 0x72; 0x72]%N release_1997 release_2017). apply perm_swap.
Defined.

(** C8 on an ISO date. *)
Lemma parse_year_from_date_spec_witness :
  parse_year_from_date (Some iso_date) = Some 1997%Z
  /\ (0 <= 1997 <= 9999)%Z.
Proof.
  split; [reflexivity|].
  apply (parse_year_from_date_spec (Some iso_date)). reflexivity.
Defined.

(** * Further properties of the pipeline *)

(** ** The two post-filters, composed and repeated *)

Lemma soft_year_filter_filter candidates Y tol :
  soft_year_filter candidates (Some Y) tol
  = List.filter (year_within Y (Z.max 0 tol)) candidates.
Proof. unfold soft_year_filter. by rewrite foldl_append_if. Qed.

Lemma list_filter_sublist {A} (p : A -> bool) (l : list A) :
  List.filter p l `sublist_of` l.
Proof.
  induction l as [|x l IH]; simpl; [done|].
  destruct (p x); [by apply sublist_skip | by apply sublist_cons].
Qed.

Lemma list_filter_idem {A} (p : A -> bool) (l : list A) :
  List.filter p (List.filter p l) = List.filter p l.
Proof.
  induction l as [|x l IH]; simpl; [done|].
  destruct (p x) eqn:Hp; simpl; [|done]. by rewrite Hp, IH.
Qed.

Lemma list_filter_weaken {A} (p q : A -> bool) (l : list A) :
  (forall x, p x = true -> q x = true) ->
  List.filter p l `sublist_of` List.filter q l.
Proof.
  intros Hpq. induction l as [|x l IH]; simpl; [done|].
  destruct (p x) eqn:Hp.
  - rewrite (Hpq x Hp). by apply sublist_skip.
  - destruct (q x); [by apply sublist_cons | done].
Qed.

Lemma list_filter_Permutation {A} (p : A -> bool) (l k : list A) :
  l ≡ₚ k -> List.filter p l ≡ₚ List.filter p k.
Proof.
  induction 1 as [|x l k _ IH|x y l|l k m _ IH1 _ IH2]; simpl.
  - done.
  - destruct (p x); [by rewrite IH | done].
  - destruct (p x), (p y); try done. apply perm_swap.
  - by rewrite IH1.
Qed.

(** X1. Filtering by year a second time changes nothing, what is kept is a
    part of the input in its order, a larger tolerance keeps at least as
    much, and the candidates kept do not depend on the order in which they
    were collected. *)
Theorem soft_year_filter_stable (candidates : list Candidate)
    (target_year : option Z) (tol : Z) :
  soft_year_filter (soft_year_filter candidates target_year tol) target_year tol
  = soft_year_filter candidates target_year tol
  /\ soft_year_filter candidates target_year tol `sublist_of` candidates
  /\ (forall tol', (tol <= tol')%Z ->
        soft_year_filter candidates target_year tol
        `sublist_of` soft_year_filter candidates target_year tol')
  /\ (forall others,
        soft_year_filter (candidates ++ others) target_year tol
        = soft_year_filter candidates target_year tol
          ++ soft_year_filter others target_year tol)
  /\ (forall reordered, candidates ≡ₚ reordered ->
        soft_year_filter candidates target_year tol
        ≡ₚ soft_year_filter reordered target_year tol).
Proof.
  destruct target_year as [Y|]; [|by repeat split].
  rewrite !soft_year_filter_filter. split_and!.
  - apply list_filter_idem.
  - apply list_filter_sublist.
  - intros tol' Hle. rewrite soft_year_filter_filter.
    apply list_filter_weaken. intros c. unfold year_within.
    destruct (year c); [|done]. rewrite !Z.leb_le. lia.
  - intros others. rewrite !soft_year_filter_filter. apply List.filter_app.
  - intros reordered Hperm. rewrite soft_year_filter_filter.
    by apply list_filter_Permutation.
Qed.

Lemma truthy_Some_ne (u : list N) : u <> [] -> Str.truthy (Some u) = true.
Proof. by destruct u. Qed.

(** A list of candidates with non-empty, pairwise different URLs is left as
    it is. *)
Lemma dedup_by_image_fixed (l : list Candidate) :
  NoDup (image <$> l) ->
  Forall (fun c => Str.truthy (image c) = true) l ->
  dedup_by_image l = l.
Proof.
  induction l as [|c l IH] using rev_ind; [done|].
  rewrite fmap_app, NoDup_app, Forall_app, Forall_singleton.
  intros (Hl & Hc & _) [Hall Ht].
  rewrite dedup_by_image_snoc, IH, Ht by done.
  rewrite bool_decide_eq_false_2; [done|].
  intros Hin. apply (Hc _ Hin). simpl. apply list_elem_of_here.
Qed.

(** The URLs that stay are the non-empty URLs of the input. *)
Lemma dedup_by_image_images (l : list Candidate) (o : option (list N)) :
  o ∈ image <$> dedup_by_image l <-> Str.truthy o = true /\ o ∈ image <$> l.
Proof.
  induction l as [|c l IH] using rev_ind.
  - simpl. rewrite elem_of_nil. tauto.
  - rewrite dedup_by_image_snoc, !fmap_app, !elem_of_app, IH. simpl.
    rewrite list_elem_of_singleton.
    destruct (Str.truthy (image c)) eqn:Ht; simpl.
    + case_bool_decide as Hin; simpl.
      * rewrite elem_of_nil. split; [tauto|]. intros [Ho [?| ->]]; [tauto|].
        left. by split.
      * rewrite list_elem_of_singleton. split; [|tauto].
        intros [?| ->]; [tauto|]. split; [done | by right].
    + rewrite elem_of_nil. split; [tauto|].
      intros [Ho [?| ->]]; [tauto | congruence].
Qed.

(** X2. Removing duplicates a second time changes nothing; the URLs kept
    are exactly the non-empty URLs of the input, so collecting the same
    candidates in another order may keep another entry for a URL but offers
    the same URLs. *)
Theorem dedup_by_image_stable (candidates : list Candidate) :
  dedup_by_image (dedup_by_image candidates) = dedup_by_image candidates
  /\ (forall o, o ∈ image <$> dedup_by_image candidates <->
        Str.truthy o = true /\ o ∈ image <$> candidates)
  /\ (forall reordered, candidates ≡ₚ reordered ->
        image <$> dedup_by_image candidates
        ≡ₚ image <$> dedup_by_image reordered).
Proof.
  split_and!.
  - apply dedup_by_image_fixed; [apply dedup_by_image_NoDup|].
    apply Forall_forall. intros c Hc.
    destruct (dedup_by_image_urls _ _ Hc) as (u & -> & Hu).
    by apply truthy_Some_ne.
  - apply dedup_by_image_images.
  - intros reordered Hperm. apply NoDup_Permutation;
      [apply dedup_by_image_NoDup..|].
    intros o. rewrite !dedup_by_image_images. by rewrite Hperm.
Qed.

(** ** The round: what reaches the automatic pick and what leaves it *)

Lemma foldl_ext_elem {A B} (f g : A -> B -> A) (l : list B) (a : A) :
  (forall a x, x ∈ l -> f a x = g a x) -> foldl f a l = foldl g a l.
Proof.
  revert a. induction l as [|x l IH]; intros a H; simpl; [done|].
  rewrite H by apply list_elem_of_here. apply IH.
  intros a' y Hy. apply H. by apply list_elem_of_further.
Qed.

Lemma filtered_candidate collected yr_int tol c :
  c ∈ dedup_by_image (soft_year_filter collected yr_int tol) ->
  c ∈ collected
  /\ forall Y cy, yr_int = Some Y -> year c = Some cy ->
       (Z.abs (cy - Y) <= Z.max 0 tol)%Z.
Proof.
  intros Hc.
  assert (Hc' : c ∈ soft_year_filter collected yr_int tol).
  { eapply elem_of_sublist; [exact Hc | apply dedup_by_image_sublist]. }
  clear Hc. destruct yr_int as [Y|]; [|done].
  rewrite soft_year_filter_filter in Hc'.
  apply list_elem_of_In, filter_In in Hc' as [Hin Hy].
  split; [by apply list_elem_of_In|].
  intros ? cy [= <-] Hcy. unfold year_within in Hy. rewrite Hcy in Hy.
  by apply Z.leb_le.
Qed.

(** X3. With a tolerance that is not negative, no candidate that passed
    [soft_year_filter] is rejected by the year test of [_maybe_autopick]: in
    the round the automatic pick is decided by the titles alone, as if the
    query had no year. *)
Theorem autopick_gate_redundant (tol : Z) (artist album : option (list N))
    (Y : Z) (collected : list Candidate) :
  (0 <= tol)%Z ->
  (forall c, c ∈ dedup_by_image (soft_year_filter collected (Some Y) tol) ->
     year_gate (year_as_int (Some Y)) tol c = false)
  /\ _maybe_autopick tol artist album (Some Y)
       (dedup_by_image (soft_year_filter collected (Some Y) tol))
     = _maybe_autopick tol artist album None
         (dedup_by_image (soft_year_filter collected (Some Y) tol)).
Proof.
  intros Htol.
  assert (Hgate : forall c,
    c ∈ dedup_by_image (soft_year_filter collected (Some Y) tol) ->
    year_gate (year_as_int (Some Y)) tol c = false).
  { intros c Hc. apply filtered_candidate in Hc as [_ Hy].
    apply year_gate_false. intros Y' cy HY' Hcy.
    assert (Y' = Y) as ->.
    { simpl in HY'. destruct (_ && _); by inversion HY'. }
    specialize (Hy Y cy eq_refl Hcy). lia. }
  split; [exact Hgate|].
  set (candidates := dedup_by_image (soft_year_filter collected (Some Y) tol)) in *.
  unfold _maybe_autopick. destruct candidates as [|c0 l] eqn:Hl; [done|].
  rewrite <- Hl in *. unfold autopick_scan.
  rewrite (foldl_ext_elem
             (autopick_step (Str.or_empty album) (year_as_int (Some Y)) tol)
             (autopick_step (Str.or_empty album) (year_as_int None) tol)); [done|].
  intros st c Hc. unfold autopick_step. by rewrite (Hgate c Hc).
Qed.

(** X3 at the two "OK Computer" releases. *)
Lemma autopick_gate_redundant_witness :
  (0 <= 1)%Z
  /\ _maybe_autopick 1 (Some radiohead) (Some ok_computer) (Some 1997%Z)
       (dedup_by_image
          (soft_year_filter [release_2017; release_1997] (Some 1997%Z) 1))
     = _maybe_autopick 1 (Some radiohead) (Some ok_computer) None
         (dedup_by_image
            (soft_year_filter [release_2017; release_1997] (Some 1997%Z) 1)).
Proof.
  split; [lia|].
  apply (autopick_gate_redundant 1 (Some radiohead) (Some ok_computer) 1997
           [release_2017; release_1997]). lia.
Defined.

Lemma autopick_picks_member tol artist album query_year candidates url :
  _maybe_autopick tol artist album query_year candidates = Some url ->
  exists c, c ∈ candidates /\ image c = Some url.
Proof.
  unfold _maybe_autopick. destruct candidates as [|c0 l] eqn:Hl; [done|].
  rewrite <- Hl.
  pose proof (autopick_scan_spec (Str.or_empty album) (year_as_int query_year)
                tol candidates) as (_ & _ & Hbest).
  destruct (autopick_scan _ _ _ candidates) as [[best|] score]; [|done].
  simpl in Hbest. destruct Hbest as (before & after & Heq & _).
  destruct (Qle_bool confident score); [|done].
  intros Hurl. exists best. split; [|done].
  rewrite Heq. apply elem_of_app. right. apply list_elem_of_here.
Qed.

(** X4. When a round ends as [Resolved] without the dialog, "always ask" is
    off and the URL is the non-empty image URL of one of the collected
    candidates, one whose year is unknown or within the (clamped) tolerance
    of the query year: the round never makes up a URL and never resolves to
    a candidate the year filter removed. *)
Theorem decide_round_resolved (ask_always : bool) (tol : Z)
    (artist album : option (list N)) (yr_int : option Z)
    (collected : list Candidate) (url : list N) :
  decide_round ask_always tol artist album yr_int collected
  = Done (Resolved url) ->
  ask_always = false
  /\ url <> []
  /\ exists c,
       c ∈ collected /\ image c = Some url
       /\ forall Y cy, yr_int = Some Y -> year c = Some cy ->
            (Z.abs (cy - Y) <= Z.max 0 tol)%Z.
Proof.
  unfold decide_round.
  set (candidates := dedup_by_image (soft_year_filter collected yr_int tol)).
  assert (Hmem : forall c u, c ∈ candidates -> image c = Some u ->
    u <> []
    /\ exists c, c ∈ collected /\ image c = Some u
       /\ forall Y cy, yr_int = Some Y -> year c = Some cy ->
            (Z.abs (cy - Y) <= Z.max 0 tol)%Z).
  { intros c u Hc Hu. split.
    - destruct (dedup_by_image_urls _ _ Hc) as (u' & Hu' & Hne). congruence.
    - exists c. apply filtered_candidate in Hc as [? ?]. done. }
  destruct candidates as [|first rest] eqn:Hl; [done|]. rewrite <- Hl in *.
  destruct ask_always; simpl.
  { by rewrite orb_true_r. }
  destruct (_maybe_autopick tol artist album yr_int candidates) as [u|] eqn:Hpick.
  - destruct (Str.truthy (Some u)) eqn:Ht.
    + intros [= <-]. split; [done|]. simpl.
      destruct (autopick_picks_member _ _ _ _ _ _ Hpick) as (c & Hc & Hu).
      by apply (Hmem c).
    + rewrite orb_false_r. destruct (1 <? length candidates); [done|].
      destruct (image first) as [u'|] eqn:Hfirst; [|done].
      intros [= <-]. split; [done|]. apply (Hmem first); [|done].
      rewrite Hl. apply list_elem_of_here.
  - simpl. rewrite orb_false_r. destruct (1 <? length candidates); [done|].
    destruct (image first) as [u'|] eqn:Hfirst; [|done].
    intros [= <-]. split; [done|]. apply (Hmem first); [|done].
    rewrite Hl. apply list_elem_of_here.
Qed.

(** X4 at the two "OK Computer" releases. *)
Lemma decide_round_resolved_witness :
  decide_round false 1 (Some radiohead) (Some ok_computer) (Some 1997%Z)
    [release_1997; release_2017] = Done (Resolved url_A)
  /\ url_A <> []
  /\ exists c,
       c ∈ [release_1997; release_2017] /\ image c = Some url_A
       /\ forall Y cy, Some 1997%Z = Some Y -> year c = Some cy ->
            (Z.abs (cy - Y) <= Z.max 0 1)%Z.
Proof.
  assert (H : decide_round false 1 (Some radiohead) (Some ok_computer)
                (Some 1997%Z) [release_1997; release_2017]
              = Done (Resolved url_A)) by (by vm_compute).
  split; [exact H|].
  apply (decide_round_resolved false 1 (Some radiohead) (Some ok_computer)
           (Some 1997%Z) [release_1997; release_2017] url_A H).
Defined.

(** X5. A round over at least one filtered candidate never ends in an error
    or a skip by itself: it ends as [Resolved], or it hands exactly the
    filtered, deduplicated candidates to the dialog.  With "always ask" on it
    always goes to the dialog, and so it does with it off when the automatic
    pick gives nothing and more than one candidate is left. *)
Theorem decide_round_dialog (tol : Z) (artist album : option (list N))
    (yr_int : option Z) (collected : list Candidate) :
  dedup_by_image (soft_year_filter collected yr_int tol) <> [] ->
  decide_round true tol artist album yr_int collected
  = AwaitSelection (dedup_by_image (soft_year_filter collected yr_int tol))
      after_choice
  /\ (Str.truthy
        (_maybe_autopick tol artist album yr_int
           (dedup_by_image (soft_year_filter collected yr_int tol))) = false ->
      1 < length (dedup_by_image (soft_year_filter collected yr_int tol)) ->
      decide_round false tol artist album yr_int collected
      = AwaitSelection (dedup_by_image (soft_year_filter collected yr_int tol))
          after_choice)
  /\ (forall ask_always,
        (exists url,
           decide_round ask_always tol artist album yr_int collected
           = Done (Resolved url))
        \/ decide_round ask_always tol artist album yr_int collected
           = AwaitSelection
               (dedup_by_image (soft_year_filter collected yr_int tol))
               after_choice).
Proof.
  intros Hne. unfold decide_round.
  pose proof (dedup_by_image_urls (soft_year_filter collected yr_int tol)) as Hurls.
  set (candidates := dedup_by_image (soft_year_filter collected yr_int tol)) in *.
  destruct candidates as [|first rest] eqn:Hl; [done|]. rewrite <- Hl in *.
  split_and!.
  - simpl. by rewrite orb_true_r.
  - intros Hpick Hlen. simpl. rewrite Hpick.
    by rewrite (proj2 (Nat.ltb_lt 1 (length candidates)) Hlen).
  - intros ask_always. destruct (Str.truthy _); [left; by eexists|].
    destruct (_ || _); [by right|].
    destruct (Hurls first) as (u & -> & _); [rewrite Hl; apply list_elem_of_here|].
    left. by eexists.
Qed.

(** X5 at two releases with different titles of which none is a confident
    match for the album asked for. *)
Lemma decide_round_dialog_witness :
  dedup_by_image (soft_year_filter [remaster_1997; release_2017] None 1) <> []
  /\ decide_round true 1 (Some radiohead) (Some ok_computer) None
       [remaster_1997; release_2017]
     = AwaitSelection
         (dedup_by_image (soft_year_filter [remaster_1997; release_2017] None 1))
         after_choice.
Proof.
  assert (H : dedup_by_image
                (soft_year_filter [remaster_1997; release_2017] None 1) <> [])
    by (by vm_compute).
  split; [exact H|].
  exact (proj1 (decide_round_dialog 1 (Some radiohead) (Some ok_computer) None
                  [remaster_1997; release_2017] H)).
Defined.

(** ** [SequenceMatcher]: the blocks are common stretches *)

Section Matches.

Variables a b : list N.
Variable b2j : gmap N (list nat).
Hypothesis b2j_ok : b2j_sound b b2j.

Lemma block_matches_grow_right i j k x :
  block_matches a b (i, j, k) ->
  a !! (i + k) = Some x -> b !! (j + k) = Some x ->
  block_matches a b (i, j, k + 1).
Proof.
  intros H Ha Hb t Ht. simpl in *.
  destruct (decide (t = k)) as [->|]; [by exists x|]. apply H. simpl. lia.
Qed.

Lemma block_matches_grow_left i j k x :
  block_matches a b (S i, S j, k) ->
  a !! i = Some x -> b !! j = Some x ->
  block_matches a b (i, j, k + 1).
Proof.
  intros H Ha Hb t Ht. simpl in *.
  destruct t as [|t]; [rewrite !Nat.add_0_r; by exists x|].
  destruct (H t) as (y & ? & ?); [simpl; lia|]. simpl in *.
  exists y. by rewrite <- !Nat.add_succ_comm.
Qed.

Lemma scan_row_matches i blo bhi x j2len js newj2len best :
  a !! i = Some x ->
  (forall j, j ∈ js -> b !! j = Some x) ->
  row_matches a b i j2len ->
  row_matches a b (S i) newj2len ->
  block_matches a b best ->
  row_matches a b (S i)
    (SequenceMatcher.scan_row i blo bhi j2len js newj2len best).1
  /\ block_matches a b
       (SequenceMatcher.scan_row i blo bhi j2len js newj2len best).2.
Proof.
  intros Hx Hjs Hold. revert newj2len best.
  induction js as [|j js IH]; intros newj2len best Hnew Hbest; simpl; [done|].
  assert (Hjs' : forall j', j' ∈ js -> b !! j' = Some x).
  { intros j' Hj'. apply Hjs. by right. }
  destruct (j <? blo); [by apply IH|].
  destruct (bhi <=? j); [done|].
  set (k := default 0 (j2len !! (Z.of_nat j - 1)%Z) + 1).
  assert (Hk : k <= S i /\ k <= j + 1
               /\ block_matches a b (S i - k, j + 1 - k, k)).
  { unfold k. destruct (j2len !! (Z.of_nat j - 1)%Z) as [v|] eqn:Ev; simpl.
    - destruct (Hold _ _ Ev) as (j' & Hj' & Hv1 & Hv2 & Hm).
      assert (j = S j') as -> by lia. split_and!; [lia..|].
      replace (S i - (v + 1)) with (i - v) by lia.
      replace (S j' + 1 - (v + 1)) with (j' + 1 - v) by lia.
      apply (block_matches_grow_right _ _ _ x); [done| |].
      + by replace (i - v + v) with i by lia.
      + replace (j' + 1 - v + v) with (S j') by lia.
        apply Hjs. by left.
    - split_and!; [lia..|]. intros t Ht. simpl in *.
      assert (t = 0) as -> by lia. exists x.
      replace (i - 0 + 0) with i by lia. replace (j + 1 - 1 + 0) with j by lia.
      split; [done|]. apply Hjs. by left. }
  destruct Hk as (Hk1 & Hk2 & Hkm).
  apply IH; [done| |].
  - intros z v Hz. apply lookup_insert_Some in Hz as [[<- <-]|[_ Hz]].
    + by exists j.
    + by apply Hnew.
  - destruct (best.2 <? k); [|done].
    by replace (i + 1 - k) with (S i - k) by lia.
Qed.

Lemma row_step_matches blo bhi i st :
  row_matches a b i st.1 /\ block_matches a b st.2 ->
  row_matches a b (S i) (SequenceMatcher.row_step a b2j blo bhi st i).1
  /\ block_matches a b (SequenceMatcher.row_step a b2j blo bhi st i).2.
Proof.
  intros [Hrow Hbest]. unfold SequenceMatcher.row_step.
  assert (Hempty : row_matches a b (S i) ∅).
  { intros z v Hz. by rewrite lookup_empty in Hz. }
  destruct (a !! i) as [x|] eqn:Hx; simpl; [|done].
  destruct (b2j !! x) as [js|] eqn:Hjs; simpl; [|done].
  apply (scan_row_matches _ _ _ x); try done.
  intros j Hj. by apply (b2j_ok x js).
Qed.

Lemma rows_matches blo bhi alo n st :
  row_matches a b alo st.1 /\ block_matches a b st.2 ->
  row_matches a b (alo + n)
    (foldl (SequenceMatcher.row_step a b2j blo bhi) st (seq alo n)).1
  /\ block_matches a b
       (foldl (SequenceMatcher.row_step a b2j blo bhi) st (seq alo n)).2.
Proof.
  intros Hst. induction n as [|n IH].
  - simpl. by rewrite Nat.add_0_r.
  - rewrite seq_S, foldl_app. simpl. rewrite Nat.add_succ_r.
    by apply row_step_matches.
Qed.

Lemma same_elt_Some i j :
  SequenceMatcher.same_elt a b i j = true ->
  exists x, a !! i = Some x /\ b !! j = Some x.
Proof.
  unfold SequenceMatcher.same_elt.
  destruct (a !! i) as [x|], (b !! j) as [y|]; try done.
  intros H. apply N.eqb_eq in H as ->. by exists y.
Qed.

Lemma extend_left_matches want alo blo besti bestj bestsize :
  block_matches a b (besti, bestj, bestsize) ->
  block_matches a b
    (SequenceMatcher.extend_left a b want alo blo besti bestj bestsize).
Proof.
  revert bestj bestsize.
  induction besti as [|besti IH]; intros bestj bestsize H; simpl; [done|].
  destruct (alo <? S besti); simpl; [|done].
  destruct (Nat.ltb_spec blo bestj); simpl; [|done].
  destruct (SequenceMatcher.junk_is b want (bestj - 1)); simpl; [|done].
  rewrite Nat.sub_0_r.
  destruct (SequenceMatcher.same_elt a b besti (bestj - 1)) eqn:Hs; [|done].
  apply same_elt_Some in Hs as (x & Ha & Hb).
  apply IH. apply (block_matches_grow_left _ _ _ x); [|done..].
  by replace (S (bestj - 1)) with bestj by lia.
Qed.

Lemma extend_right_matches want room ahi bhi besti bestj bestsize :
  block_matches a b (besti, bestj, bestsize) ->
  block_matches a b
    (SequenceMatcher.extend_right a b want room ahi bhi besti bestj bestsize).
Proof.
  revert bestsize.
  induction room as [|room IH]; intros bestsize H; simpl; [done|].
  destruct (_ <? ahi); simpl; [|done].
  destruct (_ <? bhi); simpl; [|done].
  destruct (SequenceMatcher.junk_is b want (bestj + bestsize)); simpl; [|done].
  destruct (SequenceMatcher.same_elt a b _ _) eqn:Hs; [|done].
  apply same_elt_Some in Hs as (x & Ha & Hb).
  apply IH. by apply (block_matches_grow_right _ _ _ x).
Qed.

Lemma extend_matches want alo ahi blo bhi m :
  block_matches a b m ->
  block_matches a b (SequenceMatcher.extend a b want alo ahi blo bhi m).
Proof.
  intros H. unfold SequenceMatcher.extend.
  destruct m as [[besti bestj] bestsize]. simpl.
  pose proof (extend_left_matches want alo blo besti bestj bestsize H) as H'.
  destruct (SequenceMatcher.extend_left a b want alo blo besti bestj bestsize)
    as [[besti' bestj'] bestsize'].
  by apply extend_right_matches.
Qed.

(** The first half of the contract of [find_longest_match]:
    [a[i:i+k] == b[j:j+k]]. *)
Lemma find_longest_match_matches alo ahi blo bhi :
  block_matches a b (SequenceMatcher.find_longest_match a b b2j alo ahi blo bhi).
Proof.
  unfold SequenceMatcher.find_longest_match.
  apply extend_matches, extend_matches.
  unfold SequenceMatcher.longest_junk_free.
  apply rows_matches. simpl. split.
  - intros z v Hz. by rewrite lookup_empty in Hz.
  - intros t Ht. simpl in Ht. lia.
Qed.

Lemma blocks_loop_matches fuel queue matching_blocks :
  Forall (block_matches a b) matching_blocks ->
  Forall (block_matches a b)
    (SequenceMatcher.blocks_loop a b b2j fuel queue matching_blocks).2.
Proof.
  revert queue matching_blocks.
  induction fuel as [|fuel IH]; intros queue matching_blocks H; simpl; [done|].
  destruct queue as [|[[[alo ahi] blo] bhi] queue]; simpl; [done|].
  pose proof (find_longest_match_matches alo ahi blo bhi) as Hm.
  destruct (SequenceMatcher.find_longest_match a b b2j alo ahi blo bhi)
    as [[i j] k].
  destruct (k =? 0); [by apply IH|].
  apply IH. apply Forall_app. split; [done|]. by apply Forall_singleton.
Qed.

Lemma collapse_matches l :
  Forall (block_matches a b) l ->
  Forall (block_matches a b) (SequenceMatcher.collapse l).
Proof.
  intros Hl. unfold SequenceMatcher.collapse.
  assert (H : forall st,
    block_matches a b st.1 /\ Forall (block_matches a b) st.2 ->
    block_matches a b (foldl SequenceMatcher.collapse_step st l).1
    /\ Forall (block_matches a b) (foldl SequenceMatcher.collapse_step st l).2).
  { induction Hl as [|[[i2 j2] k2] l H2 _ IH]; intros [[[i1 j1] k1] na] [H1 Hna];
      simpl foldl; [done|].
    apply IH. unfold SequenceMatcher.collapse_step.
    destruct (Nat.eqb_spec (i1 + k1) i2) as [<-|]; simpl.
    - destruct (Nat.eqb_spec (j1 + k1) j2) as [<-|]; simpl.
      + split; [|done]. intros t Ht. simpl in *.
        destruct (Nat.lt_ge_cases t k1) as [Hlt|Hge]; [by apply H1|].
        destruct (H2 (t - k1)) as (x & ? & ?); [simpl; lia|]. simpl in *.
        exists x. by replace (i1 + t) with (i1 + k1 + (t - k1)) by lia;
          replace (j1 + t) with (j1 + k1 + (t - k1)) by lia.
      + split; [done|]. destruct (k1 =? 0); [done|].
        apply Forall_app. split; [done|]. by apply Forall_singleton.
    - split; [done|]. destruct (k1 =? 0); [done|].
      apply Forall_app. split; [done|]. by apply Forall_singleton. }
  destruct (H ((0, 0, 0), [])) as [H1 Hna].
  { split; [|done]. intros t Ht. simpl in Ht. lia. }
  destruct (foldl SequenceMatcher.collapse_step (0, 0, 0, []) l)
    as [[[i1 j1] k1] na]. simpl in *.
  destruct (k1 =? 0); [done|].
  apply Forall_app. split; [done|]. by apply Forall_singleton.
Qed.

(** Every triple of [get_matching_blocks] satisfies [a[i:i+n] == b[j:j+n]]. *)
Lemma get_matching_blocks_match :
  Forall (block_matches a b) (SequenceMatcher.get_matching_blocks a b b2j).
Proof.
  unfold SequenceMatcher.get_matching_blocks. apply Forall_app. split.
  - apply collapse_matches.
    rewrite (merge_sort_Permutation _ _). by apply blocks_loop_matches.
  - apply Forall_singleton. intros t Ht. simpl in Ht. lia.
Qed.

End Matches.

Lemma chain_b_sound b : b2j_sound b (SequenceMatcher.chain_b b).
Proof.
  intros x js j Hjs Hj. destruct (chain_b_spec b x js Hjs) as [Hmem _].
  by apply Hmem.
Qed.

Lemma total_size_pos_block (l : list (nat * nat * nat)) :
  0 < total_size l -> exists m, m ∈ l /\ 0 < m.2.
Proof.
  unfold total_size. induction l as [|m l IH]; simpl; [lia|].
  intros H. destruct (decide (0 < m.2)) as [Hm|Hm].
  - exists m. split; [apply list_elem_of_here | done].
  - destruct IH as (m' & ? & ?); [refold_fmap; lia|].
    exists m'. split; [by apply list_elem_of_further | done].
Qed.

(** A match count above 0 needs an element the two strings share. *)
Lemma matches_pos_common a b :
  0 < SequenceMatcher.matches a b (SequenceMatcher.chain_b b) ->
  exists x, x ∈ a /\ x ∈ b.
Proof.
  intros H.
  change (0 < total_size (SequenceMatcher.get_matching_blocks a b
                            (SequenceMatcher.chain_b b))) in H.
  apply total_size_pos_block in H as (m & Hm & Hk).
  pose proof (get_matching_blocks_match a b _ (chain_b_sound b)) as Hall.
  rewrite Forall_forall in Hall. destruct (Hall m Hm 0 Hk) as (x & Ha & Hb).
  exists x. split; by eapply list_elem_of_lookup_2.
Qed.

(** ** [SequenceMatcher]: a ratio of 1 needs equal strings *)

Lemma range_weight_eq alo ahi blo bhi :
  range_weight (alo, ahi, blo, bhi) = 2 * (ahi - alo) + 1.
Proof. reflexivity. Qed.

Lemma range_room_a_eq alo ahi blo bhi :
  range_room_a (alo, ahi, blo, bhi) = ahi - alo.
Proof. reflexivity. Qed.

Lemma range_room_b_eq alo ahi blo bhi :
  range_room_b (alo, ahi, blo, bhi) = bhi - blo.
Proof. reflexivity. Qed.

Section Full.

Variables a b : list N.
Variable b2j : gmap N (list nat).
Hypothesis b2j_ok : b2j_sound b b2j.

(** When the blocks found fill all the room of the windows on both sides,
    each window holds the same elements in [a] and in [b]. *)
Lemma blocks_loop_full fuel queue matching_blocks found :
  Forall range_valid queue ->
  sum_list (range_weight <$> queue) <= fuel ->
  SequenceMatcher.blocks_loop a b b2j fuel queue matching_blocks
  = ([], matching_blocks ++ found) ->
  total_size found = sum_list (range_room_a <$> queue) ->
  total_size found = sum_list (range_room_b <$> queue) ->
  Forall (slices_equal a b) queue.
Proof.
  revert queue matching_blocks found.
  induction fuel as [|fuel IH]; intros queue matching_blocks found Hvalid Hfuel.
  - destruct queue as [|r queue]; [done|].
    simpl in Hfuel. unfold range_weight in Hfuel at 1. lia.
  - destruct queue as [|[[[alo ahi] blo] bhi] queue]; [done|].
    apply Forall_cons in Hvalid as [[Ha Hb] Hvalid]. simpl in Ha, Hb.
    simpl SequenceMatcher.blocks_loop.
    pose proof (find_longest_match_bounds a b b2j alo blo bhi ahi Ha Hb) as Hm.
    pose proof (find_longest_match_matches a b b2j b2j_ok alo ahi blo bhi) as Hx.
    destruct (SequenceMatcher.find_longest_match a b b2j alo ahi blo bhi)
      as [[i j] k].
    destruct Hm as (H1 & H2 & H3 & H4). simpl in H1, H2, H3, H4.
    rewrite !fmap_cons. simpl sum_list.
    unfold range_room_a at 1, range_room_b at 1. simpl.
    rewrite !fmap_cons in Hfuel. simpl in Hfuel.
    unfold range_weight in Hfuel at 1. simpl in Hfuel. refold_fmap.
    destruct (Nat.eqb_spec k 0) as [->|Hk].
    + intros Hloop HA HB.
      destruct (blocks_loop_spec a b b2j fuel queue matching_blocks Hvalid)
        as (found' & Hloop' & HA' & HB'); [lia|].
      rewrite Hloop' in Hloop. injection Hloop as Hloop.
      apply app_inv_head in Hloop as <-.
      apply Forall_cons. split.
      * split; simpl; [lia|]. intros t Ht. lia.
      * apply (IH queue matching_blocks found'); [done | lia | done | lia..].
    + set (pl := (alo <? i) && (blo <? j)).
      set (pr := (i + k <? ahi) && (j + k <? bhi)).
      set (q1 := if pl then (alo, i, blo, j) :: queue else queue).
      set (q2 := if pr then (i + k, ahi, j + k, bhi) :: q1 else q1).
      intros Hloop HA HB.
      assert (Hq2 : Forall range_valid q2
        /\ sum_list (range_weight <$> q2) <= fuel
        /\ sum_list (range_room_a <$> q2)
           = (if pr then ahi - (i + k) else 0) + (if pl then i - alo else 0)
             + sum_list (range_room_a <$> queue)
        /\ sum_list (range_room_b <$> q2)
           = (if pr then bhi - (j + k) else 0) + (if pl then j - blo else 0)
             + sum_list (range_room_b <$> queue)
        /\ (pl = true -> alo < i /\ blo < j)
        /\ (pr = true -> i + k < ahi /\ j + k < bhi)
        /\ (pl = false -> i = alo \/ j = blo)
        /\ (pr = false -> i + k = ahi \/ j + k = bhi)).
      { unfold q2, q1, pl, pr.
        destruct (Nat.ltb_spec alo i), (Nat.ltb_spec blo j),
          (Nat.ltb_spec (i + k) ahi), (Nat.ltb_spec (j + k) bhi); simpl;
          refold_fmap;
          (split_and!;
           [ repeat (apply Forall_cons; split; [unfold range_valid; simpl; lia|]);
             done
           | rewrite ?range_weight_eq; lia
           | rewrite ?range_room_a_eq; lia
           | rewrite ?range_room_b_eq; lia
           | intros; first [done | lia] | intros; first [done | lia]
           | intros; first [done | lia] | intros; first [done | lia] ]). }
      destruct Hq2 as (Hv2 & Hw2 & Ha2 & Hb2 & Hpl & Hpr & Hnl & Hnr).
      destruct (blocks_loop_spec a b b2j fuel q2 (matching_blocks ++ [(i, j, k)])
                  Hv2 Hw2) as (found' & Hloop' & HA' & HB').
      fold pl pr q1 q2 in Hloop. rewrite Hloop' in Hloop.
      injection Hloop as Hloop. rewrite <- app_assoc in Hloop.
      apply app_inv_head in Hloop. simpl in Hloop. subst found.
      change (total_size ((i, j, k) :: found')) with (k + total_size found')
        in HA, HB.
      assert (Hall : Forall (slices_equal a b) q2).
      { apply (IH q2 (matching_blocks ++ [(i, j, k)]) found'); try done.
        - destruct pl, pr; lia.
        - destruct pl, pr; lia. }
      assert (Hrest : Forall (slices_equal a b) queue).
      { unfold q2, q1 in Hall.
        destruct pr, pl; repeat (apply Forall_cons in Hall as [_ Hall]); done. }
      assert (Hleft : i - alo = j - blo
        /\ forall t, t < i - alo -> a !! (alo + t) = b !! (blo + t)).
      { destruct pl eqn:Epl.
        - assert (Hin : slices_equal a b (alo, i, blo, j)).
          { unfold q2, q1 in Hall.
            destruct pr; [apply Forall_cons in Hall as [_ Hall]|];
              by apply Forall_cons in Hall as [Hall _]. }
          exact Hin.
        - assert (i = alo /\ j = blo) as [-> ->] by (destruct pr; lia).
          split; [lia|]. intros t Ht. lia. }
      assert (Hright : ahi - (i + k) = bhi - (j + k)
        /\ forall t, t < ahi - (i + k) -> a !! (i + k + t) = b !! (j + k + t)).
      { destruct pr eqn:Epr.
        - assert (Hin : slices_equal a b (i + k, ahi, j + k, bhi)).
          { unfold q2 in Hall. by apply Forall_cons in Hall as [Hall _]. }
          exact Hin.
        - assert (i + k = ahi /\ j + k = bhi) as [? ?] by (destruct pl; lia).
          split; [lia|]. intros t Ht. lia. }
      apply Forall_cons. split; [|done].
      destruct Hleft as [Hl1 Hl2], Hright as [Hr1 Hr2].
      split; simpl; [lia|]. intros t Ht.
      destruct (Nat.lt_ge_cases t (i - alo)) as [Hlt|Hge]; [by apply Hl2|].
      destruct (Nat.lt_ge_cases t (i - alo + k)) as [Hlt'|Hge'].
      * destruct (Hx (t - (i - alo))) as (x & Hxa & Hxb); [simpl; lia|].
        simpl in Hxa, Hxb.
        replace (alo + t) with (i + (t - (i - alo))) by lia.
        replace (blo + t) with (j + (t - (i - alo))) by lia. congruence.
      * specialize (Hr2 (t - (i - alo + k))).
        replace (alo + t) with (i + k + (t - (i - alo + k))) by lia.
        replace (blo + t) with (j + k + (t - (i - alo + k))) by lia.
        apply Hr2. lia.
Qed.

(** As many matches as both strings are long: the strings are equal. *)
Lemma matches_full_eq :
  SequenceMatcher.matches a b b2j = length a ->
  SequenceMatcher.matches a b b2j = length b ->
  a = b.
Proof.
  rewrite matches_found. intros HA HB.
  unfold SequenceMatcher.found_blocks, SequenceMatcher.blocks_fuel in HA, HB.
  destruct (blocks_loop_spec a b b2j (2 * length a + 1)
              [(0, length a, 0, length b)] []) as (found & Hloop & _).
  { repeat constructor; simpl; lia. }
  { simpl. unfold range_weight. simpl. lia. }
  rewrite Hloop in HA, HB. simpl in HA, HB.
  pose proof (blocks_loop_full (2 * length a + 1)
                [(0, length a, 0, length b)] [] found) as Hfull.
  apply Forall_singleton in Hfull as [Hlen Heq].
  - simpl in Hlen, Heq. apply list_eq. intros t.
    destruct (Nat.lt_ge_cases t (length a)) as [Hlt|Hge]; [apply Heq; lia|].
    rewrite !lookup_ge_None_2; [done | lia..].
  - repeat constructor; simpl; lia.
  - simpl. unfold range_weight. simpl. lia.
  - done.
  - simpl. unfold range_room_a. simpl. lia.
  - simpl. unfold range_room_b. simpl. lia.
Qed.

End Full.

(** [ratio] is 1 exactly on equal strings. *)
Lemma ratio_one_iff a b : (SequenceMatcher.ratio a b == 1)%Q <-> a = b.
Proof.
  split; [|intros ->; apply ratio_self].
  unfold SequenceMatcher.ratio, SequenceMatcher._calculate_ratio. cbv zeta.
  destruct (matches_le a b (SequenceMatcher.chain_b b)) as [Ha Hb].
  destruct (Nat.eqb_spec (length a + length b) 0) as [Hz|Hn].
  - intros _. destruct a, b; simpl in Hz; try lia. done.
  - unfold Qeq. cbn [Qnum Qden]. rewrite Zpos_of_nat by done. intros H.
    apply (matches_full_eq a b _ (chain_b_sound b)); lia.
Qed.

(** ** [title_similarity]: the score 1 and the score 0 *)

(** X6. For two non-empty titles the similarity is 1 exactly when the
    titles are equal once lowercased and stripped of everything but
    [[a-z0-9]]: a full score means the same title up to case, spacing and
    punctuation, and nothing else gives it. *)
Theorem title_similarity_one_iff (a b : list N) :
  a <> [] -> b <> [] ->
  ((title_similarity (Some a) (Some b) == 1)%Q <->
   Str.keep Char.is_lower_alnum (Str.lower a)
   = Str.keep Char.is_lower_alnum (Str.lower b)).
Proof.
  intros Ha Hb. rewrite title_similarity_nonempty by done.
  apply ratio_one_iff.
Qed.

(** X6 at "OK Computer" and "ok-computer!". *)
Lemma title_similarity_one_iff_witness :
  (title_similarity (Some ok_computer) (Some ok_computer_shouted) == 1)%Q.
Proof.
  apply (title_similarity_one_iff ok_computer ok_computer_shouted);
    [discriminate | discriminate | reflexivity].
Defined.

(** X7. When at least one of two titles keeps something under the
    normalization, a similarity above 0 needs a character that both
    normalized titles hold; so titles whose normalized forms share no
    character have similarity 0. *)
Theorem title_similarity_zero_disjoint (a b : list N) :
  Str.keep Char.is_lower_alnum (Str.lower a) <> []
  \/ Str.keep Char.is_lower_alnum (Str.lower b) <> [] ->
  ((0 < title_similarity (Some a) (Some b))%Q ->
   exists x, x ∈ Str.keep Char.is_lower_alnum (Str.lower a)
             /\ x ∈ Str.keep Char.is_lower_alnum (Str.lower b))
  /\ ((forall x, x ∈ Str.keep Char.is_lower_alnum (Str.lower a) ->
                 x ∉ Str.keep Char.is_lower_alnum (Str.lower b)) ->
      (title_similarity (Some a) (Some b) == 0)%Q).
Proof.
  intros Hsome.
  assert (Hpos : (0 < title_similarity (Some a) (Some b))%Q ->
    exists x, x ∈ Str.keep Char.is_lower_alnum (Str.lower a)
              /\ x ∈ Str.keep Char.is_lower_alnum (Str.lower b)).
  { destruct a as [|ca a]; [by rewrite title_similarity_empty_l|].
    destruct b as [|cb b]; [by rewrite title_similarity_empty_r|].
    rewrite title_similarity_nonempty by done. unfold normalized.
    set (na := Str.keep Char.is_lower_alnum (Str.lower (ca :: a))) in *.
    set (nb := Str.keep Char.is_lower_alnum (Str.lower (cb :: b))) in *.
    unfold SequenceMatcher.ratio, SequenceMatcher._calculate_ratio. cbv zeta.
    destruct (Nat.eqb_spec (length na + length nb) 0) as [Hz|Hn].
    { exfalso. destruct na, nb; simpl in Hz; try lia. by destruct Hsome. }
    unfold Qlt. cbn [Qnum Qden]. intros H.
    apply matches_pos_common. lia. }
  split; [exact Hpos|]. intros Hdisj.
  destruct (title_similarity_range (Some a) (Some b)) as [H0 _].
  apply Qle_antisym; [|done]. apply Qnot_lt_le. intros Hlt.
  destruct (Hpos Hlt) as (x & Hxa & Hxb). by apply (Hdisj x).
Qed.

(** X7 at "tide" and "!!!". *)
Lemma title_similarity_zero_disjoint_witness :
  (title_similarity (Some tide) (Some bangs) == 0)%Q.
Proof.
  apply (title_similarity_zero_disjoint tide bangs).
  - left. discriminate.
  - intros x _ Hx. vm_compute in Hx. by apply elem_of_nil in Hx.
Defined.

(** * Sandwicher: placement, detection and file names *)

Lemma paste_centered_eq x0 y0 x1 y1 ow oh :
  Sandwicher.paste_centered (x0, y0, x1, y1) (ow, oh)
  = ((x0 + (x1 - x0 - ow) / 2)%Z, (y0 + (y1 - y0 - oh) / 2)%Z).
Proof. reflexivity. Qed.

(** X8.  The cover is centred in the blue box: the equal-size case of
    [_compose_one] places it exactly where [paste_centered] would; the
    margin on the right (below) exceeds the one on the left (above) by 0 or
    1 pixel; and a cover no larger than the box lies inside it. *)
Theorem cover_corner_centered (x0 y0 x1 y1 ow oh : Z) :
  Sandwicher.cover_corner (x0, y0, x1, y1) (ow, oh)
  = Sandwicher.paste_centered (x0, y0, x1, y1) (ow, oh)
  /\ (let '(ox, oy) := Sandwicher.paste_centered (x0, y0, x1, y1) (ow, oh) in
      (0 <= (x1 - (ox + ow)) - (ox - x0) <= 1
       /\ 0 <= (y1 - (oy + oh)) - (oy - y0) <= 1)
      /\ (ow <= x1 - x0 -> x0 <= ox /\ ox + ow <= x1)
      /\ (oh <= y1 - y0 -> y0 <= oy /\ oy + oh <= y1))%Z.
Proof.
  split.
  - unfold Sandwicher.cover_corner. case_bool_decide as E; [|reflexivity].
    rewrite paste_centered_eq. injection E as -> ->.
    rewrite !Z.sub_diag. change (0 `div` 2)%Z with 0%Z. by rewrite !Z.add_0_r.
  - rewrite paste_centered_eq.
    pose proof (Z.div_mod (x1 - x0 - ow) 2 ltac:(lia)).
    pose proof (Z.mod_pos_bound (x1 - x0 - ow) 2 ltac:(lia)).
    pose proof (Z.div_mod (y1 - y0 - oh) 2 ltac:(lia)).
    pose proof (Z.mod_pos_bound (y1 - y0 - oh) 2 ltac:(lia)).
    repeat split; lia.
Qed.

Lemma cover_corner_centered_witness :
  (10 <= 10 + (110 - 10 - 75) / 2 /\ 10 + (110 - 10 - 75) / 2 + 75 <= 110)%Z.
Proof.
  pose proof (cover_corner_centered 10 20 110 220 75 51) as [_ H].
  rewrite paste_centered_eq in H. destruct H as (_ & Hx & _).
  apply Hx. lia.
Defined.

(** *** The first free name *)

Lemma first_free_sound exists_ name_of fuel start p :
  Sandwicher.first_free exists_ name_of fuel start = Some p ->
  exists_ p = false.
Proof.
  revert start. induction fuel as [|fuel IH]; intros start; simpl; [done|].
  destruct (exists_ (name_of start)) eqn:E; [apply IH|].
  intros [= <-]. exact E.
Qed.

Lemma first_free_spec exists_ name_of fuel start k :
  start <= k -> k < start + fuel -> exists_ (name_of k) = false ->
  exists n,
    Sandwicher.first_free exists_ name_of fuel start = Some (name_of n)
    /\ start <= n <= k
    /\ exists_ (name_of n) = false
    /\ forall m, start <= m < n -> exists_ (name_of m) = true.
Proof.
  revert start. induction fuel as [|fuel IH]; intros start H1 H2 Hk; [lia|].
  simpl. destruct (exists_ (name_of start)) eqn:E.
  - assert (start <> k) by (intros ->; congruence).
    destruct (IH (S start)) as (n & -> & ? & ? & Hm); [lia..|done|].
    exists n. split_and!; [done|lia|lia|done|].
    intros m ?. destruct (decide (m = start)) as [->|]; [done|].
    apply Hm. lia.
  - exists start. split_and!; [done|lia|lia|done|]. intros m ?. lia.
Qed.

(** *** Decimal numbers *)

Lemma int_of_digits_app ds es :
  Str.int_of_digits (ds ++ es)
  = (Str.int_of_digits ds * 10 ^ Z.of_nat (length es) + Str.int_of_digits es)%Z.
Proof.
  unfold Str.int_of_digits.
  induction es as [|e es IH] using rev_ind.
  - rewrite app_nil_r. simpl. lia.
  - rewrite app_assoc, !foldl_snoc, IH, length_app. simpl.
    rewrite Nat2Z.inj_add, Z.pow_add_r by lia. simpl. lia.
Qed.

Lemma int_of_digits_zeros k ds :
  Str.int_of_digits (replicate k 0%Z ++ ds) = Str.int_of_digits ds.
Proof.
  rewrite int_of_digits_app.
  replace (Str.int_of_digits (replicate k 0%Z)) with 0%Z; [lia|].
  unfold Str.int_of_digits. induction k as [|k IH]; [done|].
  simpl. exact IH.
Qed.

Lemma log2_div10 n : (10 <= n)%N -> (N.log2 (n / 10) < N.log2 n)%N.
Proof.
  intros Hn.
  assert (N.log2 (n / 10) <= N.log2 (N.shiftr n 1))%N as H1.
  { apply N.log2_le_mono. rewrite N.shiftr_div_pow2. change (2 ^ 1)%N with 2%N.
    pose proof (N.Div0.div_le_mono 2 10 n). 
    apply N.div_le_lower_bound; [lia|].
    pose proof (N.Div0.mul_div_le n 10). lia. }
  rewrite N.log2_shiftr in H1.
  assert (3 <= N.log2 n)%N.
  { apply N.log2_le_pow2; [lia|]. change (2 ^ 3)%N with 8%N. lia. }
  lia.
Qed.

Lemma digits_fuel_value fuel n acc :
  N.to_nat (N.log2 n) < fuel ->
  digits_value (digits_fuel fuel n acc)
  = (Z.of_N n * 10 ^ Z.of_nat (length acc) + digits_value acc)%Z.
Proof.
  revert n acc. induction fuel as [|fuel IH]; intros n acc Hf; [lia|].
  simpl. pose proof (N.Div0.div_mod n 10) as Hdm.
  pose proof (N.mod_lt n 10 ltac:(lia)) as Hlt.
  assert (digits_value ((48 + n `mod` 10)%N :: acc)
          = (Z.of_N (n mod 10) * 10 ^ Z.of_nat (length acc) + digits_value acc)%Z)
    as Hcons.
  { unfold digits_value. rewrite fmap_cons.
    change (?x :: ?l) with ([x] ++ l). rewrite int_of_digits_app, length_fmap.
    unfold Str.int_of_digits at 1, digit_value at 1. simpl. lia. }
  destruct (N.ltb_spec n 10) as [Hn|Hn].
  - rewrite Hcons. rewrite N.mod_small by lia. reflexivity.
  - rewrite IH.
    + rewrite Hcons. simpl length. rewrite Nat2Z.inj_succ, Z.pow_succ_r by lia.
      assert (Z.of_N n = 10 * Z.of_N (n / 10) + Z.of_N (n `mod` 10))%Z as ->
        by lia.
      ring.
    + pose proof (log2_div10 n Hn). lia.
Qed.

Lemma digits_fuel_digits fuel n acc :
  Forall (fun c => Char.is_digit_ascii c = true) acc ->
  Forall (fun c => Char.is_digit_ascii c = true) (digits_fuel fuel n acc).
Proof.
  revert n acc. induction fuel as [|fuel IH]; intros n acc Hacc; [done|].
  simpl.
  assert (Char.is_digit_ascii (48 + n `mod` 10) = true) as Hd.
  { pose proof (N.mod_lt n 10 ltac:(lia)) as Hlt. revert Hlt.
    generalize (n `mod` 10)%N as d. intros d Hlt.
    unfold Char.is_digit_ascii, Char.between.
    apply andb_true_iff. split; apply N.leb_le; lia. }
  destruct (n <? 10)%N; [by constructor|].
  apply IH. by constructor.
Qed.

Lemma digits_fuel_length fuel n acc :
  0 < fuel -> length acc < length (digits_fuel fuel n acc).
Proof.
  revert n acc. induction fuel as [|fuel IH]; intros n acc Hf; [lia|].
  simpl. destruct (n <? 10)%N; [simpl; lia|].
  destruct fuel as [|fuel']; [simpl; lia|].
  specialize (IH (n / 10)%N ((48 + n `mod` 10)%N :: acc) ltac:(lia)).
  simpl in IH. simpl. lia.
Qed.

(** [int(str(n)) == n]: the digits printed are ASCII digits that read back
    as the number. *)
Lemma str_of_N_value n :
  digits_value (str_of_N n) = Z.of_N n
  /\ Forall (fun c => Char.is_digit_ascii c = true) (str_of_N n)
  /\ 0 < length (str_of_N n).
Proof.
  unfold str_of_N. split_and!.
  - rewrite digits_fuel_value by lia. unfold digits_value. simpl.
    unfold Str.int_of_digits. simpl. lia.
  - by apply digits_fuel_digits.
  - pose proof (digits_fuel_length (S (N.to_nat (N.log2 n))) n [] ltac:(lia)).
    simpl in *. lia.
Qed.

Lemma zero_padded_value width n :
  digits_value (zero_padded width n) = Z.of_N n.
Proof.
  unfold zero_padded, digits_value. rewrite fmap_app, fmap_replicate.
  change (digit_value 48) with 0%Z. rewrite int_of_digits_zeros.
  apply str_of_N_value.
Qed.

Lemma str_of_N_examples :
  str_of_N 0 = [0x30%N]
  /\ str_of_N 7 = [0x37%N]
  /\ str_of_N 1997 = [0x31; 0x39; 0x39; 0x37]%N
  /\ zero_padded 3 5 = [0x30; 0x30; 0x35]%N
  /\ zero_padded 3 12345 = [0x31; 0x32; 0x33; 0x34; 0x35]%N
  /\ str_of_Z (-5) = [0x2D; 0x35]%N.
Proof. repeat split. Qed.

(** X9.  The numbered names of [_next_album_filename]: the number part
    consists of ASCII digits, at least [digits] of them, and reads back as
    the number, so two numbers never share a name. *)
Theorem album_name_injective (genre : pystr) (digits n m : nat) :
  (digits <= length (zero_padded digits (N.of_nat n))
   /\ Forall (fun c => Char.is_digit_ascii c = true)
             (zero_padded digits (N.of_nat n))
   /\ digits_value (zero_padded digits (N.of_nat n)) = Z.of_nat n)
  /\ (Sandwicher.album_name genre digits n = Sandwicher.album_name genre digits m
      <-> n = m).
Proof.
  split; [split_and!|].
  - unfold zero_padded. rewrite length_app, length_replicate. lia.
  - unfold zero_padded. apply Forall_app. split.
    + apply Forall_replicate. reflexivity.
    + apply str_of_N_value.
  - rewrite zero_padded_value. lia.
  - split; [|by intros ->].
    unfold Sandwicher.album_name. intros H.
    do 3 apply app_inv_head in H. apply app_inv_tail in H.
    apply (f_equal digits_value) in H. rewrite !zero_padded_value in H. lia.
Qed.

Lemma scan_max_bound numbered entries name j :
  (name, true) ∈ entries -> numbered name = Some j ->
  j <= Sandwicher.scan_max numbered entries.
Proof.
  unfold Sandwicher.scan_max.
  induction entries as [|e entries IH] using rev_ind; [by intros ?%elem_of_nil|].
  rewrite foldl_snoc. intros [Hin|Hin]%elem_of_app Hj.
  - specialize (IH Hin Hj). destruct (negb e.2); [lia|].
    destruct (numbered e.1); [|lia]. destruct (Nat.ltb_spec
      (foldl (fun max_n e => if negb e.2 then max_n
                else match numbered e.1 with
                     | Some n => if max_n <? n then n else max_n
                     | None => max_n
                     end) 0 entries) n); lia.
  - apply list_elem_of_singleton in Hin as <-. simpl. rewrite Hj.
    match goal with |- context [?a <? j] => destruct (Nat.ltb_spec a j) end; lia.
Qed.

(** X10.  [_next_album_filename] returns the first name that is not
    taken, counting up from one past the largest number the scan found:
    every smaller number above the scan's maximum is taken, and the number
    chosen is larger than that of any file the scan accepted.  It returns
    as soon as such a free name exists within the fuel. *)
Theorem next_album_filename_spec (numbered : pystr -> option nat)
    (entries : list (pystr * bool)) (exists_ : pystr -> bool) (genre : pystr)
    (digits fuel k : nat) :
  Sandwicher.scan_max numbered entries < k ->
  k <= Sandwicher.scan_max numbered entries + fuel ->
  exists_ (Sandwicher.album_name genre digits k) = false ->
  exists n,
    Sandwicher._next_album_filename numbered entries exists_ genre digits fuel
    = Some (Sandwicher.album_name genre digits n)
    /\ Sandwicher.scan_max numbered entries < n <= k
    /\ exists_ (Sandwicher.album_name genre digits n) = false
    /\ (forall m, Sandwicher.scan_max numbered entries < m < n ->
                  exists_ (Sandwicher.album_name genre digits m) = true)
    /\ (forall name j, (name, true) ∈ entries -> numbered name = Some j -> j < n).
Proof.
  intros H1 H2 Hk. unfold Sandwicher._next_album_filename.
  destruct (first_free_spec exists_ (Sandwicher.album_name genre digits) fuel
              (Sandwicher.scan_max numbered entries + 1) k)
    as (n & E & ? & ? & Hm); [lia..|done|].
  exists n. split_and!; [done|lia|lia|done| |].
  - intros m ?. apply Hm. lia.
  - intros name j Hin Hj. pose proof (scan_max_bound _ _ _ _ Hin Hj). lia.
Qed.

Lemma next_album_filename_spec_witness :
  Sandwicher._next_album_filename
    (fun name => if bool_decide (name = Sample.album_Rock_007) then Some 7 else None)
    [(Sample.album_Rock_007, true); (Sample.Rock, false)]
    (fun p => bool_decide (p = Sandwicher.album_name Sample.Rock 3 8))
    Sample.Rock 3 5
  = Some (Sandwicher.album_name Sample.Rock 3 9).
Proof.
  destruct (next_album_filename_spec
              (fun name => if bool_decide (name = Sample.album_Rock_007)
                           then Some 7 else None)
              [(Sample.album_Rock_007, true); (Sample.Rock, false)]
              (fun p => bool_decide (p = Sandwicher.album_name Sample.Rock 3 8))
              Sample.Rock 3 5 9)
    as (n & E & Hn & Hfree & _); [vm_compute; lia | vm_compute; lia | reflexivity |].
  assert (Sandwicher.scan_max
            (fun name => if bool_decide (name = Sample.album_Rock_007)
                         then Some 7 else None)
            [(Sample.album_Rock_007, true); (Sample.Rock, false)] = 7)
    as Hmax by reflexivity.
  rewrite Hmax in Hn.
  assert (n = 8 \/ n = 9) as [-> | ->] by lia; [discriminate Hfree|exact E].
Defined.

(** X11.  [_save_image] never picks a name that is taken, in either naming
    mode.  Without automatic names it keeps [stem + suffix + ".png"] when
    that is free, and otherwise takes the first free [_i] variant, [i]
    counting from 1. *)
Theorem save_name_spec (numbered : pystr -> option nat)
    (entries : list (pystr * bool)) (exists_ : pystr -> bool)
    (auto_name : bool) (num_digits : Z) (spine_choice suffix stem : pystr)
    (fuel : nat) :
  (forall p,
     Sandwicher.save_name numbered entries exists_ auto_name num_digits
       spine_choice suffix stem fuel = Some p ->
     exists_ p = false)
  /\ (auto_name = false ->
      exists_ (stem ++ suffix ++ Text.dot_png) = false ->
      Sandwicher.save_name numbered entries exists_ auto_name num_digits
        spine_choice suffix stem fuel = Some (stem ++ suffix ++ Text.dot_png))
  /\ (forall k,
        auto_name = false ->
        exists_ (stem ++ suffix ++ Text.dot_png) = true ->
        1 <= k <= fuel ->
        exists_ (Sandwicher.bumped_name stem suffix k) = false ->
        exists i,
          Sandwicher.save_name numbered entries exists_ auto_name num_digits
            spine_choice suffix stem fuel
          = Some (Sandwicher.bumped_name stem suffix i)
          /\ 1 <= i <= k
          /\ forall j, 1 <= j < i ->
                       exists_ (Sandwicher.bumped_name stem suffix j) = true).
Proof.
  unfold Sandwicher.save_name. split_and!.
  - intros p. destruct auto_name.
    + apply first_free_sound.
    + destruct (exists_ (stem ++ suffix ++ Text.dot_png)) eqn:E.
      * apply first_free_sound.
      * by intros [= <-].
  - by intros -> ->.
  - intros k -> -> Hk Hfree.
    destruct (first_free_spec exists_ (Sandwicher.bumped_name stem suffix)
                fuel 1 k) as (i & E & ? & ? & Hm); [lia..|done|].
    exists i. split_and!; [done|lia|lia|done].
Qed.

Lemma save_name_spec_witness :
  Sandwicher.save_name (fun _ => None) []
    (fun p => bool_decide (p = Sample.cover ++ Sample._framed ++ Text.dot_png))
    false 3 Sample.Rock Sample._framed Sample.cover 4
  = Some (Sandwicher.bumped_name Sample.cover Sample._framed 1).
Proof.
  destruct (save_name_spec (fun _ => None) []
              (fun p => bool_decide
                          (p = Sample.cover ++ Sample._framed ++ Text.dot_png))
              false 3 Sample.Rock Sample._framed Sample.cover 4)
    as (_ & _ & H).
  destruct (H 1) as (i & E & Hi & _); [reflexivity..|lia|reflexivity|].
  assert (i = 1) as -> by lia. exact E.
Defined.

(** *** The blue rectangle *)

Lemma head_filter_seq (f : nat -> bool) s n :
  match head (List.filter f (seq s n)) with
  | Some a => f a = true /\ s <= a < s + n /\ forall b, s <= b < a -> f b = false
  | None => forall b, s <= b < s + n -> f b = false
  end.
Proof.
  revert s. induction n as [|n IH]; intros s; simpl; [intros; lia|].
  destruct (f s) eqn:E; simpl.
  - split_and!; [done|lia|lia|intros; lia].
  - specialize (IH (S s)). destruct (head (List.filter f (seq (S s) n))).
    + destruct IH as (? & ? & Hb). split_and!; [done|lia|lia|].
      intros b ?. destruct (decide (b = s)) as [->|]; [done|]. apply Hb. lia.
    + intros b ?. destruct (decide (b = s)) as [->|]; [done|]. apply IH. lia.
Qed.

Lemma last_filter_seq (f : nat -> bool) s n :
  match last (List.filter f (seq s n)) with
  | Some a => f a = true /\ s <= a < s + n
              /\ forall b, a < b < s + n -> f b = false
  | None => forall b, s <= b < s + n -> f b = false
  end.
Proof.
  induction n as [|n IH]; [simpl; intros; lia|].
  rewrite seq_S, List.filter_app. cbn [List.filter].
  destruct (f (s + n)) eqn:E.
  - rewrite last_snoc. split_and!; [done|lia|lia|intros; lia].
  - rewrite app_nil_r.
    destruct (last (List.filter f (seq s n))).
    + destruct IH as (? & ? & Hb). split_and!; [done|lia|lia|].
      intros b ?. destruct (decide (b = s + n)) as [->|]; [done|].
      apply Hb. lia.
    + intros b ?. destruct (decide (b = s + n)) as [->|]; [done|].
      apply IH. lia.
Qed.

Lemma existsb_seq (f : nat -> bool) n :
  existsb f (seq 0 n) = true <-> exists i, i < n /\ f i = true.
Proof.
  rewrite existsb_exists. split.
  - intros (i & Hin & ?). apply in_seq in Hin. exists i. split; [lia|done].
  - intros (i & ? & ?). exists i. split; [apply in_seq; lia|done].
Qed.

Lemma existsb_seq_false (f : nat -> bool) n :
  existsb f (seq 0 n) = false <-> forall i, i < n -> f i = false.
Proof.
  split.
  - intros H i Hi. destruct (f i) eqn:E; [|done].
    assert (existsb f (seq 0 n) = true) by (apply existsb_seq; eauto).
    congruence.
  - intros H. destruct (existsb f (seq 0 n)) eqn:E; [|done].
    apply existsb_seq in E as (i & Hi & Hf). rewrite H in Hf; done.
Qed.

Lemma mark_row_spec img blue_min rg_max mp y x' y' :
  Sandwicher.nonzero (Sandwicher.mark_row img blue_min rg_max mp y) x' y' = true
  <-> Sandwicher.nonzero mp x' y' = true
      \/ (y' = y /\ x' < Sandwicher.width img
          /\ Sandwicher.is_blue blue_min rg_max (Sandwicher.px img x' y') = true).
Proof.
  unfold Sandwicher.mark_row.
  induction (Sandwicher.width img) as [|w IH].
  - simpl. split; [by left|]. intros [?|(_ & ? & _)]; [done|lia].
  - rewrite seq_S, foldl_snoc. simpl.
    destruct (Sandwicher.is_blue blue_min rg_max (Sandwicher.px img w y)) eqn:E.
    + unfold Sandwicher.nonzero at 1.
      destruct (decide ((x', y') = (w, y))) as [[= -> ->]|Hne].
      * rewrite lookup_insert_eq. simpl. split; [|done].
        intros _. right. split_and!; [done|lia|done].
      * rewrite lookup_insert_ne by done.
        fold (Sandwicher.nonzero
                (foldl (fun mp x =>
                          if Sandwicher.is_blue blue_min rg_max (Sandwicher.px img x y)
                          then <[(x, y):=255%Z]> mp else mp) mp (seq 0 w)) x' y').
        rewrite IH. split.
        -- intros [?|(? & ? & ?)]; [by left|]. right. split_and!; [done|lia|done].
        -- intros [?|(-> & ? & ?)]; [by left|]. right.
           split_and!; [done| |done].
           destruct (decide (x' = w)) as [->|]; [done|lia].
    + rewrite IH. split.
      * intros [?|(? & ? & ?)]; [by left|]. right. split_and!; [done|lia|done].
      * intros [?|(-> & ? & ?)]; [by left|]. right.
        split_and!; [done| |done].
        destruct (decide (x' = w)) as [->|]; [congruence|lia].
Qed.

Lemma blue_mask_spec img blue_min rg_max x y :
  Sandwicher.nonzero (Sandwicher.blue_mask img blue_min rg_max) x y = true
  <-> x < Sandwicher.width img /\ y < Sandwicher.height img
      /\ Sandwicher.is_blue blue_min rg_max (Sandwicher.px img x y) = true.
Proof.
  unfold Sandwicher.blue_mask.
  induction (Sandwicher.height img) as [|h IH].
  - simpl. unfold Sandwicher.nonzero. rewrite lookup_empty.
    split; [done|]. intros (_ & ? & _). lia.
  - rewrite seq_S, foldl_snoc. simpl. rewrite mark_row_spec, IH. split.
    + intros [(? & ? & ?)|(-> & ? & ?)]; split_and!; try done; lia.
    + intros (? & ? & ?). destruct (decide (y = h)) as [->|]; [by right|].
      left. split_and!; [done|lia|done].
Qed.

Lemma getbbox_spec w h mp :
  match Sandwicher.getbbox w h mp with
  | None => forall x y, x < w -> y < h -> Sandwicher.nonzero mp x y = false
  | Some (x0, y0, x1, y1) =>
      exists a b c d : nat,
        (x0 = Z.of_nat a /\ y0 = Z.of_nat b
         /\ x1 = Z.of_nat c + 1 /\ y1 = Z.of_nat d + 1)%Z
        /\ (a <= c < w /\ b <= d < h)
        /\ (forall x y, x < w -> y < h -> Sandwicher.nonzero mp x y = true ->
                        a <= x <= c /\ b <= y <= d)
        /\ (exists y, y < h /\ Sandwicher.nonzero mp a y = true)
        /\ (exists y, y < h /\ Sandwicher.nonzero mp c y = true)
        /\ (exists x, x < w /\ Sandwicher.nonzero mp x b = true)
        /\ (exists x, x < w /\ Sandwicher.nonzero mp x d = true)
  end.
Proof.
  unfold Sandwicher.getbbox.
  set (fx := fun x => existsb (fun y => Sandwicher.nonzero mp x y) (seq 0 h)).
  set (fy := fun y => existsb (fun x => Sandwicher.nonzero mp x y) (seq 0 w)).
  pose proof (head_filter_seq fx 0 w) as Hxa.
  pose proof (last_filter_seq fx 0 w) as Hxc.
  pose proof (head_filter_seq fy 0 h) as Hyb.
  pose proof (last_filter_seq fy 0 h) as Hyd.
  assert (forall x y, x < w -> y < h -> fx x = false ->
                      Sandwicher.nonzero mp x y = false) as Hfx.
  { intros x y ? ? E. unfold fx in E.
    by apply (proj1 (existsb_seq_false _ _) E). }
  assert (forall x y, x < w -> y < h -> fy y = false ->
                      Sandwicher.nonzero mp x y = false) as Hfy.
  { intros x y ? ? E. unfold fy in E.
    by apply (proj1 (existsb_seq_false _ _) E). }
  assert (forall x y, x < w -> y < h -> Sandwicher.nonzero mp x y = true ->
                      fx x = true /\ fy y = true) as Hnz.
  { intros x y ? ? E. split; apply existsb_seq; eauto. }
  destruct (head (List.filter fx (seq 0 w))) as [a|];
    [|intros x y ? ?; apply Hfx; [done..|]; apply Hxa; lia].
  destruct (head (List.filter fy (seq 0 h))) as [b|];
    [|intros x y ? ?; apply Hfy; [done..|]; apply Hyb; lia].
  destruct (last (List.filter fx (seq 0 w))) as [c|];
    [|intros x y ? ?; apply Hfx; [done..|]; apply Hxc; lia].
  destruct (last (List.filter fy (seq 0 h))) as [d|];
    [|intros x y ? ?; apply Hfy; [done..|]; apply Hyd; lia].
  destruct Hxa as (Ha & ? & Ha'), Hxc as (Hc & ? & Hc').
  destruct Hyb as (Hb & ? & Hb'), Hyd as (Hd & ? & Hd').
  assert (forall x, x < w -> fx x = true -> a <= x <= c) as Hx.
  { intros x ? E. split.
    - destruct (decide (a <= x)); [done|]. rewrite Ha' in E by lia. done.
    - destruct (decide (x <= c)); [done|]. rewrite Hc' in E by lia. done. }
  assert (forall y, y < h -> fy y = true -> b <= y <= d) as Hy.
  { intros y ? E. split.
    - destruct (decide (b <= y)); [done|]. rewrite Hb' in E by lia. done.
    - destruct (decide (y <= d)); [done|]. rewrite Hd' in E by lia. done. }
  exists a, b, c, d. split_and!; try done; try lia.
  - apply (Hx a); [lia|done].
  - apply (Hy b); [lia|done].
  - intros x y ? ? E. destruct (Hnz x y) as [? ?]; [done..|].
    split; [by apply Hx|by apply Hy].
  - by apply existsb_seq.
  - by apply existsb_seq.
  - by apply existsb_seq.
  - by apply existsb_seq.
Qed.

(** X12.  [detect_largest_blue_rect] returns [None] exactly when no pixel
    of the image passes the blue test.  Otherwise, for a padding that is
    not negative, the rectangle is not empty, lies inside the image and
    contains every blue pixel; with no padding it is the smallest such
    rectangle: each of its four sides holds a blue pixel. *)
Theorem detect_largest_blue_rect_spec (img : Sandwicher.Image)
    (blue_min rg_max pad : Z) :
  let blue x y :=
    Sandwicher.is_blue blue_min rg_max (Sandwicher.px img x y) = true in
  let w := Sandwicher.width img in
  let h := Sandwicher.height img in
  match Sandwicher.detect_largest_blue_rect img blue_min rg_max pad with
  | None => forall x y, x < w -> y < h -> ~ blue x y
  | Some (x0, y0, x1, y1) =>
      (exists x y, x < w /\ y < h /\ blue x y)
      /\ ((0 <= pad)%Z ->
          (0 <= x0 < x1 /\ x1 <= Z.of_nat w)%Z
          /\ (0 <= y0 < y1 /\ y1 <= Z.of_nat h)%Z
          /\ forall x y, x < w -> y < h -> blue x y ->
               (x0 <= Z.of_nat x < x1 /\ y0 <= Z.of_nat y < y1)%Z)
      /\ (pad = 0%Z ->
          (exists y, y < h /\ blue (Z.to_nat x0) y)
          /\ (exists y, y < h /\ blue (Z.to_nat (x1 - 1)) y)
          /\ (exists x, x < w /\ blue x (Z.to_nat y0))
          /\ (exists x, x < w /\ blue x (Z.to_nat (y1 - 1))))
  end.
Proof.
  intros blue w h. unfold Sandwicher.detect_largest_blue_rect.
  fold w h.
  pose proof (getbbox_spec w h (Sandwicher.blue_mask img blue_min rg_max)) as H.
  assert (forall x y,
            Sandwicher.nonzero (Sandwicher.blue_mask img blue_min rg_max) x y = true
            <-> x < w /\ y < h /\ blue x y) as Hm
    by (intros; apply blue_mask_spec).
  destruct (Sandwicher.getbbox w h (Sandwicher.blue_mask img blue_min rg_max))
    as [[[[x0 y0] x1] y1]|].
  - destruct H as (a & b & c & d & (-> & -> & -> & ->) & (? & ?) & Hin
                   & (ya & ? & Hya) & (yc & ? & Hyc) & (xb & ? & Hxb)
                   & (xd & ? & Hxd)).
    apply Hm in Hya as (_ & _ & Hya), Hyc as (_ & _ & Hyc).
    apply Hm in Hxb as (_ & _ & Hxb), Hxd as (_ & _ & Hxd).
    split_and!.
    + exists a, ya. split_and!; [lia|done|done].
    + intros Hpad. split_and!; try lia.
      intros x y ? ? Hb. destruct (Hin x y) as [? ?]; [done..| |lia].
      apply Hm. done.
    + intros ->. rewrite !Z.sub_0_r, !Z.add_0_r.
      rewrite !Z.max_r, !Z.min_r by lia.
      replace (Z.of_nat c + 1 - 1)%Z with (Z.of_nat c) by lia.
      replace (Z.of_nat d + 1 - 1)%Z with (Z.of_nat d) by lia.
      rewrite !Nat2Z.id. split_and!; eauto.
  - intros x y ? ? Hb. specialize (H x y ltac:(done) ltac:(done)).
    assert (Sandwicher.nonzero (Sandwicher.blue_mask img blue_min rg_max) x y
            = true) by (apply Hm; done).
    congruence.
Qed.

Lemma detect_largest_blue_rect_examples :
  Sandwicher.detect_largest_blue_rect two_blue_pixels 140 120 0
  = Some (1, 1, 3, 2)%Z
  /\ Sandwicher.detect_largest_blue_rect two_blue_pixels 140 120 1
     = Some (0, 0, 4, 3)%Z
  /\ Sandwicher.detect_largest_blue_rect two_blue_pixels 201 120 0 = None.
Proof.
  repeat split.
Qed.

Lemma url_ext_examples :
  Save.url_ext Sample2.upper_jpg_query = Text.dot_jpg
  /\ Save.url_ext Sample2.png_then_webp = [0x2E%N] ++ Text.webp
  /\ Save.url_ext Sample2.jpg_fragment = Text.dot_jpg
  /\ Save.url_ext [0x61; 0x2E; 0x74; 0x130; 0x66]%N
     = [0x2E; 0x74; 0x69; 0x307; 0x66]%N
  /\ Save.url_ext [0x61; 0x2E; 0x74; 0x69; 0x66; 0x0A]%N = [0x2E%N] ++ Text.tif
  /\ Save.url_ext [0x61; 0x2E; 0x74; 0x69; 0x66; 0x0A; 0x0A]%N = Text.dot_jpg
  /\ Net.sub_artwork Text.size_1000 Sample2.art_100 = Sample2.art_1000
  /\ Net.sub_artwork Text.size_200 Sample2.art_100 = Sample2.art_200.
Proof. vm_compute. repeat split. Qed.

(** * The downloader: statuses, requests, providers and the save step *)

Lemma collect_failed_snoc statuses s :
  Save._collect_failed_indices (statuses ++ [s])
  = Save._collect_failed_indices statuses
    ++ (if Save.is_failed s then [length statuses] else []).
Proof.
  unfold Save._collect_failed_indices.
  rewrite imap_app, foldl_app. simpl. rewrite Nat.add_0_r.
  destruct (Save.is_failed s); [done|by rewrite app_nil_r].
Qed.

Lemma collect_failed_elem statuses i :
  i ∈ Save._collect_failed_indices statuses
  <-> exists s, statuses !! i = Some s /\ Save.is_failed s = true.
Proof.
  induction statuses as [|s statuses IH] using rev_ind.
  - split; [by intros ?%elem_of_nil|]. by intros (s & ? & _).
  - rewrite collect_failed_snoc, elem_of_app, IH. split.
    + intros [(s' & Hs & ?)|Hi].
      * exists s'. split; [|done]. by apply lookup_app_l_Some.
      * destruct (Save.is_failed s) eqn:E; [|by apply elem_of_nil in Hi].
        apply list_elem_of_singleton in Hi as ->. exists s.
        split; [|done]. by rewrite lookup_app_r, Nat.sub_diag.
    + intros (s' & Hs & Hf).
      apply lookup_app_Some in Hs as [Hs|[Hlen Hs]].
      * left. eauto.
      * right. destruct (i - length statuses) as [|k] eqn:Ek; [|done].
        injection Hs as ->. rewrite Hf. apply list_elem_of_singleton. lia.
Qed.

Lemma collect_failed_sorted statuses :
  StronglySorted lt (Save._collect_failed_indices statuses)
  /\ Forall (fun i => i < length statuses) (Save._collect_failed_indices statuses).
Proof.
  induction statuses as [|s statuses [IH1 IH2]] using rev_ind.
  - split; constructor.
  - rewrite collect_failed_snoc, length_app. simpl.
    destruct (Save.is_failed s).
    + split.
      * apply StronglySorted_app_2; [|done|repeat constructor].
        intros x y Hx Hy. apply list_elem_of_singleton in Hy as ->.
        by apply (proj1 (Forall_forall _ _) IH2).
      * apply Forall_app. split; [|repeat constructor; lia].
        eapply Forall_impl; [exact IH2|]. simpl. intros; lia.
    + rewrite app_nil_r. split; [done|].
      eapply Forall_impl; [exact IH2|]. simpl. intros; lia.
Qed.

Lemma is_failed_status (st : Save.Status) :
  Save.is_failed (Save.status_text st)
  = match st with
    | Save.NotFound | Save.Skipped | Save.Error _ => true
    | _ => false
    end.
Proof.
  destruct st; try reflexivity.
  unfold Save.is_failed. cbn [existsb].
  apply orb_true_iff. right. apply orb_true_iff. left. reflexivity.
Qed.

(** X13.  "Redo failed" selects exactly the rows the worker left as
    "Not found", "Skipped" or "Error: ...", whatever the message of the
    error; rows that are "OK", "Exists - skipped", still "Searching..." or
    untouched are not selected.  The indices come in increasing order and
    are indices of rows. *)
Theorem collect_failed_indices_spec (rows : list Save.Status) :
  (forall i,
     i ∈ Save._collect_failed_indices (Save.status_text <$> rows)
     <-> exists st, rows !! i = Some st
                    /\ (st = Save.NotFound \/ st = Save.Skipped
                        \/ exists e, st = Save.Error e))
  /\ StronglySorted lt (Save._collect_failed_indices (Save.status_text <$> rows))
  /\ Forall (fun i => i < length rows)
            (Save._collect_failed_indices (Save.status_text <$> rows)).
Proof.
  split_and!.
  - intros i. rewrite collect_failed_elem. split.
    + intros (s & Hs & Hf). rewrite list_lookup_fmap in Hs.
      destruct (rows !! i) as [st|]; [|done]. injection Hs as <-.
      rewrite is_failed_status in Hf. exists st. split; [done|].
      destruct st; try done; eauto.
    + intros (st & Hst & Hcase). exists (Save.status_text st).
      rewrite list_lookup_fmap, Hst. split; [done|].
      rewrite is_failed_status.
      destruct Hcase as [->|[->|[e ->]]]; reflexivity.
  - apply collect_failed_sorted.
  - pose proof (collect_failed_sorted (Save.status_text <$> rows)) as [_ H].
    by rewrite length_fmap in H.
Qed.

(** *** The two caches *)


Lemma http_get_bytes_hit web url st data :
  Net._bytes_cache st !! url = Some data ->
  Net.http_get_bytes web url st = (Ok data, st).
Proof. intros H. unfold Net.http_get_bytes. by rewrite H. Qed.

(** What a call leaves behind, for the loops that thread the state. *)
Lemma http_get_json_frame web url params st :
  let st' := (Net.http_get_json web url params st).2 in
  Net._bytes_cache st' = Net._bytes_cache st
  /\ (forall k v, Net._json_cache st !! k = Some v ->
                  Net._json_cache st' !! k = Some v)
  /\ exists more, Net.sent st' = Net.sent st ++ more.
Proof.
  unfold Net.http_get_json.
  destruct (Net._json_cache st !! Net.cache_key url params) as [data|] eqn:E.
  - simpl. split_and!; [done|done|]. exists []. by rewrite app_nil_r.
  - destruct (Net.json_reply web (length (Net.sent st)) url params); simpl.
    + split_and!; [done| |by eexists]. intros k v Hk.
      rewrite lookup_insert_ne; [done|]. intros <-. congruence.
    + split_and!; [done|done|by eexists].
Qed.

Lemma http_get_bytes_frame web url st :
  let st' := (Net.http_get_bytes web url st).2 in
  Net._json_cache st' = Net._json_cache st
  /\ (forall k v, Net._bytes_cache st !! k = Some v ->
                  Net._bytes_cache st' !! k = Some v)
  /\ exists more, Net.sent st' = Net.sent st ++ more.
Proof.
  unfold Net.http_get_bytes.
  destruct (Net._bytes_cache st !! url) as [data|] eqn:E.
  - simpl. split_and!; [done|done|]. exists []. by rewrite app_nil_r.
  - destruct (Net.bytes_reply web (length (Net.sent st)) url); simpl.
    + split_and!; [done| |by eexists]. intros k v Hk.
      rewrite lookup_insert_ne; [done|]. intros <-. congruence.
    + split_and!; [done|done|by eexists].
Qed.

Lemma http_get_bytes_cached web url st b st' :
  Net.http_get_bytes web url st = (Ok b, st') ->
  Net._bytes_cache st' !! url = Some b.
Proof.
  unfold Net.http_get_bytes.
  destruct (Net._bytes_cache st !! url) as [data|] eqn:E.
  - by intros [= <- <-].
  - destruct (Net.bytes_reply web (length (Net.sent st)) url);
      intros [= <- <-]. simpl. by rewrite lookup_insert_eq.
Qed.


(** *** The artwork of iTunes *)

Lemma digit_run_split s :
  s = (Net.digit_run s).1 ++ (Net.digit_run s).2
  /\ Forall (fun c => is_Some (Char.decimal c)) (Net.digit_run s).1.
Proof.
  induction s as [|c s [IH1 IH2]]; simpl; [by split|].
  destruct (Char.decimal c) eqn:E; [|by split].
  destruct (Net.digit_run s) as [ds rest]. simpl in *. split.
  - by rewrite IH1 at 1.
  - constructor; [by rewrite E|done].
Qed.

Lemma digit_run_app ds c rest :
  Forall (fun c => is_Some (Char.decimal c)) ds ->
  Char.decimal c = None ->
  Net.digit_run (ds ++ c :: rest) = (ds, c :: rest).
Proof.
  intros Hds Hc. induction Hds as [|d ds [v Hd] _ IH]; simpl.
  - by rewrite Hc.
  - by rewrite Hd, IH.
Qed.

Lemma digits_no_slash ds :
  Forall (fun c => is_Some (Char.decimal c)) ds -> Char.slash ∉ ds.
Proof.
  intros H Hin. apply (proj1 (Forall_forall _ _) H) in Hin.
  destruct Hin as [v Hv]. vm_compute in Hv. done.
Qed.

Lemma at_end_cases rest :
  Net.at_end rest = true <-> rest = [] \/ rest = [0x0A%N].
Proof.
  split.
  - destruct rest as [|c [|c' rest]]; simpl; [by left| |done].
    intros ->%N.eqb_eq. by right.
  - by intros [->| ->].
Qed.

Lemma artwork_tail_Some s group rest :
  Net.artwork_tail s = Some (group, rest) ->
  exists d1 d2,
    s = d1 ++ [0x78%N] ++ d2 ++ Text.bb_dot ++ group ++ rest
    /\ d1 <> [] /\ d2 <> []
    /\ Forall (fun c => is_Some (Char.decimal c)) d1
    /\ Forall (fun c => is_Some (Char.decimal c)) d2
    /\ (group = Text.jpg \/ group = Text.png)
    /\ (rest = [] \/ rest = [0x0A%N]).
Proof.
  unfold Net.artwork_tail.
  destruct (digit_run_split s) as [Hs Hd1].
  destruct (Net.digit_run s) as [d1 r1]. simpl in *.
  destruct d1 as [|x1 d1']; [done|].
  destruct r1 as [|x r1]; [done|].
  destruct (digit_run_split r1) as [Hr1 Hd2].
  destruct (Net.digit_run r1) as [d2 r2]. simpl in *.
  destruct d2 as [|x2 d2']; [done|].
  destruct r2 as [|b1 [|b2 [|b3 [|c1 [|c2 [|c3 r3]]]]]]; try done.
  destruct ((x =? 0x78)%N && bool_decide ([b1; b2; b3] = Text.bb_dot)
            && (bool_decide ([c1; c2; c3] = Text.jpg)
                || bool_decide ([c1; c2; c3] = Text.png))
            && Net.at_end r3) eqn:E; [|done].
  intros [= <- <-].
  apply andb_true_iff in E as [E He].
  apply andb_true_iff in E as [E Hg].
  apply andb_true_iff in E as [Hx Hb].
  apply N.eqb_eq in Hx as ->. apply bool_decide_eq_true in Hb.
  exists (x1 :: d1'), (x2 :: d2'). split_and!; try done.
  - vm_compute in Hb. injection Hb as -> -> ->. rewrite Hs, Hr1. reflexivity.
  - apply orb_true_iff in Hg as [Hg|Hg]; apply bool_decide_eq_true in Hg; eauto.
  - by apply at_end_cases.
Qed.

Lemma artwork_tail_match d1 d2 group rest :
  d1 <> [] -> d2 <> [] ->
  Forall (fun c => is_Some (Char.decimal c)) d1 ->
  Forall (fun c => is_Some (Char.decimal c)) d2 ->
  group = Text.jpg \/ group = Text.png ->
  rest = [] \/ rest = [0x0A%N] ->
  Net.artwork_tail (d1 ++ [0x78%N] ++ d2 ++ Text.bb_dot ++ group ++ rest)
  = Some (group, rest).
Proof.
  intros H1 H2 Hd1 Hd2 Hg Hr. unfold Net.artwork_tail.
  simpl. rewrite digit_run_app by done.
  destruct d1 as [|x1 d1']; [done|].
  change (Text.bb_dot ++ group ++ rest)
    with (0x62%N :: ([0x62; 0x2E]%N ++ group ++ rest)).
  rewrite digit_run_app by done.
  destruct d2 as [|x2 d2']; [done|].
  destruct Hg as [-> | ->], Hr as [-> | ->]; reflexivity.
Qed.

Lemma artwork_tail_no_slash s group rest :
  Net.artwork_tail s = Some (group, rest) -> Char.slash ∉ s.
Proof.
  intros (d1 & d2 & -> & _ & _ & Hd1 & Hd2 & Hg & Hr)%artwork_tail_Some Hin.
  rewrite !elem_of_app in Hin.
  destruct Hin as [Hin|[Hin|[Hin|[Hin|[Hin|Hin]]]]].
  - by apply digits_no_slash in Hin.
  - by apply list_elem_of_singleton in Hin.
  - by apply digits_no_slash in Hin.
  - revert Hin. compute_done.
  - revert Hin. destruct Hg as [-> | ->]; compute_done.
  - revert Hin. destruct Hr as [-> | ->]; compute_done.
Qed.

Lemma sub_artwork_rewrites size pre t group rest :
  Net.artwork_tail t = Some (group, rest) ->
  Net.sub_artwork size (pre ++ Char.slash :: t)
  = pre ++ [Char.slash] ++ size ++ [0x78%N] ++ size ++ Text.bb_dot
    ++ group ++ rest.
Proof.
  intros Ht. induction pre as [|c pre IH].
  - simpl. rewrite Ht. reflexivity.
  - rewrite <- !app_comm_cons. cbn [Net.sub_artwork].
    destruct (c =? Char.slash)%N; [|by rewrite IH].
    destruct (Net.artwork_tail (pre ++ Char.slash :: t))
      as [[g r]|] eqn:E; [|by rewrite IH].
    apply artwork_tail_no_slash in E. exfalso. apply E.
    apply elem_of_app. right. apply elem_of_cons. by left.
Qed.

Lemma sub_artwork_nonempty size s : s <> [] -> Net.sub_artwork size s <> [].
Proof.
  destruct s as [|c s]; [done|]. intros _. simpl.
  destruct (if (c =? Char.slash)%N then Net.artwork_tail s else None)
    as [[g r]|]; done.
Qed.

Lemma truthy_Some_iff (s : pystr) : Str.truthy (Some s) = true <-> s <> [].
Proof. destruct s; simpl; split; done. Qed.

(** X15.  The artwork of an iTunes result.  When the artwork URL ends in
    [/<digits>x<digits>bb.jpg] or [.png] (an optional final newline
    apart), whatever comes before, the candidate's image is the same URL
    with the size [1000x1000] and its thumbnail the one with [200x200].
    In every case the candidate has an image exactly when the result has
    an artwork URL that is not empty, and so does its thumbnail. *)
Theorem itunes_artwork_spec (r : Net.ITunesResult)
    (pre d1 d2 group rest : pystr) :
  (or_else (Net.artworkUrl100 r) (Net.artworkUrl60 r)
   = Some (pre ++ [Char.slash] ++ d1 ++ [0x78%N] ++ d2 ++ Text.bb_dot
           ++ group ++ rest) ->
   d1 <> [] -> d2 <> [] ->
   Forall (fun c => is_Some (Char.decimal c)) d1 ->
   Forall (fun c => is_Some (Char.decimal c)) d2 ->
   group = Text.jpg \/ group = Text.png ->
   rest = [] \/ rest = [0x0A%N] ->
   image (Net.itunes_candidate r)
   = Some (pre ++ [Char.slash] ++ Text.size_1000 ++ [0x78%N] ++ Text.size_1000
           ++ Text.bb_dot ++ group ++ rest)
   /\ thumb (Net.itunes_candidate r)
      = Some (pre ++ [Char.slash] ++ Text.size_200 ++ [0x78%N] ++ Text.size_200
              ++ Text.bb_dot ++ group ++ rest))
  /\ Str.truthy (image (Net.itunes_candidate r))
     = Str.truthy (or_else (Net.artworkUrl100 r) (Net.artworkUrl60 r))
  /\ Str.truthy (thumb (Net.itunes_candidate r))
     = Str.truthy (or_else (Net.artworkUrl100 r) (Net.artworkUrl60 r)).
Proof.
  unfold Net.itunes_candidate. cbn [image thumb].
  set (art := or_else (Net.artworkUrl100 r) (Net.artworkUrl60 r)).
  assert (forall size, Str.truthy art = true ->
            Str.truthy (Some (Net.sub_artwork size (Str.or_empty art))) = true)
    as Hne.
  { intros size Ha. apply truthy_Some_iff, sub_artwork_nonempty.
    destruct art as [[|c a]|]; done. }
  split_and!.
  - intros Ha H1 H2 Hd1 Hd2 Hg Hr.
    pose proof (artwork_tail_match d1 d2 group rest H1 H2 Hd1 Hd2 Hg Hr) as Ht.
    assert (Str.truthy art = true) as Hta.
    { rewrite Ha. apply truthy_Some_iff. by destruct pre. }
    pose proof (Hne Text.size_1000 Hta) as H1000.
    pose proof (Hne Text.size_200 Hta) as H200.
    rewrite Hta. unfold or_else at 1. rewrite H1000.
    unfold or_else at 1. rewrite H200.
    rewrite Ha. cbn [Str.or_empty default].
    change (pre ++ [Char.slash] ++ ?t) with (pre ++ Char.slash :: t).
    by rewrite !(sub_artwork_rewrites _ pre _ group rest Ht).
  - destruct (Str.truthy art) eqn:Ha.
    + cbv iota. unfold or_else. rewrite (Hne _ eq_refl). by apply Hne.
    + unfold or_else. simpl. exact Ha.
  - destruct (Str.truthy art) eqn:Ha.
    + cbv iota. unfold or_else at 1. rewrite (Hne _ eq_refl). by apply Hne.
    + unfold or_else. simpl. exact Ha.
Qed.

Lemma itunes_artwork_spec_witness :
  image (Net.itunes_candidate itunes_sample) = Some Sample2.art_1000
  /\ thumb (Net.itunes_candidate itunes_sample) = Some Sample2.art_200.
Proof.
  destruct (itunes_artwork_spec itunes_sample Sample2.art_pre
              Sample2.digits_100 Sample2.digits_100 Text.jpg []) as [H _].
  apply H; [reflexivity|done|done| | |by left|by left];
    repeat constructor; by eexists.
Defined.

(** *** Deezer *)

Lemma or_else_truthy x y :
  Str.truthy (or_else x y) = Str.truthy x || Str.truthy y.
Proof. unfold or_else. by destruct (Str.truthy x) eqn:E. Qed.

Lemma deezer_candidate_fields r y :
  provider (Net.deezer_candidate r y) = Text.Deezer
  /\ title (Net.deezer_candidate r y) = Net.album_title r
  /\ year (Net.deezer_candidate r y) = y
  /\ Str.truthy (image (Net.deezer_candidate r y))
     = Str.truthy (Net.cover_xl r) || Str.truthy (Net.cover_big r)
       || Str.truthy (Net.cover_medium r) || Str.truthy (Net.cover r)
  /\ Str.truthy (thumb (Net.deezer_candidate r y))
     = Str.truthy (image (Net.deezer_candidate r y)).
Proof.
  unfold Net.deezer_candidate. cbn [provider title year image thumb].
  rewrite !or_else_truthy.
  split_and!; try done;
    destruct (Str.truthy (Net.cover_xl r)), (Str.truthy (Net.cover_big r)),
      (Str.truthy (Net.cover_medium r)), (Str.truthy (Net.cover r)); done.
Qed.

Lemma deezer_step_spec web fast out0 st0 r :
  exists y st1,
    Net.deezer_step web fast (out0, st0) r
    = (out0 ++ [Net.deezer_candidate r y], st1)
    /\ (fast = true -> y = None /\ st1 = st0)
    /\ Net._bytes_cache st1 = Net._bytes_cache st0
    /\ (forall k v, Net._json_cache st0 !! k = Some v ->
                    Net._json_cache st1 !! k = Some v).
Proof.
  unfold Net.deezer_step. destruct fast.
  - exists None, st0. by split_and!.
  - pose proof (http_get_json_frame web (Net.detail_url r) None st0)
      as (Hb0 & Hj0 & _).
    destruct (Net.http_get_json web (Net.detail_url r) None st0)
      as [[detail|e] st1]; simpl in Hb0, Hj0.
    + exists (parse_year_from_date (Net.get_release_date detail)), st1.
      by split_and!.
    + exists None, st1. by split_and!.
Qed.

(** What the loop over the albums appends, and what it does to the
    state. *)
Lemma deezer_loop web fast rs out0 st0 :
  exists ys st1,
    foldl (Net.deezer_step web fast) (out0, st0) rs
    = (out0 ++ zip_with Net.deezer_candidate rs ys, st1)
    /\ length ys = length rs
    /\ (fast = true -> Forall (fun y => y = None) ys /\ st1 = st0)
    /\ Net._bytes_cache st1 = Net._bytes_cache st0
    /\ (forall k v, Net._json_cache st0 !! k = Some v ->
                    Net._json_cache st1 !! k = Some v).
Proof.
  revert out0 st0. induction rs as [|r rs IH]; intros out0 st0.
  - exists [], st0. simpl. rewrite app_nil_r. by split_and!.
  - cbn [foldl].
    destruct (deezer_step_spec web fast out0 st0 r)
      as (y & st1 & -> & Hf1 & Hb1 & Hj1).
    destruct (IH (out0 ++ [Net.deezer_candidate r y]) st1)
      as (ys & st2 & -> & Hlen & Hf2 & Hb2 & Hj2).
    exists (y :: ys), st2. split_and!.
    + by rewrite <- app_assoc.
    + simpl. by rewrite Hlen.
    + intros Hfast. destruct (Hf1 Hfast) as [-> ->].
      destruct (Hf2 Hfast) as [? ->]. split; [by constructor|done].
    + congruence.
    + intros k v Hk. by apply Hj2, Hj1.
Qed.

Lemma soft_year_filter_no_year (out : list Candidate) :
  Forall (fun c => year c = None) out ->
  forall Y tol, soft_year_filter out Y tol = out.
Proof.
  intros H [Y|] tol; [|done]. rewrite soft_year_filter_filter.
  induction H as [|c out Hc _ IH]; simpl; [done|].
  unfold year_within at 1. by rewrite Hc, IH.
Qed.

Lemma up_to_length {A} (limit : Z) (l : list A) :
  (0 <= limit)%Z -> length (Net.up_to limit l) <= Z.to_nat limit
  /\ Net.up_to limit l = take (Z.to_nat limit) l.
Proof.
  intros H. unfold Net.up_to. destruct (Z.leb_spec 0 limit); [|lia].
  split; [|done]. rewrite length_take. lia.
Qed.

Lemma http_get_json_result web url params st :
  match Net.http_get_json web url params st with
  | (Ok data, st') =>
      Net._json_cache st' !! Net.cache_key url params = Some data
      /\ exists more, Net.sent st' = Net.sent st ++ more
  | (Exc e, st') =>
      Net._json_cache st' = Net._json_cache st
      /\ Net._bytes_cache st' = Net._bytes_cache st
      /\ Net.sent st' = Net.sent st ++ [url]
  end.
Proof.
  unfold Net.http_get_json.
  destruct (Net._json_cache st !! Net.cache_key url params) as [data|] eqn:E.
  - split; [done|]. exists []. by rewrite app_nil_r.
  - destruct (Net.json_reply web (length (Net.sent st)) url params); simpl.
    + split; [by rewrite lookup_insert_eq|by eexists].
    + done.
Qed.

Lemma http_cache_frame_sent web url params st :
  exists more,
    Net.sent (Net.http_get_json web url params st).2 = Net.sent st ++ more
    /\ length more <= 1.
Proof.
  unfold Net.http_get_json.
  destruct (Net._json_cache st !! Net.cache_key url params) as [data|].
  - exists []. rewrite app_nil_r. split; [done|simpl; lia].
  - destruct (Net.json_reply web (length (Net.sent st)) url params);
      exists [url]; split; done.
Qed.

Lemma zip_with_deezer_fields rs ys :
  length ys = length rs ->
  title <$> zip_with Net.deezer_candidate rs ys = Net.album_title <$> rs
  /\ year <$> zip_with Net.deezer_candidate rs ys = ys
  /\ Forall (fun c => provider c = Text.Deezer
                      /\ Str.truthy (thumb c) = Str.truthy (image c))
            (zip_with Net.deezer_candidate rs ys).
Proof.
  revert ys. induction rs as [|r rs IH]; intros [|y ys] Hlen; try done.
  destruct (IH ys) as (Ht & Hy & Hf); [by injection Hlen|].
  pose proof (deezer_candidate_fields r y) as (? & ? & ? & _ & ?).
  cbn [zip_with]. rewrite !fmap_cons. split_and!.
  - by rewrite Ht.
  - by rewrite Hy.
  - by constructor.
Qed.

(** X16.  [provider_deezer] raises only when the search request does, and
    then nothing else was requested or stored.  When it returns for a
    query that is not blank, the search response is in the cache and the
    result holds one candidate for each of the first [limit] albums of
    that response, in their order, whatever became of the requests for
    their details; each candidate has a thumbnail exactly when it has an
    image.  In fast mode, the mode the worker uses, no further request is
    made and no candidate has a year, so the year filter keeps all of
    them and the year gate of the automatic pick rejects none. *)
Theorem provider_deezer_spec (web : Net.Web) (artist album : option pystr)
    (limit : Z) (fast : bool) (st : Net.State) :
  match Net.provider_deezer web artist album limit fast st with
  | (Ok out, st') =>
      (Net.search_term artist album = [] /\ out = [] /\ st' = st
       \/ exists data,
            Net._json_cache st'
              !! Net.cache_key Text.deezer_search
                   (Some {[ Text.q := Net.VStr (Net.search_term artist album) ]})
            = Some data
            /\ title <$> out
               = Net.album_title <$> Net.up_to limit (Net.get_data data))
      /\ Forall (fun c => provider c = Text.Deezer
                          /\ Str.truthy (thumb c) = Str.truthy (image c)) out
      /\ ((0 <= limit)%Z -> length out <= Z.to_nat limit)
      /\ (fast = true ->
          (exists more, Net.sent st' = Net.sent st ++ more /\ length more <= 1)
          /\ Forall (fun c => year c = None) out
          /\ (forall Y tol, soft_year_filter out Y tol = out)
          /\ (forall Y tol, Forall (fun c => year_gate Y tol c = false) out))
  | (Exc e, st') =>
      Net._json_cache st' = Net._json_cache st
      /\ Net._bytes_cache st' = Net._bytes_cache st
      /\ Net.sent st' = Net.sent st ++ [Text.deezer_search]
  end.
Proof.
  unfold Net.provider_deezer.
  destruct (Str.truthy (Some (Net.search_term artist album))) eqn:Hq; simpl.
  2:{ split_and!.
      - left. split_and!; [|done|done].
        by destruct (Net.search_term artist album).
      - constructor.
      - simpl. lia.
      - intros _. split_and!.
        + exists []. rewrite app_nil_r. split; [done|simpl; lia].
        + constructor.
        + by intros [Y|] tol.
        + intros Y tol. constructor. }
  pose proof (http_get_json_result web Text.deezer_search
                (Some {[ Text.q := Net.VStr (Net.search_term artist album) ]}) st)
    as Hres.
  destruct (Net.http_get_json web Text.deezer_search
              (Some {[ Text.q := Net.VStr (Net.search_term artist album) ]}) st)
    as [[data|e] st1] eqn:Hcall; [|exact Hres].
  destruct Hres as [Hkey Hsent].
  destruct (deezer_loop web fast (Net.up_to limit (Net.get_data data)) [] st1)
    as (ys & st2 & -> & Hlen & Hfast & Hb & Hj).
  rewrite app_nil_l.
  destruct (zip_with_deezer_fields _ _ Hlen) as (Ht & Hy & Hf).
  split_and!.
  - right. exists data. split; [by apply Hj|done].
  - done.
  - intros Hl. rewrite length_zip_with, Hlen, Nat.min_id.
    by apply up_to_length.
  - intros Hf'. destruct (Hfast Hf') as [Hys Hst]. subst st2.
    assert (Forall (fun y => y = None)
              (year <$> zip_with Net.deezer_candidate
                          (Net.up_to limit (Net.get_data data)) ys)) as Hnone
      by (by rewrite Hy).
    apply Forall_fmap in Hnone.
    split_and!.
    + pose proof (http_cache_frame_sent web Text.deezer_search
                    (Some {[ Text.q := Net.VStr (Net.search_term artist album) ]}) st)
        as Hs. rewrite Hcall in Hs. exact Hs.
    + done.
    + by apply soft_year_filter_no_year.
    + intros Y tol. eapply Forall_impl; [exact Hnone|]. simpl.
      intros c Hc. unfold year_gate. rewrite Hc. by destruct Y.
Qed.

(** *** MusicBrainz and the Cover Art Archive *)

Lemma cover_cached_kept st1 st2 c :
  bytes_kept st1 st2 -> cover_cached st1 c -> cover_cached st2 c.
Proof.
  intros Hk (url & b & ? & Hb & ?). exists url, b. split_and!; [done| |done].
  by apply Hk.
Qed.

Lemma caa_front_spec web r suffixes st :
  let res := Net.caa_front web r (Str.or_empty (Net.mbid r)) suffixes st in
  Net._json_cache res.2 = Net._json_cache st
  /\ bytes_kept st res.2
  /\ match res.1 with
     | Some c =>
         cover_cached res.2 c
         /\ exists suffix,
              suffix ∈ suffixes
              /\ image c = Some (Net.caa_url (Str.or_empty (Net.mbid r)) suffix)
              /\ thumb c = image c
              /\ provider c = Text.CoverArtArchive
              /\ title c = Net.release_title r
              /\ artist c = None
              /\ year c = parse_year_from_date (Net.date r)
     | None => True
     end.
Proof.
  cbv zeta. revert st. induction suffixes as [|suffix suffixes IH]; intros st.
  - simpl. split_and!; [done|by intros k v ?|done].
  - cbn [Net.caa_front].
    set (url := Net.caa_url (Str.or_empty (Net.mbid r)) suffix).
    pose proof (http_get_bytes_frame web url st) as (Hj & Hb & _).
    pose proof (http_get_bytes_cached web url st) as Hc.
    destruct (Net.http_get_bytes web url st) as [[b|e] st1]; simpl in Hj, Hb.
    + destruct (Nat.ltb_spec 400 (length b)) as [Hlen|Hlen].
      * simpl. split_and!; [done|done| |].
        -- exists url, b. split_and!; [done| |done]. by apply Hc.
        -- exists suffix. split_and!; try done. by left.
      * destruct (IH st1) as (Hj1 & Hb1 & Hres).
        split_and!; [congruence|by intros k v ?; apply Hb1, Hb|].
        destruct (Net.caa_front web r (Str.or_empty (Net.mbid r)) suffixes st1).1
          as [c|]; [|done].
        destruct Hres as (? & s & ? & ?). split; [done|].
        exists s. split; [by right|done].
    + destruct (IH st1) as (Hj1 & Hb1 & Hres).
      split_and!; [congruence|by intros k v ?; apply Hb1, Hb|].
      destruct (Net.caa_front web r (Str.or_empty (Net.mbid r)) suffixes st1).1
        as [c|]; [|done].
      destruct Hres as (? & s & ? & ?). split; [done|].
      exists s. split; [by right|done].
Qed.

Lemma caa_loop web rs out0 st0 :
  exists used new st1,
    foldl (Net.caa_step web) (out0, st0) rs = (out0 ++ new, st1)
    /\ Net._json_cache st1 = Net._json_cache st0
    /\ bytes_kept st0 st1
    /\ used `sublist_of` rs
    /\ Forall2 (fun r c => front_of r c /\ cover_cached st1 c) used new.
Proof.
  revert out0 st0. induction rs as [|r rs IH]; intros out0 st0.
  - exists [], [], st0. simpl. rewrite app_nil_r.
    split_and!; [done|done|by intros k v ?|done|constructor].
  - cbn [foldl]. unfold Net.caa_step at 2.
    destruct (Str.truthy (Net.mbid r)) eqn:Hid; cbn [negb].
    + pose proof (caa_front_spec web r
                    [Text.front_1200; Text.front; Text.front_500] st0)
        as (Hj0 & Hb0 & Hres).
      destruct (Net.caa_front web r (Str.or_empty (Net.mbid r))
                  [Text.front_1200; Text.front; Text.front_500] st0)
        as [[c|] st1]; simpl in Hj0, Hb0, Hres.
      * destruct (IH (out0 ++ [c]) st1)
          as (used & new & st2 & -> & Hj & Hb & Hsub & Hf).
        exists (r :: used), (c :: new), st2. split_and!.
        -- by rewrite <- app_assoc.
        -- congruence.
        -- intros k v ?. by apply Hb, Hb0.
        -- by apply sublist_skip.
        -- destruct Hres as (Hc & s & ? & ? & ? & ? & ? & ? & ?).
           constructor; [|done].
           split; [|by apply (cover_cached_kept st1)].
           exists s. by split_and!.
      * destruct (IH out0 st1) as (used & new & st2 & -> & Hj & Hb & Hsub & Hf).
        exists used, new, st2.
        split_and!; [done|congruence| |by apply sublist_cons|done].
        intros k v ?. by apply Hb, Hb0.
    + destruct (IH out0 st0) as (used & new & st2 & -> & Hj & Hb & Hsub & Hf).
      exists used, new, st2.
      split_and!; [done|done|done|by apply sublist_cons|done].
Qed.

Lemma provider_musicbrainz_caa_frame web artist album year_ limit st :
  match Net.provider_musicbrainz_caa web artist album year_ limit st with
  | (Ok out, st') => Forall (cover_cached st') out
  | (Exc _, _) => True
  end.
Proof.
  unfold Net.provider_musicbrainz_caa.
  destruct (negb (Str.truthy artist || Str.truthy album)); [constructor|].
  destruct (Net.http_get_json web Text.musicbrainz_release
              (Some (Net.mb_params artist album year_ limit)) st)
    as [[data|e] st1]; [|done].
  destruct (caa_loop web (Net.get_releases data) [] st1)
    as (used & new & st2 & -> & _ & _ & _ & Hf).
  rewrite app_nil_l. induction Hf as [|r c used new [_ Hc] _ IH]; by constructor.
Qed.

(** X17.  [provider_musicbrainz_caa] raises only when the search request
    does, and then nothing else was requested or stored: no failure of a
    cover request surfaces.  When it returns for a query that is not
    blank, the search response is in the cache, and the candidates are, in
    their order, one for each release of a selection of the releases of
    that response, taken in the order of the response: so there is at most
    one candidate for a release.  The candidate of a release, which has an
    id, carries under one of the three sizes the same URL as image and as
    thumbnail; the content behind it, longer than 400 bytes, is in the
    cache of contents. *)
Theorem provider_musicbrainz_caa_spec (web : Net.Web)
    (artist album : option pystr) (year_ : option Z) (limit : Z)
    (st : Net.State) :
  match Net.provider_musicbrainz_caa web artist album year_ limit st with
  | (Ok out, st') =>
      bytes_kept st st'
      /\ (Str.truthy artist = false /\ Str.truthy album = false
          /\ out = [] /\ st' = st
          \/ exists data used,
               Net._json_cache st'
                 !! Net.cache_key Text.musicbrainz_release
                      (Some (Net.mb_params artist album year_ limit))
               = Some data
               /\ used `sublist_of` Net.get_releases data
               /\ Forall2 (fun r c => front_of r c /\ cover_cached st' c)
                          used out)
  | (Exc e, st') =>
      Net._json_cache st' = Net._json_cache st
      /\ Net._bytes_cache st' = Net._bytes_cache st
      /\ Net.sent st' = Net.sent st ++ [Text.musicbrainz_release]
  end.
Proof.
  unfold Net.provider_musicbrainz_caa.
  destruct (Str.truthy artist || Str.truthy album) eqn:Hq; cbn [negb].
  2:{ apply orb_false_iff in Hq as [? ?]. split; [by intros k v ?|].
      left. by split_and!. }
  pose proof (http_get_json_result web Text.musicbrainz_release
                (Some (Net.mb_params artist album year_ limit)) st) as Hres.
  pose proof (http_get_json_frame web Text.musicbrainz_release
                (Some (Net.mb_params artist album year_ limit)) st)
    as (Hb0 & _ & _).
  destruct (Net.http_get_json web Text.musicbrainz_release
              (Some (Net.mb_params artist album year_ limit)) st)
    as [[data|e] st1]; [|exact Hres].
  simpl in Hb0. destruct Hres as [Hkey _].
  destruct (caa_loop web (Net.get_releases data) [] st1)
    as (used & new & st2 & -> & Hj & Hb & Hsub & Hf).
  rewrite app_nil_l. split.
  - intros k v Hk. apply Hb. by rewrite Hb0.
  - right. exists data, used. split_and!; [by rewrite Hj|done|done].
Qed.

(** *** The save step *)

Lemma char_lower_ci c d :
  Char.is_lower_ascii c = true -> Save.ci_eq c d = true -> plain_i d ->
  Char.lower d = [c].
Proof.
  intros Hc Hd [H1 H2]. unfold Save.ci_eq in Hd. unfold Char.lower.
  class_bounds.
  - subst d. class_decide.
  - subst d. class_decide. f_equal. lia.
  - lia.
  - lia.
Qed.

Lemma ci_prefix_lower p s m rest :
  Save.ci_prefix p s = Some (m, rest) ->
  Forall (fun c => Char.is_lower_ascii c = true) p ->
  Forall plain_i s ->
  Str.lower m = p /\ Forall plain_i rest.
Proof.
  revert s m. induction p as [|c p IH]; intros s m; simpl.
  - by intros [= <- <-].
  - destruct s as [|d s]; [done|].
    destruct (Save.ci_eq c d) eqn:E; [|done].
    destruct (Save.ci_prefix p s) as [[m' rest']|] eqn:Ep; [|done].
    intros [= <- <-] [Hc Hp]%Forall_cons [Hd Hs]%Forall_cons.
    destruct (IH s m' Ep Hp Hs) as [Hm Hr]. split; [|done].
    unfold Str.lower in *. simpl. by rewrite (char_lower_ci c d), Hm.
Qed.

Lemma ext_alt_lower alts s m :
  Save.ext_alt alts s = Some m ->
  Forall (Forall (fun c => Char.is_lower_ascii c = true)) alts ->
  Forall plain_i s ->
  Str.lower m ∈ alts.
Proof.
  induction alts as [|alt alts IH]; simpl; [done|].
  intros H [Ha Hs]%Forall_cons Hplain.
  destruct (Save.ci_prefix alt s) as [[m' rest]|] eqn:E.
  - destruct (Save.follows rest).
    + injection H as <-. destruct (ci_prefix_lower _ _ _ _ E Ha Hplain) as [-> _].
      by left.
    + right. by apply IH.
  - right. by apply IH.
Qed.

Lemma search_ext_lower url m :
  Save.search_ext url = Some m -> Forall plain_i url ->
  Str.lower m ∈ Save.ext_names.
Proof.
  induction url as [|c url IH]; cbn [Save.search_ext]; [done|].
  intros H [_ Hu]%Forall_cons.
  destruct (if (c =? 46)%N then Save.ext_alt Save.ext_names url else None)
    as [m'|] eqn:E.
  - injection H as <-. destruct (c =? 46)%N; [|done].
    apply (ext_alt_lower _ _ _ E); [|done].
    repeat constructor.
  - by apply IH.
Qed.

Lemma url_ext_dot url : exists e, Save.url_ext url = 0x2E%N :: e.
Proof. unfold Save.url_ext. destruct (Save.search_ext url); by eexists. Qed.

Lemma ext_names_chars e :
  e ∈ Save.ext_names ->
  Forall (fun c => Char.is_slug_char c = true) (0x2E%N :: e) /\ length e <= 4.
Proof.
  intros H. unfold Save.ext_names in H.
  repeat (apply elem_of_cons in H as [->|H]; [split; [repeat constructor|vm_compute; lia]|]).
  by apply elem_of_nil in H.
Qed.

(** X18.  The file name of the save step.  The extension always starts
    with a dot.  For a URL without the two dotted or dotless forms of "i"
    outside ASCII (any ASCII URL, for one) it is one of [.jpg], [.jpeg],
    [.png], [.webp], [.tif], [.tiff] in small letters, and the whole name
    consists of characters of [[A-Za-z0-9._+-]]: it holds no path
    separator, and it is at most 549 characters long. *)
Theorem file_name_spec (artist album : option pystr) (yr_int : option Z)
    (url : pystr) :
  (exists e, Save.url_ext url = 0x2E%N :: e)
  /\ (Forall plain_i url ->
      (exists e, e ∈ Save.ext_names /\ Save.url_ext url = 0x2E%N :: e)
      /\ Forall (fun c => Char.is_slug_char c = true)
                (Save.file_name artist album yr_int url)
      /\ (Char.slash ∉ Save.file_name artist album yr_int url)
      /\ length (Save.file_name artist album yr_int url) <= 549).
Proof.
  split; [apply url_ext_dot|]. intros Hplain.
  assert (exists e, e ∈ Save.ext_names /\ Save.url_ext url = 0x2E%N :: e)
    as (e & He & Hext).
  { unfold Save.url_ext. destruct (Save.search_ext url) as [m|] eqn:E.
    - exists (Str.lower m). split; [|done]. by apply (search_ext_lower url).
    - exists Text.jpg. split; [by left|done]. }
  destruct (ext_names_chars e He) as [Hchars Hlen].
  assert (Forall (fun c => Char.is_slug_char c = true)
            (Save.file_name artist album yr_int url)) as Hall.
  { unfold Save.file_name. rewrite Hext.
    repeat (apply Forall_app; split); try apply slug_chars; try done;
      repeat constructor. }
  split_and!.
  - by exists e.
  - done.
  - intros Hin. apply (proj1 (Forall_forall _ _) Hall) in Hin.
    apply slug_char_not_slash in Hin. by rewrite N.eqb_refl in Hin.
  - unfold Save.file_name. rewrite Hext, !length_app. simpl.
    assert (forall s, length (slug s) <= 180) as Hs
      by (intros s; unfold slug; rewrite length_take; lia).
    pose proof (Hs artist). pose proof (Hs album).
    pose proof (Hs (Some (Save.year_text yr_int))).
    change (length Text.double_underscore) with 2. lia.
Qed.

Lemma file_name_spec_witness :
  Save.file_name (Some radiohead) (Some ok_computer) (Some 1997%Z)
    Sample2.upper_jpg_query
  = Sample2.radiohead_file
  /\ Char.slash ∉ Sample2.radiohead_file.
Proof.
  destruct (file_name_spec (Some radiohead) (Some ok_computer) (Some 1997%Z)
              Sample2.upper_jpg_query) as [_ H].
  destruct H as (_ & _ & Hs & _).
  - repeat constructor; compute_done.
  - split; [reflexivity|exact Hs].
Defined.

Lemma save_cached web disk overwrite_existing out_dir genre artist album
    yr_int url st b :
  Net._bytes_cache st !! url = Some b ->
  Save.save web disk overwrite_existing out_dir genre artist album yr_int url st
  = match Save.makedirs disk (out_dir, slug genre) with
    | Some e => (Save.Error e, Save.NoWrite, st)
    | None =>
        if Save.isfile disk
             (out_dir, slug genre, Save.file_name artist album yr_int url)
           && negb overwrite_existing
        then (Save.ExistsSkipped, Save.NoWrite, st)
        else
          match Save.open_wb disk
                  (out_dir, slug genre, Save.file_name artist album yr_int url)
                  b with
          | None =>
              (Save.OK,
               Save.Wrote
                 (out_dir, slug genre, Save.file_name artist album yr_int url)
                 b, st)
          | Some e =>
              (Save.Error e,
               Save.WriteRaised
                 (out_dir, slug genre, Save.file_name artist album yr_int url),
               st)
          end
    end.
Proof.
  intros Hb. unfold Save.save.
  by rewrite (http_get_bytes_hit web url st b Hb).
Qed.




(** A file name that is too long for the file system: the download
    returns, the write raises, and the row ends as an error. *)
Lemma save_name_too_long :
  (255 <? length (Save.file_name (Some (replicate 200 0x61%N))
                    (Some (replicate 200 0x62%N)) None Sample2.upper_jpg_query))
  = true
  /\ (Save.save sample_web empty_disk false Sample2.covers (Some Sample.Rock)
        (Some (replicate 200 0x61%N)) (Some (replicate 200 0x62%N)) None
        Sample2.upper_jpg_query fresh).1.1
     = Save.Error Sample2.name_too_long.
Proof. split; by vm_compute. Qed.

(** X20.  A cover found by [provider_musicbrainz_caa] is not downloaded a
    second time: in any later state that still holds the provider's cache
    entries, the save step for the candidate's image sends no request,
    whatever the network would answer and however the step ends; what it
    writes, if it writes, is the content the provider checked (longer than
    400 bytes), and it does write it, with the status "OK", when the
    folder can be made, the file may be written (it does not exist, or
    overwriting is on) and the write does not raise. *)
Theorem caa_cover_saved_from_cache (web web' : Net.Web)
    (artist album : option pystr) (year_ : option Z) (limit : Z)
    (st : Net.State) :
  match Net.provider_musicbrainz_caa web artist album year_ limit st with
  | (Ok out, st') =>
      forall c, c ∈ out ->
        exists url b,
          image c = Some url /\ 400 < length b
          /\ forall st2 disk overwrite_existing out_dir genre artist' album'
                    yr_int,
               bytes_kept st' st2 ->
               exists status effect,
                 Save.save web' disk overwrite_existing out_dir genre artist'
                   album' yr_int url st2
                 = (status, effect, st2)
                 /\ (forall p data, effect = Save.Wrote p data -> data = b)
                 /\ (Save.makedirs disk (out_dir, slug genre) = None ->
                     Save.isfile disk
                       (out_dir, slug genre,
                        Save.file_name artist' album' yr_int url)
                     && negb overwrite_existing = false ->
                     Save.open_wb disk
                       (out_dir, slug genre,
                        Save.file_name artist' album' yr_int url) b = None ->
                     status = Save.OK
                     /\ effect
                        = Save.Wrote
                            (out_dir, slug genre,
                             Save.file_name artist' album' yr_int url) b)
  | (Exc _, _) => True
  end.
Proof.
  pose proof (provider_musicbrainz_caa_frame web artist album year_ limit st) as H.
  destruct (Net.provider_musicbrainz_caa web artist album year_ limit st)
    as [[out|e] st']; [|done].
  intros c Hin. apply (proj1 (Forall_forall _ _) H) in Hin.
  destruct Hin as (url & b & Hi & Hb & Hlen).
  exists url, b. split_and!; [done|done|].
  intros st2 disk ov out_dir genre a' al' yr Hk.
  rewrite (save_cached web' disk ov out_dir genre a' al' yr url st2 b)
    by (by apply Hk).
  destruct (Save.makedirs disk (out_dir, slug genre)) as [e|].
  { eexists _, _. split_and!; [done|done|done]. }
  destruct (Save.isfile disk
              (out_dir, slug genre, Save.file_name a' al' yr url) && negb ov).
  { eexists _, _. split_and!; [done|done|done]. }
  destruct (Save.open_wb disk
              (out_dir, slug genre, Save.file_name a' al' yr url) b) as [e|].
  - eexists _, _. split_and!; [done|done|done].
  - eexists _, _. split_and!; [done| |done]. by intros p d [= <- <-].
Qed.

(** The three providers on the sample network. *)
Lemma provider_deezer_examples :
  (Net.provider_deezer sample_web (Some radiohead) (Some ok_computer) 2 false
     fresh).1
  = Ok [ Net.deezer_candidate (deezer_sample 7 (Some url_B)) None;
         Net.deezer_candidate (deezer_sample 8 None) None ]
  /\ length (Net.sent (Net.provider_deezer sample_web (Some radiohead)
                         (Some ok_computer) 2 false fresh).2) = 3
  /\ length (Net.sent (Net.provider_deezer sample_web (Some radiohead)
                         (Some ok_computer) 2 true fresh).2) = 1.
Proof.
  vm_compute. repeat split.
Qed.

Lemma provider_musicbrainz_caa_example :
  (Net.provider_musicbrainz_caa sample_web (Some radiohead) (Some ok_computer)
     (Some 1997%Z) 3 fresh).1
  = Ok [ {| provider := Text.CoverArtArchive;
            image := Some (Net.caa_url Sample2.mbid_1 Text.front);
            thumb := Some (Net.caa_url Sample2.mbid_1 Text.front);
            title := Some ok_computer;
            artist := None;
            year := Some 1997%Z |} ]
  /\ Net.sent (Net.provider_musicbrainz_caa sample_web (Some radiohead)
                 (Some ok_computer) (Some 1997%Z) 3 fresh).2
     = [ Text.musicbrainz_release;
         Net.caa_url Sample2.mbid_1 Text.front_1200;
         Net.caa_url Sample2.mbid_1 Text.front ].
Proof.
  vm_compute. repeat split.
Qed.

Lemma caa_cover_saved_example :
  let st' := (Net.provider_musicbrainz_caa sample_web (Some radiohead)
                (Some ok_computer) (Some 1997%Z) 3 fresh).2 in
  Save.save no_web empty_disk false Sample2.covers (Some Sample.Rock)
    (Some radiohead) (Some ok_computer) (Some 1997%Z)
    (Net.caa_url Sample2.mbid_1 Text.front) st'
  = (Save.OK,
     Save.Wrote
       (Sample2.covers, Sample.Rock,
        Save.file_name (Some radiohead) (Some ok_computer) (Some 1997%Z)
          (Net.caa_url Sample2.mbid_1 Text.front))
       (replicate 401 Byte.x00),
     st').
Proof.
  vm_compute. reflexivity.
Qed.

Lemma http_cache_examples :
  (Net.http_get_json no_web Text.deezer_search None
     (Net.http_get_json sample_web Text.deezer_search None fresh).2).1
  = (Net.http_get_json sample_web Text.deezer_search None fresh).1
  /\ Net.cache_key Text.itunes_search
       (Some {[ Text.term := Net.VStr radiohead; Text.limit := Net.VInt 6;
                Text.media := Net.VStr Text.music ]})
     = Sample2.itunes_key.
Proof.
  vm_compute. repeat split.
Qed.

Lemma collect_failed_indices_example :
  Save._collect_failed_indices
    (Save.status_text
       <$> [Save.OK; Save.NotFound; Save.ExistsSkipped; Save.Error Sample2.timeout;
            Save.Searching; Save.Skipped; Save.Untouched])
  = [1; 3; 5].
Proof.
  reflexivity.
Qed.
